(** * tree5: gesture-driven particle Christmas tree

    A shallow embedding of [src/index.tsx] (with [src/types.ts] and
    [src/constants.ts]) and the properties of its state-transition logic.

    Conventions of the embedding.
    - A JavaScript [number] is an exact rational ([Q]); IEEE rounding is not
      modelled.  Equality of numbers is [==] where values are computed and
      Leibniz equality where a value is only passed along.
    - A JavaScript string is a [string] of bytes.
    - Objects that the source mutates in place ([THREE.Vector3]) live in an
      explicit store and are named by references.
    - React state is a value; a state updater [prev => next] is a function. *)

From Stdlib Require Import QArith Qabs Qround Qpower Lqa Ascii String.
From stdpp Require Import base decidable option list strings pretty gmap.

(** * 1. Types ([src/types.ts], [src/index.tsx] section 1) *)

Module Types.

Inductive TreeState : Set := CHAOS | FORMED.

#[global] Instance TreeState_eq_dec : EqDecision TreeState.
Proof. solve_decision. Defined.

Record GestureData : Type := mkGestureData {
  state : TreeState;
  handX : Q;
  handY : Q
}.

End Types.
Export Types.

(** * 2. Constants ([src/constants.ts], [src/index.tsx] section 2) *)

Module Constants.

Definition TREE_HEIGHT : Q := 12.
Definition TREE_RADIUS_BASE : Q := 5.
Definition CHAOS_RADIUS : Q := 35.

(** Particle counts.  They are array lengths; [N] keeps the literals
    readable and [N.to_nat] turns them into list lengths. *)
Definition FOLIAGE_COUNT : N := 15000.
Definition ORNAMENT_COUNT : N := 400.
Definition FILLER_COUNT : N := 1200.
Definition POLAROID_COUNT : N := 30.

(** [new THREE.Vector3(0, 3, 20)], by its coordinates. *)
Definition CAMERA_POS : Q * Q * Q := (0%Q, 3%Q, 20%Q).

End Constants.
Export Constants.

(** * 3. The application component ([App], [src/index.tsx] section 5) *)

Module App.

(** [useState<GestureData>({ state: FORMED, handX: 0, handY: 0 })] *)
Definition initialGestureData : GestureData :=
  {| state := FORMED; handX := 0; handY := 0 |}.

(** The updater installed by the [onData] callback handed to
    [geminiService.connect]:
    [prev => { newState = data.state === CHAOS ? CHAOS : prev.state; ... }]. *)
Definition onData (data prev : GestureData) : GestureData :=
  let newState :=
    if decide (state data = CHAOS) then CHAOS else state prev in
  {| state := newState; handX := handX data; handY := handY data |}.

(** [toggleSimulation]: [prev => ({ ...prev, state: prev.state === FORMED ?
    CHAOS : FORMED })]. *)
Definition toggleSimulation (prev : GestureData) : GestureData :=
  {| state := if decide (state prev = FORMED) then CHAOS else FORMED;
     handX := handX prev;
     handY := handY prev |}.

(** The two places of [App] that call [setGestureData]. *)
Inductive GestureEvent : Type :=
| Gesture (data : GestureData)   (* the service delivered a callback *)
| ToggleClick.                   (* the manual button was clicked *)

Definition setGestureData (e : GestureEvent) (prev : GestureData) : GestureData :=
  match e with
  | Gesture data => onData data prev
  | ToggleClick => toggleSimulation prev
  end.

Definition runGestureEvents (es : list GestureEvent) (g : GestureData) : GestureData :=
  fold_left (fun acc e => setGestureData e acc) es g.

(** A selected file, as [FileReader.readAsDataURL] sees it: the data URL
    that [reader.onload] reports, or [None] when the read fails and
    [onload] never fires (the promise then stays pending). *)
Record File : Type := mkFile { readAsDataURL : option string }.

(** [useState<string[]>([])] *)
Definition initialCustomPhotos : list string := [].

(** [Promise.all(fileList.map(file => new Promise(resolve => ...)))]:
    the results in the order of the files, once every promise resolved. *)
Definition Promise_all (promises : list (option string)) : option (list string) :=
  mapM id promises.

(** [handleFileChange]: the value of [customPhotos] after the handler has
    run to completion for [event.target.files]. *)
Definition handleFileChange (files : option (list File)) (customPhotos : list string)
  : list string :=
  match files with
  | None => customPhotos
  | Some fileList =>
      if decide (length fileList = 0%nat) then customPhotos
      else match Promise_all (map readAsDataURL fileList) with
           | Some images => images
           | None => customPhotos
           end
  end.

End App.

(** * 4. The progress signal ([Experience], [src/index.tsx] section 5) *)

Module Experience.

#[local] Open Scope Q_scope.

(** [x < y] on numbers, as a boolean. *)
Definition ltb (x y : Q) : bool := negb (Qle_bool y x).

(** [useState(0)] *)
Definition initialProgress : Q := 0.

(** [const target = gestureData.state === TreeState.CHAOS ? 1 : 0;] *)
Definition target (s : TreeState) : Q :=
  if decide (s = CHAOS) then 1 else 0.

(** The updater passed to [setProgress] by [animate]:
    [prev => { diff = target - prev; if (Math.abs(diff) < 0.001) return
    target; return prev + diff * 0.05; }]. *)
Definition animate (target prev : Q) : Q :=
  let diff := target - prev in
  if ltb (Qabs diff) 0.001 then target else prev + diff * 0.05.

(** One animation step while the tree state is [s]. *)
Definition step (s : TreeState) (prev : Q) : Q := animate (target s) prev.

(** The progress value after a sequence of animation steps; the effect is
    re-installed with a new target whenever [gestureData.state] changes, so
    every step carries the state that was current when it ran. *)
Definition progressAfter (frames : list TreeState) : Q :=
  fold_left (fun p s => step s p) frames initialProgress.

(** The same from any value of [progress], as when the state changes in the
    middle of a transition. *)
Definition runFrom (frames : list TreeState) (p : Q) : Q :=
  fold_left (fun q s => step s q) frames p.

End Experience.

(** * 5. The parts of three.js and GLSL that the components call *)

Module Three.

#[local] Open Scope Q_scope.

(** [THREE.Vector3] (also used for Euler angles and for [vec3]). *)
Record Vector3 : Type := mkVector3 { x : Q; y : Q; z : Q }.

Definition zero3 : Vector3 := mkVector3 0 0 0.

(** [THREE.MathUtils.lerp(x, y, t)]: [(1 - t) * x + t * y]. *)
Definition lerp (x y t : Q) : Q := (1 - t) * x + t * y.

(** GLSL [mix(x, y, a)]: [x * (1 - a) + y * a], componentwise on [vec3]. *)
Definition mix (x y a : Q) : Q := x * (1 - a) + y * a.

Definition mix3 (u v : Vector3) (a : Q) : Vector3 :=
  mkVector3 (mix (x u) (x v) a) (mix (y u) (y v) a) (mix (z u) (z v) a).

(** ** The store of vector objects

    A [ref] names a [Vector3] object; the store maps every allocated
    reference to the object's current contents.  [new THREE.Vector3(..)]
    allocates the next free reference. *)
Abbreviation ref := nat.
Abbreviation store := (list Vector3).

Definition deref (σ : store) (r : ref) : Vector3 := default zero3 (σ !! r).

Definition new_Vector3 (v : Vector3) (σ : store) : ref * store :=
  (length σ, σ ++ [v]).

(** [v.clone()]: a new object with the contents of [v]. *)
Definition Vector3_clone (r : ref) (σ : store) : ref * store :=
  new_Vector3 (deref σ r) σ.

(** [this.lerp(v, alpha)]: [this.x += (v.x - this.x) * alpha], likewise for
    [y] and [z]; only [this] is written. *)
Definition lerp3 (a b : Vector3) (alpha : Q) : Vector3 :=
  mkVector3 (x a + (x b - x a) * alpha)
            (y a + (y b - y a) * alpha)
            (z a + (z b - z a) * alpha).

Definition Vector3_lerp (this v : ref) (alpha : Q) (σ : store) : store :=
  <[this := lerp3 (deref σ this) (deref σ v) alpha]> σ.

(** [this.y += dy] *)
Definition addY (a : Vector3) (dy : Q) : Vector3 :=
  mkVector3 (x a) (y a + dy) (z a).

Definition Vector3_addY (this : ref) (dy : Q) (σ : store) : store :=
  <[this := addY (deref σ this) dy]> σ.

(** The three vector objects of a moving particle, and what it means for
    the particles of an ensemble to keep them apart in a store: every
    current position is allocated and is an object of its own, different
    from every formed and chaos position and from the current position of
    every other particle. *)
Record Refs : Type := mkRefs { rTarget : ref; rChaos : ref; rCurrent : ref }.

Definition separate (rs : list Refs) (σ : store) : Prop :=
  ∀ j k a b, rs !! j = Some a → rs !! k = Some b →
    (rCurrent a < length σ)%nat ∧
    rTarget a ≠ rCurrent b ∧
    rChaos a ≠ rCurrent b ∧
    (rCurrent a = rCurrent b → j = k).

(** [THREE.Object3D] as far as the components use it.  Its [position],
    [rotation] and [scale] are objects of its own that nothing else
    references, so they are kept by value; [matrix] is what
    [updateMatrix()] last composed from them. *)
Record Matrix4 : Type := compose {
  mPosition : Vector3; mRotation : Vector3; mScale : Vector3
}.

Record Object3D : Type := mkObject3D {
  position : Vector3; rotation : Vector3; scale : Vector3; matrix : Matrix4
}.

(** [new THREE.Object3D()] *)
Definition new_Object3D : Object3D :=
  let one := mkVector3 1 1 1 in
  mkObject3D zero3 zero3 one (compose zero3 zero3 one).

Definition setPosition (p : Vector3) (o : Object3D) : Object3D :=
  mkObject3D p (rotation o) (scale o) (matrix o).
Definition setRotation (r : Vector3) (o : Object3D) : Object3D :=
  mkObject3D (position o) r (scale o) (matrix o).
Definition setScalar (s : Q) (o : Object3D) : Object3D :=
  mkObject3D (position o) (rotation o) (mkVector3 s s s) (matrix o).
Definition updateMatrix (o : Object3D) : Object3D :=
  mkObject3D (position o) (rotation o) (scale o)
             (compose (position o) (rotation o) (scale o)).

(** [THREE.InstancedMesh]: the instance matrices, one per instance.
    [setMatrixAt(i, m)] writes slot [i]. *)
Abbreviation InstancedMesh := (list Matrix4).

Definition new_InstancedMesh (count : N) : InstancedMesh :=
  replicate (N.to_nat count) (compose zero3 zero3 (mkVector3 1 1 1)).

Definition setMatrixAt (i : nat) (m : Matrix4) (mesh : InstancedMesh) : InstancedMesh :=
  <[i := m]> mesh.

(** [array.forEach((d, i) => body)], threading the state the body mutates. *)
Fixpoint forEachFrom {A S : Type} (body : A → nat → S → S)
         (i : nat) (l : list A) (s : S) : S :=
  match l with
  | [] => s
  | d :: l' => forEachFrom body (Datatypes.S i) l' (body d i s)
  end.

Definition forEach {A S : Type} (body : A → nat → S → S) (l : list A) (s : S) : S :=
  forEachFrom body 0%nat l s.

End Three.

(** * 6. Foliage ([Foliage] and [FoliageShaderMaterial], section 4.1) *)

Module Foliage.

Import Three.
#[local] Open Scope Q_scope.

(** The uniforms the component writes ([uTime], [uProgress]); the colour
    uniforms are constants and play no part in positions. *)
Record Uniforms : Type := mkUniforms { uTime : Q; uProgress : Q }.

(** [uniforms: { uTime: { value: 0 }, uProgress: { value: 0 }, ... }] *)
Definition initialUniforms : Uniforms := mkUniforms 0 0.

(** What the [useMemo] loop computes for particle [i] from its
    [Math.random()] draws: the point in the cone, the point in the sphere
    and [rands[i]]. *)
Record Seed : Type := mkSeed {
  formed : Vector3; chaos : Vector3; rand : Q
}.

(** The three typed arrays returned by [useMemo]. *)
Record Buffers : Type := mkBuffers {
  positions : list Q; chaosPositions : list Q; randoms : list Q
}.

(** [new Float32Array(n)] *)
Definition new_Float32Array (n : nat) : list Q := replicate n 0.

Definition write3 (i : nat) (v : Vector3) (a : list Q) : list Q :=
  <[(i * 3 + 2)%nat := z v]> (<[(i * 3 + 1)%nat := y v]> (<[(i * 3)%nat := x v]> a)).

(** The body of [for (let i = 0; i < FOLIAGE_COUNT; i++)]. *)
Definition fillParticle (seed : nat → Seed) (b : Buffers) (i : nat) : Buffers :=
  mkBuffers (write3 i (formed (seed i)) (positions b))
            (write3 i (chaos (seed i)) (chaosPositions b))
            (<[i := rand (seed i)]> (randoms b)).

Definition fillBuffers (seed : nat → Seed) (count : nat) : Buffers :=
  fold_left (fillParticle seed) (seq 0 count)
    (mkBuffers (new_Float32Array (count * 3)) (new_Float32Array (count * 3))
               (new_Float32Array count)).

(** [useMemo(() => ..., [])]: computed when the component mounts. *)
Definition useMemoBuffers (seed : nat → Seed) : Buffers :=
  fillBuffers seed (N.to_nat FOLIAGE_COUNT).

(** Attribute fetch for vertex [i] from an array with [itemSize = 3]. *)
Definition attribute3 (a : list Q) (i : nat) : option Vector3 :=
  vx ← a !! (i * 3)%nat;
  vy ← a !! (i * 3 + 1)%nat;
  vz ← a !! (i * 3 + 2)%nat;
  Some (mkVector3 vx vy vz).

Section Shader.

(** GLSL [sin]. *)
Variable sin : Q → Q.

(** The vertex shader up to the model-space position [pos] that is handed
    to the model-view and projection matrices. *)
Definition vertexShader (u : Uniforms) (aTargetPos aChaosPos : Vector3)
           (aRandom : Q) : Vector3 :=
  let pos := mix3 aTargetPos aChaosPos (uProgress u) in
  let wind := sin (uTime u * 2.0 + aRandom * 10.0) * 0.1 in
  mkVector3 (x pos + wind) (y pos) (z pos).

(** The position at which vertex [i] is drawn. *)
Definition renderedPosition (u : Uniforms) (b : Buffers) (i : nat) : option Vector3 :=
  aTargetPos ← attribute3 (positions b) i;
  aChaosPos ← attribute3 (chaosPositions b) i;
  aRandom ← randoms b !! i;
  Some (vertexShader u aTargetPos aChaosPos aRandom).

End Shader.

(** [useFrame]: [uTime = clock.elapsedTime;
    uProgress = lerp(uProgress, progress, 0.1)], when the material is
    attached ([shaderRef.current]). *)
Definition useFrame (elapsedTime progress : Q) (shaderRef : option Uniforms)
  : option Uniforms :=
  match shaderRef with
  | Some u => Some (mkUniforms elapsedTime (lerp (uProgress u) progress 0.1))
  | None => None
  end.

(** The uniforms after a run of frames, each with its clock reading and the
    [progress] prop of that render. *)
Definition framesFrom (u : Uniforms) (frames : list (Q * Q)) : option Uniforms :=
  fold_left (fun r f => useFrame (fst f) (snd f) r) frames (Some u).

End Foliage.

(** * 7. Ornaments and fillers (sections 4.2 and 4.4) *)

Module Ornaments.

Import Three.
#[local] Open Scope Q_scope.

(** An element of [data]; [targetPos], [chaosPos] and [currentPos] are
    [Vector3] objects.  (The colour is not tracked: it is set once by
    [setColorAt] and never read by the motion.) *)
Record Datum : Type := mkDatum {
  targetPos : ref; chaosPos : ref; scale : Q; speed : Q; currentPos : ref
}.

Definition refs (d : Datum) : Refs := mkRefs (targetPos d) (chaosPos d) (currentPos d).

(** What the [useMemo] callback computes from its [Math.random()] draws. *)
Record Seed : Type := mkSeed {
  formed : Vector3; chaos : Vector3; size : Q; rate : Q
}.

(** [{ targetPos, chaosPos, scale, color, speed, currentPos: chaosPos.clone() }] *)
Definition newDatum (s : Seed) (σ : store) : Datum * store :=
  let '(t, σ1) := new_Vector3 (formed s) σ in
  let '(c, σ2) := new_Vector3 (chaos s) σ1 in
  let '(cur, σ3) := Vector3_clone c σ2 in
  (mkDatum t c (size s) (rate s) cur, σ3).

(** [Array.from({ length }).map((_, i) => newDatum)] *)
Fixpoint newData (seeds : list Seed) (σ : store) : list Datum * store :=
  match seeds with
  | [] => ([], σ)
  | s :: rest =>
      let '(d, σ1) := newDatum s σ in
      let '(ds, σ2) := newData rest σ1 in
      (d :: ds, σ2)
  end.

(** [useMemo(() => ..., [])] *)
Definition useMemoData (seed : nat → Seed) (σ : store) : list Datum * store :=
  newData (map seed (seq 0 (N.to_nat ORNAMENT_COUNT))) σ.

(** What a frame mutates: the vector store, [tempObject] and the mesh. *)
Record Scene : Type := mkScene {
  heap : store; tempObject : Object3D; mesh : InstancedMesh
}.

(** The body of [useLayoutEffect]'s [data.forEach]. *)
Definition layoutItem (d : Datum) (i : nat) (sc : Scene) : Scene :=
  let t := setPosition (deref (heap sc) (targetPos d)) (tempObject sc) in
  let t := setScalar (scale d) t in
  let t := updateMatrix t in
  mkScene (heap sc) t (setMatrixAt i (matrix t) (mesh sc)).

Definition useLayoutEffect (data : list Datum) (meshRef : bool) (sc : Scene) : Scene :=
  if meshRef then forEach layoutItem data sc else sc.

Section Frame.

(** [Math.sin] *)
Variable sin : Q → Q.

(** The body of [useFrame]'s [data.forEach]; [now] is [Date.now()]. *)
Definition frameItem (progress now : Q) (d : Datum) (i : nat) (sc : Scene) : Scene :=
  let dest := if Experience.ltb 0.5 progress then chaosPos d else targetPos d in
  let σ := Vector3_lerp (currentPos d) dest (speed d) (heap sc) in
  let σ := if Experience.ltb 0.5 progress
           then Vector3_addY (currentPos d)
                  (sin (now * 0.001 + inject_Z (Z.of_nat i)) * 0.02) σ
           else σ in
  let t := setPosition (deref σ (currentPos d)) (tempObject sc) in
  let t := setRotation (mkVector3 (x (rotation t) + 0.01) (y (rotation t) + 0.01)
                                  (z (rotation t))) t in
  let t := setScalar (scale d) t in
  let t := updateMatrix t in
  mkScene σ t (setMatrixAt i (matrix t) (mesh sc)).

(** [useFrame(() => { if (!meshRef.current) return; data.forEach(..) })] *)
Definition useFrame (data : list Datum) (meshRef : bool) (progress now : Q)
           (sc : Scene) : Scene :=
  if meshRef then forEach (frameItem progress now) data sc else sc.

(** A run of frames, each with the [progress] prop and the clock reading
    of that frame. *)
Definition runFrames (data : list Datum) (frames : list (Q * Q)) (sc : Scene) : Scene :=
  fold_left (fun s f => useFrame data true (fst f) (snd f) s) frames sc.

End Frame.

End Ornaments.

Module Fillers.

Import Three.
#[local] Open Scope Q_scope.

Record Datum : Type := mkDatum {
  targetPos : ref; chaosPos : ref; scale : Q; speed : Q; currentPos : ref;
  initialRotation : Vector3
}.

Definition refs (d : Datum) : Refs := mkRefs (targetPos d) (chaosPos d) (currentPos d).

Record Seed : Type := mkSeed {
  formed : Vector3; chaos : Vector3; size : Q; rate : Q; spin : Vector3
}.

(** [{ targetPos, chaosPos, scale, color, speed, currentPos: chaosPos.clone(),
    initialRotation }] *)
Definition newDatum (s : Seed) (σ : store) : Datum * store :=
  let '(t, σ1) := new_Vector3 (formed s) σ in
  let '(c, σ2) := new_Vector3 (chaos s) σ1 in
  let '(cur, σ3) := Vector3_clone c σ2 in
  (mkDatum t c (size s) (rate s) cur (spin s), σ3).

Fixpoint newData (seeds : list Seed) (σ : store) : list Datum * store :=
  match seeds with
  | [] => ([], σ)
  | s :: rest =>
      let '(d, σ1) := newDatum s σ in
      let '(ds, σ2) := newData rest σ1 in
      (d :: ds, σ2)
  end.

Definition useMemoData (seed : nat → Seed) (σ : store) : list Datum * store :=
  newData (map seed (seq 0 (N.to_nat FILLER_COUNT))) σ.

Record Scene : Type := mkScene {
  heap : store; tempObject : Object3D; mesh : InstancedMesh
}.

Definition layoutItem (d : Datum) (i : nat) (sc : Scene) : Scene :=
  let t := setPosition (deref (heap sc) (targetPos d)) (tempObject sc) in
  let t := setScalar (scale d) t in
  let t := setRotation (initialRotation d) t in
  let t := updateMatrix t in
  mkScene (heap sc) t (setMatrixAt i (matrix t) (mesh sc)).

Definition useLayoutEffect (data : list Datum) (meshRef : bool) (sc : Scene) : Scene :=
  if meshRef then forEach layoutItem data sc else sc.

(** The body of [useFrame]'s [data.forEach]; [time] is
    [state.clock.elapsedTime]. *)
Definition frameItem (progress time : Q) (d : Datum) (i : nat) (sc : Scene) : Scene :=
  let dest := if Experience.ltb 0.5 progress then chaosPos d else targetPos d in
  let σ := Vector3_lerp (currentPos d) dest (speed d) (heap sc) in
  let t := setPosition (deref σ (currentPos d)) (tempObject sc) in
  let t := setRotation (mkVector3 (x (initialRotation d) + time * 0.5)
                                  (y (initialRotation d) + time * 0.5)
                                  (z (initialRotation d))) t in
  let t := setScalar (scale d) t in
  let t := updateMatrix t in
  mkScene σ t (setMatrixAt i (matrix t) (mesh sc)).

Definition useFrame (data : list Datum) (meshRef : bool) (progress time : Q)
           (sc : Scene) : Scene :=
  if meshRef then forEach (frameItem progress time) data sc else sc.

Definition runFrames (data : list Datum) (frames : list (Q * Q)) (sc : Scene) : Scene :=
  fold_left (fun s f => useFrame data true (fst f) (snd f) s) frames sc.

End Fillers.

(** * 8. Polaroids (section 4.3) *)

Module Polaroids.

(** [`https://picsum.photos/300/300?random=${i}`] *)
Definition placeholder (i : nat) : string :=
  "https://picsum.photos/300/300?random=" +:+ pretty i.

(** [useMemo(() => photos.length > 0 ? photos :
    Array.from({ length: POLAROID_COUNT }).map((_, i) => placeholder), [photos])] *)
Definition images (photos : list string) : list string :=
  if decide (0 < length photos)%nat then photos
  else map placeholder (seq 0 (N.to_nat POLAROID_COUNT)).

(** The props of one rendered [<PolaroidItem>]; [url] is [None] where the
    source would read [undefined]. *)
Record PolaroidItem : Type := mkPolaroidItem {
  index : nat; url : option string; total : N
}.

(** [Array.from({ length: POLAROID_COUNT }).map((_, i) =>
    <PolaroidItem index={i} url={images[i % images.length]} total={POLAROID_COUNT} />)] *)
Definition render (photos : list string) : list PolaroidItem :=
  let images := images photos in
  map (fun i => mkPolaroidItem i (images !! (i mod length images)%nat) POLAROID_COUNT)
      (seq 0 (N.to_nat POLAROID_COUNT)).

End Polaroids.

(** * 9. JavaScript values, [JSON.parse] and the regular expression *)

Module Js.

#[local] Open Scope N_scope.

(** A JavaScript string is its sequence of UTF-16 code units. *)
Abbreviation jsstring := (list N).

Definition chr (a : ascii) : N := N_of_ascii a.

(** The code units of an ASCII literal. *)
Definition str (s : string) : jsstring := map chr (list_ascii_of_string s).

(** The same, with every apostrophe standing for a double quote, so that
    JSON texts can be written down. *)
Definition json (s : string) : jsstring :=
  map (fun u => if u =? 39 then 34 else u) (str s).

(** ** Values that [JSON.parse] returns *)
#[local] Unset Elimination Schemes.
Inductive JSValue : Type :=
| JNull
| JBool (b : bool)
| JNumber (q : Q)
| JString (s : jsstring)
| JArray (items : list JSValue)
| JObject (fields : list (jsstring * JSValue)).
#[local] Set Elimination Schemes.

(** ** Exceptions and callback invocations

    A computation may invoke callbacks (they are appended to the log, paired
    with the callback that was invoked) and either returns or throws. *)
Abbreviation Callback := nat.

Inductive Exc (A : Type) : Type :=
| Ok (a : A)
| Throw.
Arguments Ok {A} a.
Arguments Throw {A}.

Definition M (A : Type) : Type :=
  list (Callback * GestureData) → Exc A * list (Callback * GestureData).

Definition ret {A} (a : A) : M A := fun log => (Ok a, log).
Definition throw {A} : M A := fun log => (Throw, log).
Definition bind {A B} (m : M A) (k : A → M B) : M B :=
  fun log => match m log with
             | (Ok a, log') => k a log'
             | (Throw, log') => (Throw, log')
             end.
(** [try { body } catch (e) { handler }] *)
Definition try_catch {A} (body handler : M A) : M A :=
  fun log => match body log with
             | (Ok a, log') => (Ok a, log')
             | (Throw, log') => handler log'
             end.
(** [onData(gd)] *)
Definition invoke (onData : Callback) (gd : GestureData) : M unit :=
  fun log => (Ok tt, log ++ [(onData, gd)]).
Definition lift {A} (e : Exc A) : M A := fun log => (e, log).

Notation "x ←' m ; k" := (bind m (fun x => k))
  (at level 20, m at level 100, k at level 200, only parsing).
Notation "m ;;' k" := (bind m (fun _ => k))
  (at level 100, k at level 200, right associativity, only parsing).

(** ** [JSON.parse]: the lexer *)

Inductive Token : Type :=
| TLBrace | TRBrace | TLBracket | TRBracket | TColon | TComma
| TString (s : jsstring) | TNumber (q : Q) | TTrue | TFalse | TNull.

Definition isWs (u : N) : bool :=
  (u =? 32) || (u =? 9) || (u =? 10) || (u =? 13).
Definition isDigit (u : N) : bool := (48 <=? u) && (u <=? 57).
Definition isLetter (u : N) : bool :=
  ((65 <=? u) && (u <=? 90)) || ((97 <=? u) && (u <=? 122)).
(** The characters of number and literal tokens. *)
Definition isWordChar (u : N) : bool :=
  isDigit u || isLetter u || (u =? 43) || (u =? 45) || (u =? 46).

Fixpoint spanDigits (l : jsstring) : jsstring * jsstring :=
  match l with
  | u :: r => if isDigit u
              then let '(ds, rest) := spanDigits r in (u :: ds, rest)
              else ([], l)
  | [] => ([], [])
  end.

Definition digitsValue (ds : jsstring) : N :=
  fold_left (fun acc u => acc * 10 + (u - 48)) ds 0.

(** The JSON number grammar: an optional minus sign; an integer part that
    is [0] or starts with a non-zero digit; an optional fraction (a dot and
    at least one digit); an optional exponent ([e] or [E], an optional
    sign, at least one digit). *)
Definition parseNumber (w : jsstring) : option Q :=
  let '(neg, w1) := match w with 45 :: r => (true, r) | _ => (false, w) end in
  let '(ip, w2) := spanDigits w1 in
  let '(fp, w3) := match w2 with
                   | 46 :: r => let '(f, r') := spanDigits r in (Some f, r')
                   | _ => (None, w2)
                   end in
  let '(ex, w4) := match w3 with
                   | u :: r =>
                       if (u =? 101) || (u =? 69) then
                         let '(eneg, r1) := match r with
                                            | 43 :: r' => (false, r')
                                            | 45 :: r' => (true, r')
                                            | _ => (false, r)
                                            end in
                         let '(ed, r2) := spanDigits r1 in
                         (Some (eneg, ed), r2)
                       else (None, w3)
                   | [] => (None, w3)
                   end in
  let intOk := match ip with
               | [] => false
               | 48 :: _ :: _ => false
               | _ => true
               end in
  let fracOk := match fp with Some [] => false | _ => true end in
  let expOk := match ex with Some (_, []) => false | _ => true end in
  let restOk := match w4 with [] => true | _ => false end in
  if intOk && fracOk && expOk && restOk then
    let fd := default [] fp in
    let mant : Q := (inject_Z (Z.of_N (digitsValue (ip ++ fd)))
                     / inject_Z (Z.of_N (10 ^ N.of_nat (length fd))))%Q in
    let e : Z := match ex with
                 | Some (eneg, ed) =>
                     if eneg then Z.opp (Z.of_N (digitsValue ed))
                     else Z.of_N (digitsValue ed)
                 | None => 0%Z
                 end in
    let v : Q := (mant * Qpower 10 e)%Q in
    Some (if neg then Qopp v else v)
  else None.

(** A maximal run of word characters is [true], [false], [null] or a
    number. *)
Definition closeWord (w_rev : jsstring) : option Token :=
  let w := rev w_rev in
  if decide (w = str "true") then Some TTrue
  else if decide (w = str "false") then Some TFalse
  else if decide (w = str "null") then Some TNull
  else TNumber <$> parseNumber w.

Definition hexValue (u : N) : option N :=
  if isDigit u then Some (u - 48)
  else if (97 <=? u) && (u <=? 102) then Some (u - 87)
  else if (65 <=? u) && (u <=? 70) then Some (u - 55)
  else None.

(** The character after a backslash, except [u]. *)
Definition escape (u : N) : option N :=
  if u =? 34 then Some 34 else if u =? 92 then Some 92
  else if u =? 47 then Some 47 else if u =? 98 then Some 8
  else if u =? 102 then Some 12 else if u =? 110 then Some 10
  else if u =? 114 then Some 13 else if u =? 116 then Some 9
  else None.

Inductive LexState : Type :=
| LDefault
| LWord (w_rev : jsstring)
| LString (s_rev : jsstring)
| LEscape (s_rev : jsstring)
| LUnicode (s_rev : jsstring) (hex : list N).

Definition lexDefault (u : N) : option (LexState * list Token) :=
  if isWs u then Some (LDefault, [])
  else if u =? 123 then Some (LDefault, [TLBrace])
  else if u =? 125 then Some (LDefault, [TRBrace])
  else if u =? 91 then Some (LDefault, [TLBracket])
  else if u =? 93 then Some (LDefault, [TRBracket])
  else if u =? 58 then Some (LDefault, [TColon])
  else if u =? 44 then Some (LDefault, [TComma])
  else if u =? 34 then Some (LString [], [])
  else if isWordChar u then Some (LWord [u], [])
  else None.

Definition lexStep (st : LexState) (u : N) : option (LexState * list Token) :=
  match st with
  | LDefault => lexDefault u
  | LWord w =>
      if isWordChar u then Some (LWord (u :: w), [])
      else tok ← closeWord w;
           '(st', toks) ← lexDefault u;
           Some (st', tok :: toks)
  | LString s =>
      if u =? 34 then Some (LDefault, [TString (rev s)])
      else if u =? 92 then Some (LEscape s, [])
      else if u <? 32 then None
      else Some (LString (u :: s), [])
  | LEscape s =>
      match escape u with
      | Some u' => Some (LString (u' :: s), [])
      | None => if u =? 117 then Some (LUnicode s [], []) else None
      end
  | LUnicode s hex =>
      d ← hexValue u;
      let hex' := hex ++ [d] in
      if decide (length hex' = 4%nat)
      then Some (LString (fold_left (fun acc h => acc * 16 + h) hex' 0 :: s), [])
      else Some (LUnicode s hex', [])
  end.

Fixpoint lex (st : LexState) (text : jsstring) : option (list Token) :=
  match text with
  | [] => match st with
          | LDefault => Some []
          | LWord w => tok ← closeWord w; Some [tok]
          | _ => None
          end
  | u :: rest =>
      '(st', toks) ← lexStep st u;
      more ← lex st' rest;
      Some (toks ++ more)
  end.

(** ** [JSON.parse]: the parser, a pushdown automaton over the tokens *)

Inductive Frame : Type :=
| FArr (items_rev : list JSValue)
| FObj (fields_rev : list (jsstring * JSValue)) (key : jsstring).

Inductive PState : Type :=
| ExpValue (stack : list Frame)
| ArrOpen (stack : list Frame)
| ArrNext (items_rev : list JSValue) (stack : list Frame)
| ObjOpen (stack : list Frame)
| ExpKey (fields_rev : list (jsstring * JSValue)) (stack : list Frame)
| ExpColon (fields_rev : list (jsstring * JSValue)) (key : jsstring) (stack : list Frame)
| ObjNext (fields_rev : list (jsstring * JSValue)) (stack : list Frame)
| Done (v : JSValue).

(** A value is complete: it is the result, or goes into the enclosing
    array or object. *)
Definition complete (v : JSValue) (stack : list Frame) : PState :=
  match stack with
  | [] => Done v
  | FArr items :: stack' => ArrNext (v :: items) stack'
  | FObj fields key :: stack' => ObjNext ((key, v) :: fields) stack'
  end.

Definition startValue (t : Token) (stack : list Frame) : option PState :=
  match t with
  | TLBracket => Some (ArrOpen stack)
  | TLBrace => Some (ObjOpen stack)
  | TString s => Some (complete (JString s) stack)
  | TNumber q => Some (complete (JNumber q) stack)
  | TTrue => Some (complete (JBool true) stack)
  | TFalse => Some (complete (JBool false) stack)
  | TNull => Some (complete JNull stack)
  | _ => None
  end.

Definition parseStep (st : PState) (t : Token) : option PState :=
  match st, t with
  | ExpValue stack, _ => startValue t stack
  | ArrOpen stack, TRBracket => Some (complete (JArray []) stack)
  | ArrOpen stack, _ => startValue t (FArr [] :: stack)
  | ArrNext items stack, TComma => Some (ExpValue (FArr items :: stack))
  | ArrNext items stack, TRBracket => Some (complete (JArray (rev items)) stack)
  | ObjOpen stack, TRBrace => Some (complete (JObject []) stack)
  | ObjOpen stack, TString k => Some (ExpColon [] k stack)
  | ExpKey fields stack, TString k => Some (ExpColon fields k stack)
  | ExpColon fields k stack, TColon => Some (ExpValue (FObj fields k :: stack))
  | ObjNext fields stack, TComma => Some (ExpKey fields stack)
  | ObjNext fields stack, TRBrace => Some (complete (JObject (rev fields)) stack)
  | _, _ => None
  end.

Fixpoint parseTokens (st : PState) (ts : list Token) : option PState :=
  match ts with
  | [] => Some st
  | t :: rest => st' ← parseStep st t; parseTokens st' rest
  end.

(** [JSON.parse(text)]: the value, or [Throw] for a [SyntaxError]. *)
Definition JSON_parse (text : jsstring) : Exc JSValue :=
  match lex LDefault text ≫= parseTokens (ExpValue []) with
  | Some (Done v) => Ok v
  | _ => Throw
  end.

(** ** Property access and [typeof] *)

(** The own property [k] of a parsed object: with a repeated key, the last
    member wins. *)
Definition lookupField (k : jsstring) (fields : list (jsstring * JSValue))
  : option JSValue :=
  (fun r => snd (snd r)) <$> list_find (fun kv => fst kv = k) (rev fields).

(** [v.k] for a key that no prototype defines ([state], [x], [y]):
    [undefined] ([None]) unless [v] is an object with that member; a
    [TypeError] on [null]. *)
Definition getProp (v : JSValue) (k : jsstring) : Exc (option JSValue) :=
  match v with
  | JNull => Throw
  | JObject fields => Ok (lookupField k fields)
  | _ => Ok None
  end.

(** [v === 'CHAOS'] *)
Definition isChaosString (v : option JSValue) : bool :=
  match v with
  | Some (JString s) => bool_decide (s = str "CHAOS")
  | _ => false
  end.

(** [typeof v === 'number' ? v : 0] *)
Definition numberOr0 (v : option JSValue) : Q :=
  match v with
  | Some (JNumber q) => q
  | _ => 0%Q
  end.

(** ** [text.match(/\{.*\}/)] *)

(** [.] matches any code unit but a line terminator. *)
Definition isLineTerminator (u : N) : bool :=
  (u =? 10) || (u =? 13) || (u =? 8232) || (u =? 8233).

(** [.*\}] against a prefix of [s], greedy: up to the last closing brace
    before the next line terminator. *)
Fixpoint greedyToBrace (s : jsstring) : option jsstring :=
  match s with
  | [] => None
  | u :: rest =>
      match (if isLineTerminator u then None else greedyToBrace rest) with
      | Some m => Some (u :: m)
      | None => if u =? 125 then Some [u] else None
      end
  end.

(** [match[0]] of the leftmost match, [None] when [match] returns [null]. *)
Fixpoint matchBraces (s : jsstring) : option jsstring :=
  match s with
  | [] => None
  | u :: rest =>
      if u =? 123 then
        match greedyToBrace rest with
        | Some m => Some (u :: m)
        | None => matchBraces rest
        end
      else matchBraces rest
  end.

(** ** Vocabulary for the parser's invariants *)

(** The outermost container that is still open is an object. *)
Definition lastIsObj (stack : list Frame) : bool :=
  match last stack with
  | Some (FObj _ _) => true
  | _ => false
  end.

Definition inObj (stack : list Frame) : bool :=
  match stack with
  | [] => true
  | _ => lastIsObj stack
  end.

(** The value being parsed is an object: either the parse is inside one, or
    it is done and returned one. *)
Definition rootIsObj (st : PState) : bool :=
  match st with
  | ExpValue stack | ArrOpen stack | ArrNext _ stack => lastIsObj stack
  | ObjOpen stack | ExpKey _ stack | ExpColon _ _ stack | ObjNext _ stack => inObj stack
  | Done (JObject _) => true
  | Done _ => false
  end.

End Js.

(** * 10. The gesture service ([GeminiLiveService], section 3) *)

Module GeminiLiveService.

Import Js.

(** ** Messages of the live session and their handler *)

(** A part of [msg.serverContent.modelTurn.parts]. *)
Record Part : Type := mkPart { text : option jsstring }.

(** [msg.serverContent?.modelTurn?.parts], [None] when a link is missing. *)
Record LiveServerMessage : Type := mkMessage { parts : option (list Part) }.

(** [if (s)] on an optional string: defined and not empty. *)
Definition truthy (s : option jsstring) : bool :=
  match s with
  | Some (_ :: _) => true
  | _ => false
  end.

(** [onData({ state: json.state === 'CHAOS' ? CHAOS : FORMED,
              handX: typeof json.x === 'number' ? json.x : 0,
              handY: typeof json.y === 'number' ? json.y : 0 })] *)
Definition deliver (onData : Callback) (json : JSValue) : M unit :=
  st ←' lift (getProp json (str "state"));
  hx ←' lift (getProp json (str "x"));
  hy ←' lift (getProp json (str "y"));
  invoke onData
    {| state := if isChaosString st then CHAOS else FORMED;
       handX := numberOr0 hx;
       handY := numberOr0 hy |}.

(** The body of [for (const part of parts)] in [onmessage]. *)
Definition onPart (onData : Callback) (part : Part) : M unit :=
  if truthy (text part) then
    try_catch
      (match matchBraces (default [] (text part)) with
       | Some m => json ←' lift (JSON_parse m); deliver onData json
       | None => ret tt
       end)
      (ret tt)
  else ret tt.

Fixpoint forParts (onData : Callback) (ps : list Part) : M unit :=
  match ps with
  | [] => ret tt
  | p :: rest => onPart onData p ;;' forParts onData rest
  end.

(** [callbacks.onmessage] *)
Definition onmessage (onData : Callback) (msg : LiveServerMessage) : M unit :=
  match parts msg with
  | Some ps => forParts onData ps
  | None => ret tt
  end.

(** The polling closure after [await generateContent(..)] resolved with a
    response whose [text] is [responseText]:
    [try { if (response.text) { json = JSON.parse(response.text);
    onData(..) } } catch (e) { console.error(..) }]. *)
Definition onPollResponse (onData : Callback) (responseText : option jsstring) : M unit :=
  try_catch
    (if truthy responseText then
       json ←' lift (JSON_parse (default [] responseText));
       deliver onData json
     else ret tt)
    (ret tt).

(** ** The browser and the remote API, as far as the service touches them *)

(** The video element when a timer fires; [videoWidth] and [videoHeight]
    are [unsigned long] attributes. *)
Record Video : Type := mkVideo { videoWidth : N; videoHeight : N; picture : N }.

(** A frame drawn on the canvas and encoded as JPEG; the size is that of
    the canvas, whose [width] and [height] are [unsigned long] too. *)
Record Capture : Type := mkCapture {
  width : N; height : N; image : N; quality : Q
}.

(** [canvas.width = videoWidth / 4; canvas.height = videoHeight / 4;
    ctx.drawImage(videoEl, 0, 0, canvas.width, canvas.height)] and the
    JPEG encoding at [quality].  The quotient is a JS number; the assignment
    to the [unsigned long] attribute drops its fraction (the value is below
    [2^32], so nothing wraps), and [drawImage] reads the attribute back. *)
Definition capture (v : Video) (quality : Q) : Capture :=
  mkCapture (videoWidth v / 4)%N (videoHeight v / 4)%N (picture v) quality.

(** The closure handed to [setInterval]. *)
Inductive TimerBody : Type :=
| StreamingTick (onData : Callback)
| PollingTick (onData : Callback).

Record Timer : Type := mkTimer { body : TimerBody; delay : N }.

Inductive SocketState : Type := Connecting | Open | Closed.

#[global] Instance SocketState_eq_dec : EqDecision SocketState.
Proof. solve_decision. Defined.

(** One call of [ai.live.connect]: the connection, whether the promise the
    service awaits is still pending, and the [onData] its callbacks
    captured. *)
Record Socket : Type := mkSocket {
  sstate : SocketState; pending : bool; handler : Callback
}.

Inductive Request : Type :=
| SendRealtimeInput (session : nat) (frame : Capture)
| GenerateContent (model : string) (frame : Capture).

Record World : Type := mkWorld {
  timers : gmap nat Timer;          (* the intervals that are active *)
  nextTimer : nat;                  (* the id the next [setInterval] returns *)
  sockets : list Socket;            (* live connections; a session is its index *)
  pendingBlobs : list Capture;      (* [toBlob] callbacks not yet run *)
  pendingSends : list Capture;      (* [blobToBase64] promises not yet resolved *)
  pendingPolls : list Callback;     (* [generateContent] promises not yet settled *)
  sent : list Request;              (* requests that reached the API, oldest first *)
  calls : list (Callback * GestureData); (* [onData] invocations, oldest first *)
  closeCalls : list nat             (* [session.close()] invocations, oldest first *)
}.

(** The fields of the service object. *)
Record Service : Type := mkService {
  session : option nat;
  intervalId : option nat;
  ctx : bool;                       (* [this.ctx] is not [null] *)
  ai : bool;                        (* [this.ai] is not [null] *)
  isFallbackActive : bool
}.

Record State : Type := mkState { world : World; this : Service }.

(** [new GeminiLiveService()] in a fresh page; [hasCtx] tells whether
    [canvas.getContext('2d')] returned a context. *)
Definition initial (hasCtx : bool) : State :=
  mkState (mkWorld ∅ 1 [] [] [] [] [] [] [])
          (mkService None None hasCtx false false).

(** *** Field updates *)
Definition setTimers (t : gmap nat Timer) (n : nat) (w : World) : World :=
  mkWorld t n (sockets w) (pendingBlobs w) (pendingSends w) (pendingPolls w)
          (sent w) (calls w) (closeCalls w).
Definition setSockets (l : list Socket) (w : World) : World :=
  mkWorld (timers w) (nextTimer w) l (pendingBlobs w) (pendingSends w)
          (pendingPolls w) (sent w) (calls w) (closeCalls w).
Definition setPending (b s : list Capture) (p : list Callback) (w : World) : World :=
  mkWorld (timers w) (nextTimer w) (sockets w) b s p (sent w) (calls w) (closeCalls w).
Definition setSent (l : list Request) (w : World) : World :=
  mkWorld (timers w) (nextTimer w) (sockets w) (pendingBlobs w) (pendingSends w)
          (pendingPolls w) l (calls w) (closeCalls w).
Definition setCalls (l : list (Callback * GestureData)) (w : World) : World :=
  mkWorld (timers w) (nextTimer w) (sockets w) (pendingBlobs w) (pendingSends w)
          (pendingPolls w) (sent w) l (closeCalls w).
Definition setCloseCalls (l : list nat) (w : World) : World :=
  mkWorld (timers w) (nextTimer w) (sockets w) (pendingBlobs w) (pendingSends w)
          (pendingPolls w) (sent w) (calls w) l.

Definition setSession (o : option nat) (s : Service) : Service :=
  mkService o (intervalId s) (ctx s) (ai s) (isFallbackActive s).
Definition setIntervalId (o : option nat) (s : Service) : Service :=
  mkService (session s) o (ctx s) (ai s) (isFallbackActive s).
Definition setAi (b : bool) (s : Service) : Service :=
  mkService (session s) (intervalId s) (ctx s) b (isFallbackActive s).
Definition setIsFallbackActive (b : bool) (s : Service) : Service :=
  mkService (session s) (intervalId s) (ctx s) (ai s) b.

(** *** Browser and SDK primitives *)

(** [window.setInterval(body, delay)]: the new id and the world. *)
Definition setInterval (b : TimerBody) (d : N) (w : World) : nat * World :=
  (nextTimer w, setTimers (<[nextTimer w := mkTimer b d]> (timers w)) (S (nextTimer w)) w).

(** [clearInterval(id)] *)
Definition clearInterval (id : nat) (w : World) : World :=
  setTimers (delete id (timers w)) (nextTimer w) w.

Definition setSocketState (sid : nat) (st : SocketState) (w : World) : World :=
  setSockets (alter (fun k => mkSocket st (pending k) (handler k)) sid (sockets w)) w.

Definition settle (sid : nat) (w : World) : World :=
  setSockets (alter (fun k => mkSocket (sstate k) false (handler k)) sid (sockets w)) w.

(** [session.close()]: the call is recorded and the connection is closed
    (on a connection that is closed already only the call is left). *)
Definition closeSession (sid : nat) (w : World) : World :=
  setCloseCalls (closeCalls w ++ [sid]) (setSocketState sid Closed w).

(** [if (this.intervalId)]: an id that is not [null] and not [0]. *)
Definition truthyId (o : option nat) : option nat :=
  match o with
  | Some 0%nat => None
  | _ => o
  end.

(** Run a handler on the log of callback invocations; an exception that
    escapes it is reported as [None]. *)
Definition runHandler (m : M unit) (st : State) : option State :=
  match m (calls (world st)) with
  | (Ok _, log) => Some (mkState (setCalls log (world st)) (this st))
  | (Throw, _) => None
  end.

(** ** The methods *)

(** [startStreamingLive(videoEl, onData)] *)
Definition startStreamingLive (onData : Callback) (st : State) : State :=
  let '(id, w) := setInterval (StreamingTick onData) 800 (world st) in
  mkState w (setIntervalId (Some id) (this st)).

(** [startPollingFallback(videoEl, onData, systemInstruction)] *)
Definition startPollingFallback (onData : Callback) (st : State) : State :=
  let '(id, w) := setInterval (PollingTick onData) 1500 (world st) in
  mkState w (setIntervalId (Some id) (this st)).

(** [if (this.intervalId) { clearInterval(this.intervalId);
    this.intervalId = null; }] *)
Definition cancelInterval (st : State) : State :=
  match truthyId (intervalId (this st)) with
  | Some id => mkState (clearInterval id (world st)) (setIntervalId None (this st))
  | None => st
  end.

(** [if (this.session) { try { this.session.close(); } catch(e) {}
    this.session = null; }] *)
Definition dropSession (st : State) : State :=
  match session (this st) with
  | Some sid => mkState (closeSession sid (world st)) (setSession None (this st))
  | None => st
  end.

(** [switchToFallback(videoElement, onData, instruction)] *)
Definition switchToFallback (onData : Callback) (st : State) : State :=
  if isFallbackActive (this st) then st
  else
    let st := mkState (world st) (setIsFallbackActive true (this st)) in
    let st := cancelInterval st in
    let st := dropSession st in
    startPollingFallback onData st.

(** [disconnect()] *)
Definition disconnect (st : State) : State :=
  let s := setIsFallbackActive false (this st) in
  let w := match truthyId (intervalId s) with
           | Some id => clearInterval id (world st)
           | None => world st
           end in
  let w := match session s with
           | Some sid => closeSession sid w
           | None => w
           end in
  mkState w (setAi false (setSession None s)).

(** [connect(videoElement, onData)] up to the [await]: without an API key
    it returns at once; otherwise it creates the client, clears the
    fallback flag and asks for a live connection. *)
Definition connect (apiKey : bool) (onData : Callback) (st : State) : State :=
  if apiKey then
    let s := setIsFallbackActive false (setAi true (this st)) in
    mkState (setSockets (sockets (world st) ++ [mkSocket Connecting true onData]) (world st)) s
  else st.

(** The streaming closure when its timer fires. *)
Definition streamingTick (v : Video) (st : State) : State :=
  let s := this st in
  if isFallbackActive s || negb (bool_decide (is_Some (session s))) || negb (ctx s)
     || N.eqb (videoWidth v) 0
  then st
  else mkState (setPending (pendingBlobs (world st) ++ [capture v 0.5])
                           (pendingSends (world st)) (pendingPolls (world st)) (world st)) s.

(** The polling closure when its timer fires, up to the [await]. *)
Definition pollingTick (onData : Callback) (v : Video) (st : State) : State :=
  let s := this st in
  if negb (ai s) || negb (ctx s) || N.eqb (videoWidth v) 0
  then st
  else
    let w := setSent (sent (world st) ++ [GenerateContent "gemini-2.5-flash" (capture v 0.6)])
                     (world st) in
    mkState (setPending (pendingBlobs w) (pendingSends w) (pendingPolls w ++ [onData]) w) s.

(** ** Events *)

Inductive Event : Type :=
| Connect (apiKey : bool) (onData : Callback)   (* the application calls [connect] *)
| Disconnect                                    (* the application calls [disconnect] *)
| LiveOpen (sid : nat)                          (* [callbacks.onopen] *)
| LiveResolve (sid : nat)                       (* [await ai.live.connect(..)] returns the session *)
| LiveReject (sid : nat)                        (* [await ai.live.connect(..)] throws *)
| LiveMessage (sid : nat) (msg : LiveServerMessage)  (* [callbacks.onmessage] *)
| LiveError (sid : nat)                         (* [callbacks.onerror] *)
| LiveClose (sid : nat)                         (* [callbacks.onclose] *)
| Tick (id : nat) (v : Video)                   (* interval [id] fires *)
| ToBlobDone (blob : bool)                      (* the oldest [toBlob] callback runs *)
| Base64Done                                    (* the oldest [blobToBase64] resolves *)
| PollResolve (k : nat) (responseText : option jsstring)  (* [generateContent] resolves *)
| PollReject (k : nat).                         (* [generateContent] rejects *)

(** The state after an event, [None] when the browser or the SDK cannot
    deliver it in that state: a connection opens once, while it is
    connecting; it carries messages while open; an error or a close ends
    it (and is accepted in any state); the awaited promise settles once; a
    timer fires while it is active; a continuation runs when it is
    pending. *)
Definition step (e : Event) (st : State) : option State :=
  let w := world st in
  match e with
  | Connect apiKey onData => Some (connect apiKey onData st)
  | Disconnect => Some (disconnect st)
  | LiveOpen sid =>
      k ← sockets w !! sid;
      if decide (sstate k = Connecting)
      then Some (startStreamingLive (handler k)
                   (mkState (setSocketState sid Open w) (this st)))
      else None
  | LiveResolve sid =>
      k ← sockets w !! sid;
      if bool_decide (sstate k = Open) && pending k
      then Some (mkState (settle sid w) (setSession (Some sid) (this st)))
      else None
  | LiveReject sid =>
      k ← sockets w !! sid;
      if pending k
      then
        let w := settle sid w in
        let w := if decide (sstate k = Connecting) then setSocketState sid Closed w else w in
        Some (switchToFallback (handler k) (mkState w (this st)))
      else None
  | LiveMessage sid msg =>
      k ← sockets w !! sid;
      if decide (sstate k = Open) then runHandler (onmessage (handler k) msg) st else None
  | LiveError sid =>
      k ← sockets w !! sid;
      Some (switchToFallback (handler k)
              (mkState (setSocketState sid Closed w) (this st)))
  | LiveClose sid =>
      k ← sockets w !! sid;
      Some (mkState (setSocketState sid Closed w) (this st))
  | Tick id v =>
      t ← timers w !! id;
      match body t with
      | StreamingTick _ => Some (streamingTick v st)
      | PollingTick onData => Some (pollingTick onData v st)
      end
  | ToBlobDone blob =>
      match pendingBlobs w with
      | frame :: rest =>
          let w := setPending rest (pendingSends w) (pendingPolls w) w in
          if blob && bool_decide (is_Some (session (this st)))
             && negb (isFallbackActive (this st))
          then Some (mkState (setPending (pendingBlobs w) (pendingSends w ++ [frame])
                                         (pendingPolls w) w) (this st))
          else Some (mkState w (this st))
      | [] => None
      end
  | Base64Done =>
      match pendingSends w with
      | frame :: rest =>
          let w := setPending (pendingBlobs w) rest (pendingPolls w) w in
          match session (this st) with
          | Some sid =>
              if bool_decide (sstate <$> sockets w !! sid = Some Open)
              then Some (mkState (setSent (sent w ++ [SendRealtimeInput sid frame]) w) (this st))
              else Some (mkState w (this st))
          | None => Some (mkState w (this st))
          end
      | [] => None
      end
  | PollResolve k responseText =>
      onData ← pendingPolls w !! k;
      runHandler (onPollResponse onData responseText)
        (mkState (setPending (pendingBlobs w) (pendingSends w) (delete k (pendingPolls w)) w)
                 (this st))
  | PollReject k =>
      onData ← pendingPolls w !! k;
      Some (mkState (setPending (pendingBlobs w) (pendingSends w) (delete k (pendingPolls w)) w)
                    (this st))
  end.

(** A run of events from a state; [None] when some event could not be
    delivered. *)
Fixpoint run (es : list Event) (st : State) : option State :=
  match es with
  | [] => Some st
  | e :: rest => step e st ≫= run rest
  end.

(** ** Vocabulary for the timer invariant *)

(** The interval timers are tracked: every active timer is the one whose id
    is in [this.intervalId]; that id is positive and was handed out by
    [setInterval]; and no timer is active before a connection was requested
    or while one is still connecting. *)
Definition tracked (st : State) : Prop :=
  (1 ≤ nextTimer (world st))%nat ∧
  (∀ id t, timers (world st) !! id = Some t → intervalId (this st) = Some id) ∧
  (∀ id, intervalId (this st) = Some id → (0 < id < nextTimer (world st))%nat) ∧
  (sockets (world st) = [] → timers (world st) = ∅) ∧
  (∀ sid k, sockets (world st) !! sid = Some k → sstate k = Connecting →
            timers (world st) = ∅).

(** [connect] was called (with an API key) at most once. *)
Definition connectedOnce (st : State) : Prop :=
  (length (sockets (world st)) ≤ 1)%nat.

(** Every [await ai.live.connect(..)] has returned or thrown. *)
Definition settled (st : State) : Prop :=
  ∀ sid k, sockets (world st) !! sid = Some k → pending k = false.

(** The service is disconnected: it holds no session and no client, and no
    [connect] is still awaiting its connection. *)
Definition idle (st : State) : Prop :=
  session (this st) = None ∧ ai (this st) = false ∧ settled st.

(** An event other than a call of [connect] with an API key. *)
Definition notConnect (e : Event) : Prop :=
  ∀ onData, e ≠ Connect true onData.

(** The interval ids are fresh: [setInterval] hands out positive ids in
    increasing order, so every active timer and the id in
    [this.intervalId] are below the next id. *)
Definition fresh (st : State) : Prop :=
  (1 ≤ nextTimer (world st))%nat ∧
  (∀ id, intervalId (this st) = Some id → (0 < id < nextTimer (world st))%nat) ∧
  (∀ id t, timers (world st) !! id = Some t → (id < nextTimer (world st))%nat).

(** An event that is neither a call of [disconnect] nor a call of [connect]
    with an API key: the application leaves the service alone. *)
Definition leftAlone (e : Event) : Prop :=
  e ≠ Disconnect ∧ notConnect e.

(** The polling loop [pid] for callback [onData] runs: its interval is
    active with a delay of 1500 ms and the fallback flag is set. *)
Definition pollingLoop (pid : nat) (onData : Callback) (st : State) : Prop :=
  timers (world st) !! pid = Some (mkTimer (PollingTick onData) 1500) ∧
  isFallbackActive (this st) = true ∧
  (pid < nextTimer (world st))%nat.

End GeminiLiveService.


(** * 11. Camera rig, top star and polaroid items (sections 4.3, 4.5 and 5) *)

Module Rig.

Import Three.
#[local] Open Scope Q_scope.

(** The camera: where it is and what it looks at. *)
Record Camera : Type := mkCamera { position : Vector3; lookAt : Vector3 }.

(** [<PerspectiveCamera makeDefault position={CAMERA_POS.toArray()} />];
    a new camera looks down its negative z axis. *)
Definition initialCamera : Camera :=
  mkCamera (mkVector3 (fst (fst CAMERA_POS)) (snd (fst CAMERA_POS)) (snd CAMERA_POS))
           (mkVector3 (fst (fst CAMERA_POS)) (snd (fst CAMERA_POS)) (snd CAMERA_POS - 1)).

(** [useFrame]: [targetX = CAMERA_POS.x + handX * 10;
    targetY = CAMERA_POS.y + handY * 5;
    camera.position.x = lerp(camera.position.x, targetX, 0.05);
    camera.position.y = lerp(camera.position.y, targetY, 0.05);
    camera.lookAt(0, 6, 0)]. *)
Definition useFrame (gestureData : GestureData) (camera : Camera) : Camera :=
  let targetX := fst (fst CAMERA_POS) + handX gestureData * 10 in
  let targetY := snd (fst CAMERA_POS) + handY gestureData * 5 in
  mkCamera (mkVector3 (lerp (x (position camera)) targetX 0.05)
                      (lerp (y (position camera)) targetY 0.05)
                      (z (position camera)))
           (mkVector3 0 6 0).

(** A run of frames, each with the gesture data of that render. *)
Definition runFrames (frames : list GestureData) (camera : Camera) : Camera :=
  fold_left (fun c g => useFrame g c) frames camera.

End Rig.

Module TopStar.

Import Three.
#[local] Open Scope Q_scope.

(** [new THREE.Vector3(0, TREE_HEIGHT + 0.5, 0)] *)
Definition targetPos : Vector3 := mkVector3 0 (TREE_HEIGHT + 0.5) 0.
(** [new THREE.Vector3(0, CHAOS_RADIUS * 0.8, 0)] *)
Definition chaosPos : Vector3 := mkVector3 0 (CHAOS_RADIUS * 0.8) 0.

(** The mesh: its position and its rotation. *)
Record Mesh : Type := mkMesh { position : Vector3; rotation : Vector3 }.

(** [<mesh position={[0, TREE_HEIGHT, 0]}>] *)
Definition initialMesh : Mesh := mkMesh (mkVector3 0 TREE_HEIGHT 0) zero3.

(** [useFrame]; [meshRef] is [None] while the mesh is not mounted. *)
Definition useFrame (progress elapsedTime : Q) (meshRef : option Mesh) : option Mesh :=
  match meshRef with
  | None => None
  | Some mesh =>
      let dest := if Experience.ltb 0.5 progress then chaosPos else targetPos in
      let pos := lerp3 (position mesh) dest 0.05 in
      let r := rotation mesh in
      if Experience.ltb 0.5 progress
      then Some (mkMesh pos (mkVector3 (x r) (y r + 0.05) (z r + 0.02)))
      else Some (mkMesh pos (mkVector3 (lerp (x r) 0 0.1) (elapsedTime * 0.5)
                                       (lerp (z r) 0 0.1)))
  end.

(** A run of frames, each with its [progress] and clock reading. *)
Definition runFrames (frames : list (Q * Q)) (meshRef : option Mesh) : option Mesh :=
  fold_left (fun m f => useFrame (fst f) (snd f) m) frames meshRef.

(** The star is on the axis of the tree, between the height at which it is
    mounted and its chaos height, and is not rotated about [x]. *)
Definition onAxis (m : Mesh) : Prop :=
  x (position m) == 0 ∧ z (position m) == 0 ∧
  12 <= y (position m) <= 28 ∧ x (rotation m) == 0.

End TopStar.

Module PolaroidItem.

Import Three.
#[local] Open Scope Q_scope.

(** [galleryPos] of the [useMemo] in [PolaroidItem]:
    [cols = 6; rows = Math.ceil(total / cols); col = index % cols;
    row = Math.floor(index / cols);
    new Vector3(col * 2.5 - (cols - 1) * 2.5 / 2,
                row * 3.0 - (rows - 1) * 3.0 / 2 + 3, 14)]. *)
Definition galleryPos (index : nat) (total : N) : Vector3 :=
  let cols : Q := 6 in
  let rows : Q := inject_Z (Qceiling (inject_Z (Z.of_N total) / cols)) in
  let col : Q := inject_Z (Z.of_nat (index mod 6)) in
  let row : Q := inject_Z (Qfloor (inject_Z (Z.of_nat index) / cols)) in
  mkVector3 ((col * 2.5) - ((cols - 1) * 2.5 / 2))
            ((row * 3.0) - ((rows - 1) * 3.0 / 2) + 3)
            14.

(** The group of one polaroid: its position and its rotation. *)
Record Group : Type := mkGroup { position : Vector3; rotation : Vector3 }.

(** A new [<group>] sits at the origin, unrotated. *)
Definition initialGroup : Group := mkGroup zero3 zero3.

Section Frame.

(** [Math.sin] and [Math.atan2]. *)
Variable sin : Q → Q.
Variable atan2 : Q → Q → Q.

(** [useFrame]; [targetPos] and [speed] are what the [useMemo] drew for this
    item. *)
Definition useFrame (index : nat) (total : N) (targetPos : Vector3) (speed : Q)
           (progress elapsedTime : Q) (groupRef : option Group) : option Group :=
  match groupRef with
  | None => None
  | Some g =>
      let dest := if Experience.ltb 0.5 progress then galleryPos index total else targetPos in
      let pos := lerp3 (position g) dest speed in
      let r := rotation g in
      if Experience.ltb 0.5 progress
      then Some (mkGroup pos (mkVector3 (lerp (x r) 0 0.1) (lerp (y r) 0 0.1)
                                        (lerp (z r) 0 0.1)))
      else
        let angleToCenter := atan2 (x pos) (z pos) in
        let sway := sin (elapsedTime * 2 + inject_Z (Z.of_nat index)) * 0.1 in
        Some (mkGroup pos (mkVector3 (lerp (x r) sway 0.1)
                                     (lerp (y r) angleToCenter 0.1)
                                     (lerp (z r) (sway * 0.5) 0.1)))
  end.

End Frame.

End PolaroidItem.

(** * 12. Data URLs ([blobToBase64] and the polling capture, section 3) *)

Module DataUrl.

Import Js.
#[local] Open Scope N_scope.

(** [s.split(sep)] for a separator of one code unit. *)
Fixpoint split (sep : N) (s : jsstring) : list jsstring :=
  match s with
  | [] => [[]]
  | u :: rest =>
      if u =? sep then [] :: split sep rest
      else match split sep rest with
           | piece :: pieces => (u :: piece) :: pieces
           | [] => [[u]]
           end
  end.

(** [dataUrl.split(',')[1]]: what [blobToBase64] resolves with and what the
    polling closure sends; [None] is [undefined]. *)
Definition base64Of (dataUrl : jsstring) : option jsstring :=
  split 44 dataUrl !! 1%nat.

End DataUrl.

(** ** Boxes

    The axis-aligned box spanned by two points, used to say where a moving
    particle can be. *)
Module Box.

Import Three.
#[local] Open Scope Q_scope.

Definition between (a b v : Q) : Prop := (a <= v <= b) ∨ (b <= v <= a).

Definition inBox (a b v : Vector3) : Prop :=
  between (x a) (x b) (x v) ∧ between (y a) (y b) (y v) ∧ between (z a) (z b) (z v).

(** Componentwise equality of rationals. *)
Definition eq3 (u v : Vector3) : Prop := x u == x v ∧ y u == y v ∧ z u == z v.

(** [b + k * (a - b)] on every component. *)
Definition towards (a b : Vector3) (k : Q) : Vector3 :=
  mkVector3 (x b + k * (x a - x b)) (y b + k * (y a - y b)) (z b + k * (z a - z b)).

End Box.

(** * Properties *)

(** ** The application state: gestures and the manual toggle *)

Section AppProperties.

Import App.

Lemma onData_state (data prev : GestureData) :
  state (onData data prev) =
    match state data with CHAOS => CHAOS | FORMED => state prev end.
Proof. unfold onData; simpl. destruct (state data); reflexivity. Qed.

Lemma onData_latches (data prev : GestureData) :
  state prev = CHAOS → state (onData data prev) = CHAOS.
Proof. intros H. rewrite onData_state, H. destruct (state data); reflexivity. Qed.

Lemma gestures_keep_chaos (ds : list GestureData) (prev : GestureData) :
  state prev = CHAOS → state (runGestureEvents (map Gesture ds) prev) = CHAOS.
Proof.
  revert prev. induction ds as [|d ds IH]; intros prev H; simpl; [exact H|].
  apply IH, onData_latches, H.
Qed.

Lemma toggleSimulation_state (g : GestureData) :
  state (toggleSimulation g) =
    match state g with FORMED => CHAOS | CHAOS => FORMED end.
Proof. unfold toggleSimulation; simpl. destruct (state g); reflexivity. Qed.

End AppProperties.

(** C1 (as stated, refuted): a callback that reports [FORMED] while the
    application state is [CHAOS] leaves the application state [CHAOS]; the
    application state does not follow the gesture back to [FORMED]. *)
Lemma C1_formed_gesture_does_not_reform :
  state (App.onData (mkGestureData FORMED 0 0) (mkGestureData CHAOS 0 0))
    ≠ state (mkGestureData FORMED 0 0).
Proof. discriminate. Qed.

(** C1 (amended): for every gesture callback, a callback with state [CHAOS]
    makes the application state [CHAOS]; a callback with state [FORMED]
    leaves the application state as it was; in both cases the hand position
    of the callback is taken over. *)
Theorem C1_gesture_unleashes_only (data prev : GestureData) :
  (state data = CHAOS → state (App.onData data prev) = CHAOS) ∧
  (state data = FORMED → state (App.onData data prev) = state prev) ∧
  handX (App.onData data prev) = handX data ∧
  handY (App.onData data prev) = handY data.
Proof.
  rewrite onData_state. repeat split; intros H; rewrite H; reflexivity.
Qed.

Lemma C1_gesture_unleashes_only_witness :
  state (App.onData (mkGestureData FORMED 0.5 0.25) (mkGestureData CHAOS 0 0)) = CHAOS
  ∧ state (App.onData (mkGestureData CHAOS 0.5 0.25) App.initialGestureData) = CHAOS.
Proof.
  split.
  - apply (proj1 (proj2 (C1_gesture_unleashes_only
                           (mkGestureData FORMED 0.5 0.25) (mkGestureData CHAOS 0 0)))).
    reflexivity.
  - apply (proj1 (C1_gesture_unleashes_only
                    (mkGestureData CHAOS 0.5 0.25) App.initialGestureData)).
    reflexivity.
Defined.

(** C8: under gesture input alone the application state never goes from
    [CHAOS] back to [FORMED]: if the previous state is [CHAOS], the state
    after any gesture callback, and after any sequence of them, is [CHAOS];
    an update that does produce [FORMED] is the manual toggle, which indeed
    restores [FORMED]. *)
Theorem C8_chaos_latches_under_gestures (prev : GestureData)
        (Hprev : state prev = CHAOS) :
  (∀ data, state (App.onData data prev) = CHAOS) ∧
  (∀ ds, state (App.runGestureEvents (map App.Gesture ds) prev) = CHAOS) ∧
  (∀ e, state (App.setGestureData e prev) = FORMED → e = App.ToggleClick) ∧
  state (App.toggleSimulation prev) = FORMED.
Proof.
  repeat split.
  - intros data. apply onData_latches, Hprev.
  - intros ds. apply gestures_keep_chaos, Hprev.
  - intros [data|] H; [|reflexivity].
    unfold App.setGestureData in H.
    rewrite (onData_latches data prev Hprev) in H. discriminate.
  - rewrite toggleSimulation_state, Hprev. reflexivity.
Qed.

Lemma C8_chaos_latches_under_gestures_witness :
  state (App.runGestureEvents
           (map App.Gesture [mkGestureData FORMED 0 0; mkGestureData FORMED 1 1])
           (mkGestureData CHAOS 0 0)) = CHAOS.
Proof.
  apply (proj1 (proj2 (C8_chaos_latches_under_gestures (mkGestureData CHAOS 0 0) eq_refl))).
Defined.

(** C10: [toggleSimulation] swaps [FORMED] and [CHAOS], applying it twice
    gives back the gesture data it started from, and it leaves [handX] and
    [handY] unchanged. *)
Theorem C10_toggle_involution (g : GestureData) :
  state (App.toggleSimulation g) =
    match state g with FORMED => CHAOS | CHAOS => FORMED end ∧
  App.toggleSimulation (App.toggleSimulation g) = g ∧
  handX (App.toggleSimulation g) = handX g ∧
  handY (App.toggleSimulation g) = handY g.
Proof.
  split; [apply toggleSimulation_state|].
  split; [|split; reflexivity].
  destruct g as [[] hx hy]; reflexivity.
Qed.

(** ** The progress signal *)

Section ProgressProperties.

Import Experience.
#[local] Open Scope Q_scope.

Lemma ltb_lt (a b : Q) : ltb a b = true ↔ a < b.
Proof.
  unfold ltb. rewrite negb_true_iff, <- not_true_iff_false, Qle_bool_iff.
  split; [apply Qnot_le_lt | apply Qlt_not_le].
Qed.

Lemma ltb_ge (a b : Q) : ltb a b = false ↔ b <= a.
Proof.
  unfold ltb. rewrite negb_false_iff, Qle_bool_iff. reflexivity.
Qed.

Lemma target_cases (s : TreeState) :
  (s = CHAOS ∧ target s = 1) ∨ (s = FORMED ∧ target s = 0).
Proof. destruct s; [left | right]; split; reflexivity. Qed.

(** One step from a value between [0] and the target side stays between
    the old value and the target. *)
Lemma animate_between_up (t p : Q) :
  p <= t → p <= animate t p ∧ animate t p <= t.
Proof.
  intros H. unfold animate.
  destruct (ltb (Qabs (t - p)) 0.001); split; lra.
Qed.

Lemma animate_between_down (t p : Q) :
  t <= p → t <= animate t p ∧ animate t p <= p.
Proof.
  intros H. unfold animate.
  destruct (ltb (Qabs (t - p)) 0.001); split; lra.
Qed.

Lemma step_in_unit (s : TreeState) (p : Q) :
  0 <= p <= 1 → 0 <= step s p <= 1.
Proof.
  intros [H0 H1]. unfold step.
  destruct (target_cases s) as [[_ ->]|[_ ->]].
  - destruct (animate_between_up 1 p H1). lra.
  - destruct (animate_between_down 0 p H0). lra.
Qed.

Lemma fold_steps_in_unit (frames : list TreeState) (p : Q) :
  0 <= p <= 1 → 0 <= fold_left (fun q s => step s q) frames p <= 1.
Proof.
  revert p. induction frames as [|s frames IH]; intros p Hp; simpl; [exact Hp|].
  apply IH, step_in_unit, Hp.
Qed.

Lemma progressAfter_in_unit (frames : list TreeState) :
  0 <= progressAfter frames <= 1.
Proof. apply fold_steps_in_unit. unfold initialProgress. lra. Qed.

Lemma animate_snaps (t p : Q) :
  Qabs (t - p) < 0.001 → animate t p = t.
Proof.
  intros H. unfold animate. apply ltb_lt in H. rewrite H. reflexivity.
Qed.

Lemma animate_moves (t p : Q) :
  0.001 <= Qabs (t - p) → animate t p = p + (t - p) * 0.05.
Proof.
  intros H. unfold animate. apply ltb_ge in H. rewrite H. reflexivity.
Qed.

Lemma animate_closer (t p : Q) :
  Qabs (t - animate t p) <= Qabs (t - p).
Proof.
  pose proof (Qle_Qabs (t - p)) as Hpos.
  pose proof (Qle_Qabs (- (t - p))) as Hneg. rewrite Qabs_opp in Hneg.
  apply Qabs_Qle_condition.
  unfold animate. destruct (ltb (Qabs (t - p)) 0.001); split; lra.
Qed.

End ProgressProperties.

(** C4: the progress signal starts at [0] and lies in the closed interval
    from [0] to [1] after every sequence of animation steps, whatever the
    tree state was at each step.  A step replaces [p] by
    [p + (target - p) * 0.05], where [target] is [1] for [CHAOS] and [0] for
    [FORMED], and returns [target] itself once [|target - p| < 0.001].  From
    a value in the interval a step never moves away from the target: under
    [CHAOS] the value does not decrease, under [FORMED] it does not
    increase, and the distance to the target does not grow. *)
Theorem C4_progress_bounded_monotone
        (frames : list TreeState) (s : TreeState) (p : Q)
        (Hp : (0 <= p <= 1)%Q) :
  Experience.initialProgress = 0%Q ∧
  (0 <= Experience.progressAfter frames <= 1)%Q ∧
  (Experience.target s = if decide (s = CHAOS) then 1 else 0)%Q ∧
  (Qabs (Experience.target s - p) < 0.001 →
   Experience.step s p = Experience.target s)%Q ∧
  (0.001 <= Qabs (Experience.target s - p) →
   Experience.step s p = p + (Experience.target s - p) * 0.05)%Q ∧
  (0 <= Experience.step s p <= 1)%Q ∧
  (s = CHAOS → p <= Experience.step s p)%Q ∧
  (s = FORMED → Experience.step s p <= p)%Q ∧
  (Qabs (Experience.target s - Experience.step s p)
   <= Qabs (Experience.target s - p))%Q.
Proof.
  split; [reflexivity|].
  split; [apply progressAfter_in_unit|].
  split; [reflexivity|].
  split; [apply animate_snaps|].
  split; [apply animate_moves|].
  split; [apply step_in_unit, Hp|].
  split; [|split].
  - intros ->. apply (animate_between_up 1 p). apply Hp.
  - intros ->. apply (animate_between_down 0 p). apply Hp.
  - apply animate_closer.
Qed.

Lemma C4_progress_bounded_monotone_witness :
  (0 <= Experience.progressAfter [CHAOS; CHAOS; FORMED] <= 1)%Q ∧
  (0.5 <= Experience.step CHAOS 0.5)%Q.
Proof.
  assert (H : (0 <= 0.5 <= 1)%Q) by (split; discriminate).
  pose proof (C4_progress_bounded_monotone [CHAOS; CHAOS; FORMED] CHAOS 0.5 H)
    as (_ & Hrun & _ & _ & _ & _ & Hup & _).
  split; [exact Hrun | exact (Hup eq_refl)].
Defined.

(** ** Uploaded photos and polaroids *)

Section PolaroidProperties.

Import App Polaroids.

Lemma Promise_all_resolved (urls : list string) :
  Promise_all (map Some urls) = Some urls.
Proof.
  unfold Promise_all. apply mapM_Some_2.
  induction urls as [|u urls IH]; simpl; constructor; [reflexivity | exact IH].
Qed.

Lemma handleFileChange_success (files : list File) (urls prev : list string) :
  (1 ≤ length files)%nat →
  map readAsDataURL files = map Some urls →
  handleFileChange (Some files) prev = urls.
Proof.
  intros Hk Hread. unfold handleFileChange.
  destruct (decide (length files = 0%nat)) as [E|_]; [lia|].
  rewrite Hread, Promise_all_resolved. reflexivity.
Qed.

Lemma render_length (photos : list string) :
  length (render photos) = 30%nat.
Proof. unfold render. rewrite length_map, length_seq. reflexivity. Qed.

Lemma render_lookup (photos : list string) (i : nat) :
  (i < 30)%nat →
  render photos !! i =
    Some (mkPolaroidItem i (images photos !! (i mod length (images photos))%nat)
                         POLAROID_COUNT).
Proof.
  intros Hi. unfold render.
  change (N.to_nat POLAROID_COUNT) with 30%nat.
  change (map ?f ?l) with (f <$> l).
  rewrite list_lookup_fmap, lookup_seq_lt by exact Hi. reflexivity.
Qed.

Lemma images_uploaded (photos : list string) :
  (1 ≤ length photos)%nat → images photos = photos.
Proof.
  intros H. unfold images. destruct (decide (0 < length photos)%nat); [reflexivity|lia].
Qed.

Lemma images_none : images [] = map placeholder (seq 0 30).
Proof. reflexivity. Qed.

Lemma placeholder_inj (i j : nat) : placeholder i = placeholder j → i = j.
Proof.
  unfold placeholder. intros H.
  apply (inj (String.app _)) in H. apply (inj pretty) in H. exact H.
Qed.

Lemma render_placeholder (i : nat) :
  (i < 30)%nat →
  render [] !! i = Some (mkPolaroidItem i (Some (placeholder i)) POLAROID_COUNT).
Proof.
  intros Hi. rewrite render_lookup by exact Hi. rewrite images_none.
  rewrite length_map, length_seq, Nat.mod_small by exact Hi.
  change (map ?f ?l) with (f <$> l).
  rewrite list_lookup_fmap, lookup_seq_lt by exact Hi. reflexivity.
Qed.

End PolaroidProperties.

(** C6: after a successful upload of [k >= 1] image files, [customPhotos]
    is the list of their data URLs in selection order; exactly
    [POLAROID_COUNT = 30] polaroid items are rendered whatever [k] is, and
    polaroid [i] shows uploaded photo [i mod k].  When no photo has been
    uploaded, polaroid [i] shows the placeholder URL of index [i], and the
    placeholder URLs of different indices differ. *)
Theorem C6_polaroid_textures
        (files : list App.File) (urls prev : list string)
        (Hk : (1 ≤ length files)%nat)
        (Hread : map App.readAsDataURL files = map Some urls) :
  let customPhotos := App.handleFileChange (Some files) prev in
  let k := length files in
  customPhotos = urls ∧
  POLAROID_COUNT = 30%N ∧
  length (Polaroids.render customPhotos) = 30%nat ∧
  (∀ i, (i < 30)%nat →
        is_Some (urls !! (i mod k)%nat) ∧
        Polaroids.render customPhotos !! i
        = Some (Polaroids.mkPolaroidItem i (urls !! (i mod k)%nat) 30)) ∧
  length (Polaroids.render App.initialCustomPhotos) = 30%nat ∧
  (∀ i, (i < 30)%nat →
        Polaroids.render App.initialCustomPhotos !! i
        = Some (Polaroids.mkPolaroidItem i (Some (Polaroids.placeholder i)) 30)) ∧
  (∀ i j, Polaroids.placeholder i = Polaroids.placeholder j → i = j).
Proof.
  intros customPhotos k.
  assert (Hurls : customPhotos = urls)
    by (apply handleFileChange_success; assumption).
  assert (Hlen : length urls = k).
  { unfold k. apply (f_equal (@length _)) in Hread.
    rewrite !length_map in Hread. symmetry. exact Hread. }
  split; [exact Hurls|]. split; [reflexivity|].
  split; [apply render_length|].
  split; [|split; [apply render_length|split; [apply render_placeholder|apply placeholder_inj]]].
  intros i Hi. split.
  - apply lookup_lt_is_Some. rewrite Hlen. apply Nat.mod_upper_bound. unfold k. lia.
  - rewrite render_lookup by exact Hi. rewrite Hurls.
    rewrite images_uploaded by (rewrite Hlen; exact Hk).
    rewrite Hlen. reflexivity.
Qed.

Lemma C6_polaroid_textures_witness :
  App.handleFileChange
    (Some [App.mkFile (Some "data:a"); App.mkFile (Some "data:b")]) []
  = ["data:a"; "data:b"]%string
  ∧ Polaroids.render ["data:a"; "data:b"]%string !! 5%nat
    = Some (Polaroids.mkPolaroidItem 5 (Some "data:b") 30).
Proof.
  pose proof (C6_polaroid_textures
                [App.mkFile (Some "data:a"); App.mkFile (Some "data:b")]
                ["data:a"; "data:b"]%string []
                (le_S 1 1 (le_n 1)) eq_refl) as (Hset & _ & _ & Hshow & _).
  split; [exact Hset|].
  destruct (Hshow 5%nat) as [_ H]; [repeat constructor|].
  rewrite Hset in H. exact H.
Defined.

(** ** Foliage: the buffers and the vertex shader *)

Section FoliageProperties.

Import Three Foliage.
#[local] Open Scope Q_scope.

Lemma write3_length (i : nat) (v : Vector3) (a : list Q) :
  length (write3 i v a) = length a.
Proof. unfold write3. rewrite !length_insert. reflexivity. Qed.

Lemma write3_lookup (i j : nat) (v : Vector3) (a : list Q) :
  (i * 3 + 2 < length a)%nat →
  write3 i v a !! j =
    if decide (j = i * 3)%nat then Some (x v)
    else if decide (j = i * 3 + 1)%nat then Some (y v)
    else if decide (j = i * 3 + 2)%nat then Some (z v)
    else a !! j.
Proof.
  intros H. unfold write3.
  repeat case_decide; subst;
    repeat first
      [ rewrite list_lookup_insert_eq by (rewrite ?length_insert; lia)
      | rewrite list_lookup_insert_ne by lia ];
    reflexivity.
Qed.

Lemma write3_lookup_other (i j : nat) (v : Vector3) (a : list Q) :
  (j ≠ i * 3)%nat → (j ≠ i * 3 + 1)%nat → (j ≠ i * 3 + 2)%nat →
  write3 i v a !! j = a !! j.
Proof.
  intros H0 H1 H2. unfold write3.
  rewrite !list_lookup_insert_ne by congruence. reflexivity.
Qed.

Lemma attribute3_write3_eq (i : nat) (v : Vector3) (a : list Q) :
  (i * 3 + 2 < length a)%nat → attribute3 (write3 i v a) i = Some v.
Proof.
  intros H. unfold attribute3.
  rewrite !write3_lookup by exact H.
  repeat (case_decide; try lia). simpl. destruct v; reflexivity.
Qed.

Lemma attribute3_write3_ne (i j : nat) (v : Vector3) (a : list Q) :
  i ≠ j → attribute3 (write3 i v a) j = attribute3 a j.
Proof.
  intros H. unfold attribute3.
  rewrite !write3_lookup_other by lia. reflexivity.
Qed.

(** The loop invariant of the [useMemo] loop after [m] iterations. *)
Lemma fill_invariant (seed : nat → Seed) (n m : nat) :
  (m ≤ n)%nat →
  let b := fold_left (fillParticle seed) (seq 0 m)
             (mkBuffers (new_Float32Array (n * 3)) (new_Float32Array (n * 3))
                        (new_Float32Array n)) in
  length (positions b) = (n * 3)%nat ∧
  length (chaosPositions b) = (n * 3)%nat ∧
  length (randoms b) = n ∧
  ∀ i, (i < m)%nat →
       attribute3 (positions b) i = Some (formed (seed i)) ∧
       attribute3 (chaosPositions b) i = Some (chaos (seed i)) ∧
       randoms b !! i = Some (rand (seed i)).
Proof.
  induction m as [|m IH]; intros Hm; cbv zeta.
  - simpl. unfold new_Float32Array. rewrite !length_replicate.
    split_and!; try reflexivity. intros i Hi. lia.
  - rewrite seq_S, fold_left_app. cbv zeta in IH.
    destruct IH as (Lp & Lc & Lr & Hfill); [lia|]. simpl.
    set (b := fold_left (fillParticle seed) (seq 0 m) _) in *.
    unfold fillParticle; simpl.
    rewrite !write3_length, length_insert.
    split_and!; try assumption.
    intros i Hi. destruct (decide (i = m)) as [->|Hne].
    + rewrite !attribute3_write3_eq by lia.
      rewrite list_lookup_insert_eq by lia. split_and!; reflexivity.
    + rewrite !attribute3_write3_ne by congruence.
      rewrite list_lookup_insert_ne by congruence. apply Hfill. lia.
Qed.

Lemma fillBuffers_spec (seed : nat → Seed) (n : nat) :
  length (positions (fillBuffers seed n)) = (n * 3)%nat ∧
  length (chaosPositions (fillBuffers seed n)) = (n * 3)%nat ∧
  length (randoms (fillBuffers seed n)) = n ∧
  ∀ i, (i < n)%nat →
       attribute3 (positions (fillBuffers seed n)) i = Some (formed (seed i)) ∧
       attribute3 (chaosPositions (fillBuffers seed n)) i = Some (chaos (seed i)) ∧
       randoms (fillBuffers seed n) !! i = Some (rand (seed i)).
Proof. exact (fill_invariant seed n n (le_n n)). Qed.

Lemma useMemoBuffers_lengths (seed : nat → Seed) :
  length (positions (useMemoBuffers seed)) = (N.to_nat FOLIAGE_COUNT * 3)%nat ∧
  length (chaosPositions (useMemoBuffers seed)) = (N.to_nat FOLIAGE_COUNT * 3)%nat ∧
  length (randoms (useMemoBuffers seed)) = N.to_nat FOLIAGE_COUNT.
Proof.
  unfold useMemoBuffers.
  generalize (N.to_nat FOLIAGE_COUNT). intros n.
  destruct (fillBuffers_spec seed n) as (Lp & Lc & Lr & _).
  split_and!; assumption.
Qed.

Variable sin : Q → Q.

Lemma renderedPosition_fill (seed : nat → Seed) (u : Uniforms) (n i : nat) :
  (i < n)%nat →
  renderedPosition sin u (fillBuffers seed n) i =
    Some (vertexShader sin u (formed (seed i)) (chaos (seed i)) (rand (seed i))).
Proof.
  intros Hi.
  destruct (fillBuffers_spec seed n) as (_ & _ & _ & Hfill).
  destruct (Hfill i Hi) as (Hp & Hc & Hr).
  unfold renderedPosition. rewrite Hp, Hc. simpl. rewrite Hr. reflexivity.
Qed.

Lemma renderedPosition_spec (seed : nat → Seed) (u : Uniforms) (i : nat) :
  (N.of_nat i < FOLIAGE_COUNT)%N →
  renderedPosition sin u (useMemoBuffers seed) i =
    Some (vertexShader sin u (formed (seed i)) (chaos (seed i)) (rand (seed i))).
Proof.
  intros Hi. unfold useMemoBuffers.
  assert (Hi' : (i < N.to_nat FOLIAGE_COUNT)%nat) by lia.
  revert Hi'. generalize (N.to_nat FOLIAGE_COUNT). intros n Hi'.
  apply renderedPosition_fill, Hi'.
Qed.

End FoliageProperties.

(** ** Ensembles that move objects of a store *)

Section EnsembleMotion.

Import Three.

(** A [forEach] body that, for its datum, overwrites the current position
    with a value computed from the contents of the datum's three objects,
    and touches no other object. *)
Context {A S F : Type}.
Variable refs : A → Refs.
Variable heapOf : S → store.
Variable body : F → A → nat → S → S.
Variable val : F → A → nat → Vector3 → Vector3 → Vector3 → Vector3.

Hypothesis body_heap : ∀ f d i s,
  (rCurrent (refs d) < length (heapOf s))%nat →
  heapOf (body f d i s)
  = <[rCurrent (refs d) :=
        val f d i (deref (heapOf s) (rCurrent (refs d)))
                  (deref (heapOf s) (rTarget (refs d)))
                  (deref (heapOf s) (rChaos (refs d)))]> (heapOf s).

Lemma separate_tail (d : A) (l : list A) (σ σ' : store) :
  length σ' = length σ →
  separate (refs <$> (d :: l)) σ → separate (refs <$> l) σ'.
Proof.
  intros Hlen Hsep j k a b Ha Hb.
  destruct (Hsep (Datatypes.S j) (Datatypes.S k) a b Ha Hb) as (H1 & H2 & H3 & H4).
  rewrite Hlen. split_and!; try assumption.
  intros E. specialize (H4 E). lia.
Qed.

Lemma separate_same_length (rs : list Refs) (σ σ' : store) :
  length σ' = length σ → separate rs σ → separate rs σ'.
Proof.
  intros Hlen Hsep j k a b Ha Hb.
  destruct (Hsep j k a b Ha Hb) as (H1 & H2 & H3 & H4).
  rewrite Hlen. split_and!; assumption.
Qed.

Lemma deref_insert_eq (σ : store) (r : nat) (v : Vector3) :
  (r < length σ)%nat → deref (<[r := v]> σ) r = v.
Proof. intros H. unfold deref. rewrite list_lookup_insert_eq by exact H. reflexivity. Qed.

Lemma deref_insert_ne (σ : store) (r r' : nat) (v : Vector3) :
  r ≠ r' → deref (<[r := v]> σ) r' = deref σ r'.
Proof. intros H. unfold deref. rewrite list_lookup_insert_ne by exact H. reflexivity. Qed.

(** One pass of [forEach]: the store keeps its size, every object that is
    not a current position keeps its contents, and the current position of
    the datum at index [k] gets the value computed from the contents before
    the pass. *)
Lemma forEachFrom_heap (f : F) (l : list A) (i : nat) (s : S) :
  separate (refs <$> l) (heapOf s) →
  let σ := heapOf s in
  let σ' := heapOf (forEachFrom (body f) i l s) in
  length σ' = length σ ∧
  (∀ r, (∀ k d, l !! k = Some d → rCurrent (refs d) ≠ r) → deref σ' r = deref σ r) ∧
  (∀ k d, l !! k = Some d →
          deref σ' (rCurrent (refs d))
          = val f d (i + k) (deref σ (rCurrent (refs d)))
                            (deref σ (rTarget (refs d)))
                            (deref σ (rChaos (refs d)))).
Proof.
  revert i s. induction l as [|d l IH]; intros i s Hsep; cbv zeta.
  - simpl. split_and!; [reflexivity | reflexivity |]. intros k d' H. discriminate.
  - simpl forEachFrom.
    destruct (Hsep 0%nat 0%nat (refs d) (refs d) eq_refl eq_refl) as (Hcur & _ & _ & _).
    pose proof (body_heap f d i s Hcur) as Hb.
    assert (Hlen : length (heapOf (body f d i s)) = length (heapOf s))
      by (rewrite Hb; apply length_insert).
    destruct (IH (Datatypes.S i) (body f d i s) (separate_tail d l _ _ Hlen Hsep))
      as (L & Hother & Hcurs).
    split_and!.
    + rewrite L. exact Hlen.
    + intros r Hr. rewrite Hother.
      * rewrite Hb. apply deref_insert_ne. apply (Hr 0%nat d eq_refl).
      * intros k d' Hk. apply (Hr (Datatypes.S k) d' Hk).
    + intros [|k] d' Hk; simpl in Hk.
      * injection Hk as <-. rewrite Hother.
        -- rewrite Hb, deref_insert_eq by exact Hcur.
           replace (i + 0)%nat with i by lia. reflexivity.
        -- intros k d' Hk E.
           assert (Hd' : (refs <$> d :: l) !! Datatypes.S k = Some (refs d'))
             by (simpl; rewrite list_lookup_fmap, Hk; reflexivity).
           destruct (Hsep (Datatypes.S k) 0%nat (refs d') (refs d) Hd' eq_refl)
             as (_ & _ & _ & Hinj).
           specialize (Hinj E). discriminate.
      * assert (Hd' : (refs <$> d :: l) !! Datatypes.S k = Some (refs d'))
          by (simpl; rewrite list_lookup_fmap, Hk; reflexivity).
        destruct (Hsep (Datatypes.S k) 0%nat (refs d') (refs d) Hd' eq_refl)
          as (_ & Ht & Hc & Hinj).
        rewrite (Hcurs k d' Hk), Hb.
        rewrite !deref_insert_ne.
        -- replace (Datatypes.S i + k)%nat with (i + Datatypes.S k)%nat by lia. reflexivity.
        -- congruence.
        -- congruence.
        -- intros E. symmetry in E. specialize (Hinj E). discriminate.
Qed.

(** One frame: the formed and chaos positions keep their contents and
    every current position is advanced. *)
Lemma forEach_pass (f : F) (l : list A) (s : S) :
  separate (refs <$> l) (heapOf s) →
  let σ := heapOf s in
  let σ' := heapOf (forEach (body f) l s) in
  separate (refs <$> l) σ' ∧
  ∀ k d, l !! k = Some d →
         deref σ' (rTarget (refs d)) = deref σ (rTarget (refs d)) ∧
         deref σ' (rChaos (refs d)) = deref σ (rChaos (refs d)) ∧
         deref σ' (rCurrent (refs d))
         = val f d k (deref σ (rCurrent (refs d)))
                     (deref σ (rTarget (refs d)))
                     (deref σ (rChaos (refs d))).
Proof.
  intros Hsep. cbv zeta. unfold forEach.
  destruct (forEachFrom_heap f l 0%nat s Hsep) as (L & Hother & Hcurs).
  split; [apply (separate_same_length _ _ _ L Hsep)|].
  intros k d Hk.
  assert (Hd : (refs <$> l) !! k = Some (refs d))
    by (rewrite list_lookup_fmap, Hk; reflexivity).
  split_and!.
  - apply Hother. intros k' d' Hk' E.
    assert (Hd' : (refs <$> l) !! k' = Some (refs d'))
      by (rewrite list_lookup_fmap, Hk'; reflexivity).
    destruct (Hsep k k' (refs d) (refs d') Hd Hd') as (_ & Ht & _ & _). congruence.
  - apply Hother. intros k' d' Hk' E.
    assert (Hd' : (refs <$> l) !! k' = Some (refs d'))
      by (rewrite list_lookup_fmap, Hk'; reflexivity).
    destruct (Hsep k k' (refs d) (refs d') Hd Hd') as (_ & _ & Hc & _). congruence.
  - apply (Hcurs k d Hk).
Qed.

(** Any number of frames: the formed and chaos positions still hold what
    they held at the start. *)
Lemma frames_keep_arrangements (frames : list F) (l : list A) (s : S) :
  separate (refs <$> l) (heapOf s) →
  let s' := fold_left (fun s f => forEach (body f) l s) frames s in
  separate (refs <$> l) (heapOf s') ∧
  ∀ k d, l !! k = Some d →
         deref (heapOf s') (rTarget (refs d)) = deref (heapOf s) (rTarget (refs d)) ∧
         deref (heapOf s') (rChaos (refs d)) = deref (heapOf s) (rChaos (refs d)).
Proof.
  revert s. induction frames as [|f frames IH]; intros s Hsep; cbv zeta; simpl.
  - split; [exact Hsep|]. intros k d Hk. split; reflexivity.
  - destruct (forEach_pass f l s Hsep) as (Hsep' & Hpass).
    destruct (IH _ Hsep') as (Hsep'' & Hkeep).
    split; [exact Hsep''|]. intros k d Hk.
    destruct (Hkeep k d Hk) as (Ht & Hc).
    destruct (Hpass k d Hk) as (Ht' & Hc' & _).
    split; congruence.
Qed.

End EnsembleMotion.

(** ** Construction of an ensemble: three fresh objects per particle *)

Section Construction.

Import Three.

Context {Seed Datum : Type}.
Variables formedOf chaosOf : Seed → Vector3.
Variable refs : Datum → Refs.
Variable newDatum : Seed → store → Datum * store.
Variable newData : list Seed → store → list Datum * store.

Hypothesis newData_nil : ∀ σ, newData [] σ = ([], σ).
Hypothesis newData_cons : ∀ s rest σ,
  newData (s :: rest) σ
  = let '(d, σ1) := newDatum s σ in
    let '(ds, σ2) := newData rest σ1 in (d :: ds, σ2).
Hypothesis newDatum_alloc : ∀ s σ,
  snd (newDatum s σ) = σ ++ [formedOf s; chaosOf s; chaosOf s] ∧
  refs (fst (newDatum s σ))
  = mkRefs (length σ) (length σ + 1) (length σ + 2).

Lemma deref_app_l (σ τ : store) (r : nat) :
  (r < length σ)%nat → deref (σ ++ τ) r = deref σ r.
Proof. intros H. unfold deref. rewrite lookup_app_l by exact H. reflexivity. Qed.

Lemma newData_layout (seeds : list Seed) (σ : store) :
  let ds := fst (newData seeds σ) in
  let σ' := snd (newData seeds σ) in
  length ds = length seeds ∧
  length σ' = (length σ + 3 * length seeds)%nat ∧
  (∀ r, (r < length σ)%nat → deref σ' r = deref σ r) ∧
  ∀ k s, seeds !! k = Some s →
         ∃ d, ds !! k = Some d ∧
              refs d = mkRefs (length σ + 3 * k) (length σ + 3 * k + 1)
                              (length σ + 3 * k + 2) ∧
              deref σ' (length σ + 3 * k) = formedOf s ∧
              deref σ' (length σ + 3 * k + 1) = chaosOf s ∧
              deref σ' (length σ + 3 * k + 2) = chaosOf s.
Proof.
  revert σ. induction seeds as [|s rest IH]; intros σ; cbv zeta.
  - rewrite newData_nil. simpl. split_and!; [reflexivity | lia | reflexivity |].
    intros k s H. discriminate.
  - rewrite newData_cons.
    destruct (newDatum_alloc s σ) as (Hσ1 & Hrefs).
    destruct (newDatum s σ) as [d σ1] eqn:Ed. simpl in Hσ1, Hrefs. subst σ1.
    specialize (IH (σ ++ [formedOf s; chaosOf s; chaosOf s])). cbv zeta in IH.
    destruct (newData rest (σ ++ [formedOf s; chaosOf s; chaosOf s])) as [ds σ2] eqn:Er.
    cbn [fst snd length] in IH |- *.
    rewrite length_app in IH. cbn [length] in IH.
    destruct IH as (Lds & Lσ & Hold & Hnew).
    assert (Hthree : ∀ j v, [formedOf s; chaosOf s; chaosOf s] !! j = Some v →
                            deref σ2 (length σ + j) = v).
    { intros j v Hj. rewrite Hold.
      - unfold deref. rewrite lookup_app_r by lia.
        replace (length σ + j - length σ)%nat with j by lia. rewrite Hj. reflexivity.
      - apply lookup_lt_Some in Hj. simpl in Hj. lia. }
    split_and!.
    + lia.
    + lia.
    + intros r Hr. rewrite Hold by lia. apply deref_app_l, Hr.
    + intros [|k] s' Hk; simpl in Hk.
      * injection Hk as <-. exists d. split; [reflexivity|].
        replace (length σ + 3 * 0)%nat with (length σ) by lia.
        split; [exact Hrefs|].
        rewrite <- (Nat.add_0_r (length σ)) at 1.
        split_and!; apply Hthree; reflexivity.
      * destruct (Hnew k s' Hk) as (d' & Hd' & Hr' & Hf & Hc & Hu).
        exists d'. split; [exact Hd'|].
        replace (length σ + 3 * Datatypes.S k)%nat with (length σ + 3 + 3 * k)%nat by lia.
        split_and!; assumption.
Qed.

Lemma newData_separate (seeds : list Seed) (σ : store) :
  separate (refs <$> fst (newData seeds σ)) (snd (newData seeds σ)).
Proof.
  destruct (newData_layout seeds σ) as (Lds & Lσ & _ & Hnew).
  assert (Hat : ∀ j a, (refs <$> fst (newData seeds σ)) !! j = Some a →
                       (j < length seeds)%nat ∧
                       a = mkRefs (length σ + 3 * j) (length σ + 3 * j + 1)
                                  (length σ + 3 * j + 2)).
  { intros j a Ha. rewrite list_lookup_fmap in Ha.
    destruct (fst (newData seeds σ) !! j) as [d|] eqn:Ed; [|discriminate].
    injection Ha as <-.
    assert (Hj : (j < length seeds)%nat)
      by (rewrite <- Lds; apply lookup_lt_Some in Ed; exact Ed).
    split; [exact Hj|].
    destruct (lookup_lt_is_Some_2 seeds j Hj) as [s Hs].
    destruct (Hnew j s Hs) as (d' & Hd' & Hr' & _). congruence. }
  intros j k a b Ha Hb.
  destruct (Hat j a Ha) as (Hj & ->). destruct (Hat k b Hb) as (Hk & ->).
  simpl. split_and!; lia.
Qed.

End Construction.

(** ** Ornaments *)

Section OrnamentProperties.

Import Three Ornaments.
#[local] Open Scope Q_scope.

Variable sin : Q → Q.

Lemma ornament_newDatum_alloc (s : Seed) (σ : store) :
  snd (newDatum s σ) = σ ++ [formed s; chaos s; chaos s] ∧
  refs (fst (newDatum s σ))
  = mkRefs (length σ) (length σ + 1) (length σ + 2).
Proof.
  unfold newDatum, Vector3_clone, new_Vector3, refs; simpl.
  assert (E : deref ((σ ++ [formed s]) ++ [chaos s]) (length (σ ++ [formed s])) = chaos s).
  { unfold deref. rewrite lookup_app_r by lia.
    rewrite Nat.sub_diag. reflexivity. }
  rewrite E, !length_app. simpl.
  rewrite <- !app_assoc. simpl.
  split; [reflexivity|]. f_equal; lia.
Qed.

(** The value that a frame with inputs [f = (progress, now)] writes into
    the current position of datum [d] at index [i]. *)
Lemma ornament_frameItem_heap (f : Q * Q) (d : Datum) (i : nat) (sc : Scene) :
  (rCurrent (refs d) < length (heap sc))%nat →
  heap (frameItem sin (fst f) (snd f) d i sc)
  = <[rCurrent (refs d) :=
        (fun (f : Q * Q) (d : Datum) (i : nat) (c t h : Vector3) =>
           if Experience.ltb 0.5 (fst f)
           then addY (lerp3 c h (speed d))
                     (sin (snd f * 0.001 + inject_Z (Z.of_nat i)) * 0.02)
           else lerp3 c t (speed d))
          f d i (deref (heap sc) (rCurrent (refs d)))
                (deref (heap sc) (rTarget (refs d)))
                (deref (heap sc) (rChaos (refs d)))]> (heap sc).
Proof.
  intros Hcur. unfold frameItem, refs in *; simpl in *.
  destruct (Experience.ltb 0.5 (fst f)).
  - unfold Vector3_addY, Vector3_lerp.
    rewrite deref_insert_eq by exact Hcur.
    apply list_insert_insert_eq.
  - reflexivity.
Qed.

Lemma ornament_motion_from (seeds : list Seed) (σ : store) (temp : Object3D)
      (m : InstancedMesh) (frames : list (Q * Q)) (i : nat) (d : Datum) (s : Seed) :
  let data := fst (newData seeds σ) in
  let sc0 := mkScene (snd (newData seeds σ)) temp m in
  let sc := runFrames sin data frames sc0 in
  data !! i = Some d → seeds !! i = Some s →
  deref (heap sc0) (currentPos d) = chaos s ∧
  deref (heap sc) (targetPos d) = formed s ∧
  deref (heap sc) (chaosPos d) = chaos s ∧
  ∀ progress now,
    deref (heap (useFrame sin data true progress now sc)) (currentPos d)
    = if Experience.ltb 0.5 progress
      then addY (lerp3 (deref (heap sc) (currentPos d)) (chaos s) (speed d))
                (sin (now * 0.001 + inject_Z (Z.of_nat i)) * 0.02)
      else lerp3 (deref (heap sc) (currentPos d)) (formed s) (speed d).
Proof.
  cbv zeta.
  pose proof (newData_separate formed chaos refs newDatum newData
                (fun _ => eq_refl) (fun _ _ _ => eq_refl) ornament_newDatum_alloc seeds σ)
    as Hsep.
  destruct (newData_layout formed chaos refs newDatum newData
              (fun _ => eq_refl) (fun _ _ _ => eq_refl) ornament_newDatum_alloc seeds σ)
    as (_ & _ & _ & Hnew).
  destruct (newData seeds σ) as [data σ0]. cbn [fst snd] in *.
  intros Hd Hs.
  destruct (Hnew i s Hs) as (d' & Hd' & Hr & Hf & Hc & Hu).
  assert (d' = d) by congruence. subst d'.
  assert (Et : targetPos d = (length σ + 3 * i)%nat)
    by (change (targetPos d) with (rTarget (refs d)); rewrite Hr; reflexivity).
  assert (Ec : chaosPos d = (length σ + 3 * i + 1)%nat)
    by (change (chaosPos d) with (rChaos (refs d)); rewrite Hr; reflexivity).
  assert (Eu : currentPos d = (length σ + 3 * i + 2)%nat)
    by (change (currentPos d) with (rCurrent (refs d)); rewrite Hr; reflexivity).
  rewrite <- Et in Hf. rewrite <- Ec in Hc. rewrite <- Eu in Hu.
  clear Hnew Et Ec Eu Hd' Hr.
  unfold runFrames, useFrame.
  set (sc0 := mkScene σ0 temp m) in *.
  change σ0 with (heap sc0) in Hf, Hc, Hu.
  destruct (frames_keep_arrangements refs heap
              (fun f => frameItem sin (fst f) (snd f)) _ ornament_frameItem_heap
              frames data sc0 Hsep) as (Hsep' & Hkeep).
  destruct (Hkeep i d Hd) as (Ht & Hc').
  cbn [refs rTarget rChaos rCurrent] in Ht, Hc'.
  set (sc := fold_left _ frames sc0) in *.
  split; [exact Hu|].
  split; [rewrite Ht; exact Hf|].
  split; [rewrite Hc'; exact Hc|].
  intros progress now.
  destruct (forEach_pass refs heap
              (fun f => frameItem sin (fst f) (snd f)) _ ornament_frameItem_heap
              (progress, now) data sc Hsep') as (_ & Hpass).
  destruct (Hpass i d Hd) as (_ & _ & Hcur).
  cbn [refs rTarget rChaos rCurrent fst snd] in Hcur. rewrite Hcur.
  rewrite Ht, Hc', Hf, Hc. reflexivity.
Qed.

Lemma ornament_seeds_lookup (seed : nat → Seed) (n i : nat) (σ : store) (d : Datum) :
  fst (newData (map seed (seq 0 n)) σ) !! i = Some d →
  (i < n)%nat ∧ map seed (seq 0 n) !! i = Some (seed i).
Proof.
  intros Hd.
  destruct (newData_layout formed chaos refs newDatum newData
              (fun _ => eq_refl) (fun _ _ _ => eq_refl) ornament_newDatum_alloc
              (map seed (seq 0 n)) σ) as (Lds & _).
  assert (Hi : (i < n)%nat).
  { apply lookup_lt_Some in Hd. rewrite Lds, length_map, length_seq in Hd. exact Hd. }
  split; [exact Hi|].
  change (map ?g ?l) with (g <$> l).
  rewrite list_lookup_fmap, lookup_seq_lt by exact Hi. reflexivity.
Qed.

Lemma ornament_data_length (seed : nat → Seed) (σ : store) :
  length (fst (useMemoData seed σ)) = N.to_nat ORNAMENT_COUNT.
Proof.
  unfold useMemoData. generalize (N.to_nat ORNAMENT_COUNT). intros n.
  destruct (newData_layout formed chaos refs newDatum newData
              (fun _ => eq_refl) (fun _ _ _ => eq_refl) ornament_newDatum_alloc
              (map seed (seq 0 n)) σ) as (Lds & _).
  rewrite Lds, length_map, length_seq. reflexivity.
Qed.

(** Ornaments: whatever frames have run, the formed and chaos positions
    hold the values computed at construction, and the next frame lerps the
    current position toward one of them. *)
Lemma ornament_motion (seed : nat → Seed) (σ : store) (temp : Object3D)
      (m : InstancedMesh) (frames : list (Q * Q)) (i : nat) (d : Datum) :
  let data := fst (useMemoData seed σ) in
  let sc0 := mkScene (snd (useMemoData seed σ)) temp m in
  let sc := runFrames sin data frames sc0 in
  data !! i = Some d →
  deref (heap sc0) (currentPos d) = chaos (seed i) ∧
  deref (heap sc) (targetPos d) = formed (seed i) ∧
  deref (heap sc) (chaosPos d) = chaos (seed i) ∧
  ∀ progress now,
    deref (heap (useFrame sin data true progress now sc)) (currentPos d)
    = if Experience.ltb 0.5 progress
      then addY (lerp3 (deref (heap sc) (currentPos d)) (chaos (seed i)) (speed d))
                (sin (now * 0.001 + inject_Z (Z.of_nat i)) * 0.02)
      else lerp3 (deref (heap sc) (currentPos d)) (formed (seed i)) (speed d).
Proof.
  unfold useMemoData. generalize (N.to_nat ORNAMENT_COUNT). intros n. cbv zeta.
  intros Hd.
  destruct (ornament_seeds_lookup seed n i σ d Hd) as (_ & Hs).
  exact (ornament_motion_from (map seed (seq 0 n)) σ temp m frames i d (seed i) Hd Hs).
Qed.

End OrnamentProperties.

(** ** Fillers *)

Section FillerProperties.

Import Three Fillers.
#[local] Open Scope Q_scope.

Lemma filler_newDatum_alloc (s : Seed) (σ : store) :
  snd (newDatum s σ) = σ ++ [formed s; chaos s; chaos s] ∧
  refs (fst (newDatum s σ))
  = mkRefs (length σ) (length σ + 1) (length σ + 2).
Proof.
  unfold newDatum, Vector3_clone, new_Vector3, refs; simpl.
  assert (E : deref ((σ ++ [formed s]) ++ [chaos s]) (length (σ ++ [formed s])) = chaos s).
  { unfold deref. rewrite lookup_app_r by lia.
    rewrite Nat.sub_diag. reflexivity. }
  rewrite E, !length_app. simpl.
  rewrite <- !app_assoc. simpl.
  split; [reflexivity|]. f_equal; lia.
Qed.

Lemma filler_frameItem_heap (f : Q * Q) (d : Datum) (i : nat) (sc : Scene) :
  (rCurrent (refs d) < length (heap sc))%nat →
  heap (frameItem (fst f) (snd f) d i sc)
  = <[rCurrent (refs d) :=
        (fun (f : Q * Q) (d : Datum) (i : nat) (c t h : Vector3) =>
           lerp3 c (if Experience.ltb 0.5 (fst f) then h else t) (speed d))
          f d i (deref (heap sc) (rCurrent (refs d)))
                (deref (heap sc) (rTarget (refs d)))
                (deref (heap sc) (rChaos (refs d)))]> (heap sc).
Proof.
  intros _. unfold frameItem, refs, Vector3_lerp; simpl.
  destruct (Experience.ltb 0.5 (fst f)); reflexivity.
Qed.

Lemma filler_motion_from (seeds : list Seed) (σ : store) (temp : Object3D)
      (m : InstancedMesh) (frames : list (Q * Q)) (i : nat) (d : Datum) (s : Seed) :
  let data := fst (newData seeds σ) in
  let sc0 := mkScene (snd (newData seeds σ)) temp m in
  let sc := runFrames data frames sc0 in
  data !! i = Some d → seeds !! i = Some s →
  deref (heap sc0) (currentPos d) = chaos s ∧
  deref (heap sc) (targetPos d) = formed s ∧
  deref (heap sc) (chaosPos d) = chaos s ∧
  ∀ progress time,
    deref (heap (useFrame data true progress time sc)) (currentPos d)
    = lerp3 (deref (heap sc) (currentPos d))
            (if Experience.ltb 0.5 progress then chaos s else formed s)
            (speed d).
Proof.
  cbv zeta.
  pose proof (newData_separate formed chaos refs newDatum newData
                (fun _ => eq_refl) (fun _ _ _ => eq_refl) filler_newDatum_alloc seeds σ)
    as Hsep.
  destruct (newData_layout formed chaos refs newDatum newData
              (fun _ => eq_refl) (fun _ _ _ => eq_refl) filler_newDatum_alloc seeds σ)
    as (_ & _ & _ & Hnew).
  destruct (newData seeds σ) as [data σ0]. cbn [fst snd] in *.
  intros Hd Hs.
  destruct (Hnew i s Hs) as (d' & Hd' & Hr & Hf & Hc & Hu).
  assert (d' = d) by congruence. subst d'.
  assert (Et : targetPos d = (length σ + 3 * i)%nat)
    by (change (targetPos d) with (rTarget (refs d)); rewrite Hr; reflexivity).
  assert (Ec : chaosPos d = (length σ + 3 * i + 1)%nat)
    by (change (chaosPos d) with (rChaos (refs d)); rewrite Hr; reflexivity).
  assert (Eu : currentPos d = (length σ + 3 * i + 2)%nat)
    by (change (currentPos d) with (rCurrent (refs d)); rewrite Hr; reflexivity).
  rewrite <- Et in Hf. rewrite <- Ec in Hc. rewrite <- Eu in Hu.
  clear Hnew Et Ec Eu Hd' Hr.
  unfold runFrames, useFrame.
  set (sc0 := mkScene σ0 temp m) in *.
  change σ0 with (heap sc0) in Hf, Hc, Hu.
  destruct (frames_keep_arrangements refs heap
              (fun f => frameItem (fst f) (snd f)) _ filler_frameItem_heap
              frames data sc0 Hsep) as (Hsep' & Hkeep).
  destruct (Hkeep i d Hd) as (Ht & Hc').
  cbn [refs rTarget rChaos rCurrent] in Ht, Hc'.
  set (sc := fold_left _ frames sc0) in *.
  split; [exact Hu|].
  split; [rewrite Ht; exact Hf|].
  split; [rewrite Hc'; exact Hc|].
  intros progress time.
  destruct (forEach_pass refs heap
              (fun f => frameItem (fst f) (snd f)) _ filler_frameItem_heap
              (progress, time) data sc Hsep') as (_ & Hpass).
  destruct (Hpass i d Hd) as (_ & _ & Hcur).
  cbn [refs rTarget rChaos rCurrent fst snd] in Hcur. rewrite Hcur.
  rewrite Ht, Hc', Hf, Hc.
  destruct (Experience.ltb 0.5 progress); reflexivity.
Qed.

Lemma filler_seeds_lookup (seed : nat → Seed) (n i : nat) (σ : store) (d : Datum) :
  fst (newData (map seed (seq 0 n)) σ) !! i = Some d →
  (i < n)%nat ∧ map seed (seq 0 n) !! i = Some (seed i).
Proof.
  intros Hd.
  destruct (newData_layout formed chaos refs newDatum newData
              (fun _ => eq_refl) (fun _ _ _ => eq_refl) filler_newDatum_alloc
              (map seed (seq 0 n)) σ) as (Lds & _).
  assert (Hi : (i < n)%nat).
  { apply lookup_lt_Some in Hd. rewrite Lds, length_map, length_seq in Hd. exact Hd. }
  split; [exact Hi|].
  change (map ?g ?l) with (g <$> l).
  rewrite list_lookup_fmap, lookup_seq_lt by exact Hi. reflexivity.
Qed.

Lemma filler_data_length (seed : nat → Seed) (σ : store) :
  length (fst (useMemoData seed σ)) = N.to_nat FILLER_COUNT.
Proof.
  unfold useMemoData. generalize (N.to_nat FILLER_COUNT). intros n.
  destruct (newData_layout formed chaos refs newDatum newData
              (fun _ => eq_refl) (fun _ _ _ => eq_refl) filler_newDatum_alloc
              (map seed (seq 0 n)) σ) as (Lds & _).
  rewrite Lds, length_map, length_seq. reflexivity.
Qed.

(** Fillers: the same, without the sine offset. *)
Lemma filler_motion (seed : nat → Seed) (σ : store) (temp : Object3D)
      (m : InstancedMesh) (frames : list (Q * Q)) (i : nat) (d : Datum) :
  let data := fst (useMemoData seed σ) in
  let sc0 := mkScene (snd (useMemoData seed σ)) temp m in
  let sc := runFrames data frames sc0 in
  data !! i = Some d →
  deref (heap sc0) (currentPos d) = chaos (seed i) ∧
  deref (heap sc) (targetPos d) = formed (seed i) ∧
  deref (heap sc) (chaosPos d) = chaos (seed i) ∧
  ∀ progress time,
    deref (heap (useFrame data true progress time sc)) (currentPos d)
    = lerp3 (deref (heap sc) (currentPos d))
            (if Experience.ltb 0.5 progress then chaos (seed i) else formed (seed i))
            (speed d).
Proof.
  unfold useMemoData. generalize (N.to_nat FILLER_COUNT). intros n. cbv zeta.
  intros Hd.
  destruct (filler_seeds_lookup seed n i σ d Hd) as (_ & Hs).
  exact (filler_motion_from (map seed (seq 0 n)) σ temp m frames i d (seed i) Hd Hs).
Qed.

End FillerProperties.

(** C5: the ensemble sizes are the constants [FOLIAGE_COUNT = 15000],
    [ORNAMENT_COUNT = 400], [FILLER_COUNT = 1200] and [POLAROID_COUNT = 30];
    the foliage buffers hold 15000 particles (three coordinates each), the
    ornament, filler and polaroid ensembles hold 400, 1200 and 30 elements,
    and together the ensembles have 16630 particles, which is at least
    15000. *)
Theorem C5_particle_counts
        (fseed : nat → Foliage.Seed) (oseed : nat → Ornaments.Seed)
        (lseed : nat → Fillers.Seed) (σ : list Three.Vector3) (photos : list string) :
  FOLIAGE_COUNT = 15000%N ∧ ORNAMENT_COUNT = 400%N ∧
  FILLER_COUNT = 1200%N ∧ POLAROID_COUNT = 30%N ∧
  length (Foliage.positions (Foliage.useMemoBuffers fseed))
  = (N.to_nat FOLIAGE_COUNT * 3)%nat ∧
  length (Foliage.chaosPositions (Foliage.useMemoBuffers fseed))
  = (N.to_nat FOLIAGE_COUNT * 3)%nat ∧
  length (Foliage.randoms (Foliage.useMemoBuffers fseed)) = N.to_nat FOLIAGE_COUNT ∧
  length (fst (Ornaments.useMemoData oseed σ)) = N.to_nat ORNAMENT_COUNT ∧
  length (fst (Fillers.useMemoData lseed σ)) = N.to_nat FILLER_COUNT ∧
  length (Polaroids.render photos) = N.to_nat POLAROID_COUNT ∧
  (FOLIAGE_COUNT + ORNAMENT_COUNT + FILLER_COUNT + POLAROID_COUNT = 16630)%N ∧
  (15000 ≤ FOLIAGE_COUNT + ORNAMENT_COUNT + FILLER_COUNT + POLAROID_COUNT)%N.
Proof.
  destruct (useMemoBuffers_lengths fseed) as (Lp & Lc & Lr).
  do 4 (split; [reflexivity|]).
  split; [exact Lp|]. split; [exact Lc|]. split; [exact Lr|].
  split; [apply ornament_data_length|].
  split; [apply filler_data_length|].
  split; [apply render_length|].
  split; [reflexivity | discriminate].
Qed.

(** C2 (as stated, refuted): the weight with which the vertex shader mixes
    the two arrangements is not the progress signal.  In the first frame
    with [progress = 1] the particle whose formed height is [0] and whose
    chaos height is [10] is drawn at height [1], not at
    [mix(0, 10, 1) = 10]. *)
Lemma C2_foliage_weight_is_not_progress :
  match Foliage.useFrame 0 1 (Some Foliage.initialUniforms) ≫=
        (fun u => Foliage.renderedPosition (fun _ => 0%Q) u
                    (Foliage.useMemoBuffers
                       (fun _ => Foliage.mkSeed (Three.mkVector3 0 0 0)
                                                (Three.mkVector3 0 10 0) 0)) 0%nat)
  with
  | Some pos => ¬ (Three.y pos == Three.mix 0 10 1)%Q ∧ (Three.y pos == 1)%Q
  | None => False
  end.
Proof.
  change (Foliage.useFrame 0 1 (Some Foliage.initialUniforms))
    with (Some (Foliage.mkUniforms 0 (Three.lerp 0 1 0.1))).
  cbn [mbind option_bind].
  rewrite renderedPosition_spec by reflexivity.
  split; [intros H; vm_compute in H; discriminate | reflexivity].
Qed.

(** C2 (amended): every particle ensemble interpolates between two
    arrangements that are computed once, when the component is constructed,
    and are not modified by any frame.
    - Foliage: vertex [i] is drawn at [mix(formed, chaos, uProgress)],
      componentwise, plus a wind offset on [x] only.  The weight [uProgress]
      is the material's uniform: it starts at [0] and every frame replaces
      it by [lerp(uProgress, progress, 0.1)], so it follows the progress
      signal and is not equal to it.
    - Ornaments and fillers: the formed and chaos positions hold, after any
      number of frames, the values computed at construction; the current
      position starts at the chaos position and each frame lerps it, by the
      particle's speed, toward the chaos position when [progress > 0.5] and
      toward the formed position when [progress <= 0.5] (for an ornament the
      lerp toward chaos is followed by a sine offset on [y]). *)
Theorem C2_ensembles_interpolate
        (sin : Q → Q)
        (fseed : nat → Foliage.Seed) (oseed : nat → Ornaments.Seed)
        (lseed : nat → Fillers.Seed)
        (σ : list Three.Vector3) (temp : Three.Object3D) (m : list Three.Matrix4)
        (frames : list (Q * Q)) (u : Foliage.Uniforms) (i : nat) :
  let odata := fst (Ornaments.useMemoData oseed σ) in
  let osc0 := Ornaments.mkScene (snd (Ornaments.useMemoData oseed σ)) temp m in
  let osc := Ornaments.runFrames sin odata frames osc0 in
  let ldata := fst (Fillers.useMemoData lseed σ) in
  let lsc0 := Fillers.mkScene (snd (Fillers.useMemoData lseed σ)) temp m in
  let lsc := Fillers.runFrames ldata frames lsc0 in
  ((N.of_nat i < FOLIAGE_COUNT)%N →
   Foliage.renderedPosition sin u (Foliage.useMemoBuffers fseed) i
   = Some (Three.mkVector3
             (Three.mix (Three.x (Foliage.formed (fseed i)))
                        (Three.x (Foliage.chaos (fseed i))) (Foliage.uProgress u)
              + sin (Foliage.uTime u * 2.0 + Foliage.rand (fseed i) * 10.0) * 0.1)%Q
             (Three.mix (Three.y (Foliage.formed (fseed i)))
                        (Three.y (Foliage.chaos (fseed i))) (Foliage.uProgress u))
             (Three.mix (Three.z (Foliage.formed (fseed i)))
                        (Three.z (Foliage.chaos (fseed i))) (Foliage.uProgress u)))) ∧
  Foliage.uProgress Foliage.initialUniforms = 0%Q ∧
  (∀ t progress,
     Foliage.useFrame t progress (Some u)
     = Some (Foliage.mkUniforms t (Three.lerp (Foliage.uProgress u) progress 0.1))) ∧
  (∀ d, odata !! i = Some d →
     Three.deref (Ornaments.heap osc0) (Ornaments.currentPos d)
     = Ornaments.chaos (oseed i) ∧
     Three.deref (Ornaments.heap osc) (Ornaments.targetPos d)
     = Ornaments.formed (oseed i) ∧
     Three.deref (Ornaments.heap osc) (Ornaments.chaosPos d)
     = Ornaments.chaos (oseed i) ∧
     ∀ progress now,
       let cur := Three.deref (Ornaments.heap osc) (Ornaments.currentPos d) in
       let cur' := Three.deref
                     (Ornaments.heap (Ornaments.useFrame sin odata true progress now osc))
                     (Ornaments.currentPos d) in
       ((0.5 < progress)%Q →
        cur' = Three.addY
                 (Three.lerp3 cur (Ornaments.chaos (oseed i)) (Ornaments.speed d))
                 (sin (now * 0.001 + inject_Z (Z.of_nat i)) * 0.02)%Q) ∧
       ((progress <= 0.5)%Q →
        cur' = Three.lerp3 cur (Ornaments.formed (oseed i)) (Ornaments.speed d))) ∧
  (∀ d, ldata !! i = Some d →
     Three.deref (Fillers.heap lsc0) (Fillers.currentPos d) = Fillers.chaos (lseed i) ∧
     Three.deref (Fillers.heap lsc) (Fillers.targetPos d) = Fillers.formed (lseed i) ∧
     Three.deref (Fillers.heap lsc) (Fillers.chaosPos d) = Fillers.chaos (lseed i) ∧
     ∀ progress time,
       let cur := Three.deref (Fillers.heap lsc) (Fillers.currentPos d) in
       let cur' := Three.deref
                     (Fillers.heap (Fillers.useFrame ldata true progress time lsc))
                     (Fillers.currentPos d) in
       ((0.5 < progress)%Q →
        cur' = Three.lerp3 cur (Fillers.chaos (lseed i)) (Fillers.speed d)) ∧
       ((progress <= 0.5)%Q →
        cur' = Three.lerp3 cur (Fillers.formed (lseed i)) (Fillers.speed d))).
Proof.
  intros odata osc0 osc ldata lsc0 lsc.
  split; [intros Hi; rewrite renderedPosition_spec by exact Hi; reflexivity|].
  split; [reflexivity|].
  split; [reflexivity|].
  split.
  - intros d Hd.
    destruct (ornament_motion sin oseed σ temp m frames i d Hd) as (H0 & Ht & Hc & Hstep).
    split_and!; try assumption.
    intros progress now cur cur'. subst cur cur'. rewrite Hstep. split; intros Hp.
    + apply ltb_lt in Hp. rewrite Hp. reflexivity.
    + apply ltb_ge in Hp. rewrite Hp. reflexivity.
  - intros d Hd.
    destruct (filler_motion lseed σ temp m frames i d Hd) as (H0 & Ht & Hc & Hstep).
    split_and!; try assumption.
    intros progress time cur cur'. subst cur cur'. rewrite Hstep. split; intros Hp.
    + apply ltb_lt in Hp. rewrite Hp. reflexivity.
    + apply ltb_ge in Hp. rewrite Hp. reflexivity.
Qed.

Lemma C2_ensembles_interpolate_witness :
  Foliage.renderedPosition (fun _ => 0%Q) (Foliage.mkUniforms 0 0.1)
    (Foliage.useMemoBuffers
       (fun _ => Foliage.mkSeed (Three.mkVector3 0 0 0) (Three.mkVector3 0 10 0) 0)) 0%nat
  = Some (Three.mkVector3
            (Three.mix 0 0 0.1 + 0 * 0.1)%Q (Three.mix 0 10 0.1) (Three.mix 0 0 0.1))
  ∧ Three.deref
      (Ornaments.heap
         (Ornaments.runFrames (fun _ => 0%Q)
            (fst (Ornaments.useMemoData
                    (fun _ => Ornaments.mkSeed (Three.mkVector3 1 2 3)
                                               (Three.mkVector3 0 10 0) 0.3 0.05) []))
            [(1, 0); (0, 0)]%Q
            (Ornaments.mkScene
               (snd (Ornaments.useMemoData
                       (fun _ => Ornaments.mkSeed (Three.mkVector3 1 2 3)
                                                  (Three.mkVector3 0 10 0) 0.3 0.05) []))
               Three.new_Object3D (Three.new_InstancedMesh ORNAMENT_COUNT))))
      0%nat
    = Three.mkVector3 1 2 3.
Proof.
  pose proof (C2_ensembles_interpolate
                (fun _ => 0%Q)
                (fun _ => Foliage.mkSeed (Three.mkVector3 0 0 0) (Three.mkVector3 0 10 0) 0)
                (fun _ => Ornaments.mkSeed (Three.mkVector3 1 2 3)
                                           (Three.mkVector3 0 10 0) 0.3 0.05)
                (fun _ => Fillers.mkSeed (Three.mkVector3 1 2 3) (Three.mkVector3 0 10 0)
                                         0.3 0.05 (Three.mkVector3 0 0 0))
                [] Three.new_Object3D (Three.new_InstancedMesh ORNAMENT_COUNT)
                [(1, 0); (0, 0)]%Q (Foliage.mkUniforms 0 0.1) 0%nat)
    as (Hfoliage & _ & _ & Hornament & _).
  split.
  - apply Hfoliage. reflexivity.
  - destruct (Hornament (Ornaments.mkDatum 0 1 0.3 0.05 2)) as (_ & Hformed & _).
    + vm_compute. reflexivity.
    + exact Hformed.
Defined.

(** ** [JSON.parse], the regular expression and the message handlers *)

Section JsonProperties.

Import Js.

Lemma lastIsObj_cons (f : Frame) (stack : list Frame) :
  stack ≠ [] → lastIsObj (f :: stack) = lastIsObj stack.
Proof. intros H. destruct stack as [|g stack]; [congruence | reflexivity]. Qed.

Lemma lastIsObj_nonempty (stack : list Frame) : lastIsObj stack = true → stack ≠ [].
Proof. intros H ->. discriminate. Qed.

Lemma complete_rootIsObj (v : JSValue) (stack : list Frame) :
  lastIsObj stack = true → rootIsObj (complete v stack) = true.
Proof.
  intros H. destruct stack as [|f [|g stack]]; [discriminate | |].
  - destruct f; [discriminate | reflexivity].
  - destruct f; exact H.
Qed.

Lemma complete_object_rootIsObj (fields : list (jsstring * JSValue)) (stack : list Frame) :
  inObj stack = true → rootIsObj (complete (JObject fields) stack) = true.
Proof.
  intros H. destruct stack as [|f stack]; [reflexivity|].
  apply complete_rootIsObj, H.
Qed.

Lemma startValue_rootIsObj (t : Token) (stack : list Frame) (st : PState) :
  lastIsObj stack = true → startValue t stack = Some st → rootIsObj st = true.
Proof.
  intros H E.
  destruct t; simpl in E; try discriminate; injection E as <-;
    try (apply complete_rootIsObj, H).
  - simpl. destruct stack; [discriminate | exact H].
  - exact H.
Qed.

Lemma parseStep_rootIsObj (st st' : PState) (t : Token) :
  rootIsObj st = true → parseStep st t = Some st' → rootIsObj st' = true.
Proof.
  intros H E. destruct st as [stack|stack|items stack|stack|fields stack
                              |fields key stack|fields stack|v]; simpl in H.
  - apply (startValue_rootIsObj t stack); assumption.
  - assert (Hcons : lastIsObj (FArr [] :: stack) = true)
      by (rewrite lastIsObj_cons; [exact H | apply lastIsObj_nonempty, H]).
    destruct t;
      try (exact (startValue_rootIsObj _ (FArr [] :: stack) st' Hcons E)).
    simpl in E. injection E as <-. apply complete_rootIsObj, H.
  - destruct t; simpl in E; try discriminate; injection E as <-.
    + apply complete_rootIsObj, H.
    + simpl. rewrite lastIsObj_cons; [exact H | apply lastIsObj_nonempty, H].
  - destruct t; simpl in E; try discriminate; injection E as <-.
    + apply complete_object_rootIsObj, H.
    + exact H.
  - destruct t; simpl in E; try discriminate; injection E as <-. exact H.
  - destruct t; simpl in E; try discriminate; injection E as <-.
    simpl. destruct stack; [reflexivity | exact H].
  - destruct t; simpl in E; try discriminate; injection E as <-.
    + apply complete_object_rootIsObj, H.
    + exact H.
  - destruct t; discriminate.
Qed.

Lemma parseTokens_rootIsObj (ts : list Token) (st st' : PState) :
  rootIsObj st = true → parseTokens st ts = Some st' → rootIsObj st' = true.
Proof.
  revert st. induction ts as [|t ts IH]; intros st H E; simpl in E.
  - injection E as <-. exact H.
  - destruct (parseStep st t) as [st1|] eqn:E1; [|discriminate].
    simpl in E. apply (IH st1); [|exact E].
    apply (parseStep_rootIsObj st st1 t H E1).
Qed.

(** A text that starts with an opening brace parses to an object or not at
    all. *)
Lemma JSON_parse_brace (rest : jsstring) (v : JSValue) :
  JSON_parse (123%N :: rest) = Ok v → ∃ fields, v = JObject fields.
Proof.
  unfold JSON_parse. cbn [lex]. 
  change (lexStep LDefault 123%N) with (Some (LDefault, [TLBrace])).
  cbn [mbind option_bind].
  destruct (lex LDefault rest) as [more|]; [|discriminate].
  cbn [mbind option_bind app parseTokens].
  change (parseStep (ExpValue []) TLBrace) with (Some (ObjOpen [])).
  cbn [mbind option_bind].
  destruct (parseTokens (ObjOpen []) more) as [st|] eqn:E; [|discriminate].
  pose proof (parseTokens_rootIsObj more (ObjOpen []) st eq_refl E) as H.
  destruct st; try discriminate. intros [= ->].
  destruct v; try discriminate. eauto.
Qed.

Lemma matchBraces_head (s m : jsstring) :
  matchBraces s = Some m → ∃ rest, m = 123%N :: rest.
Proof.
  induction s as [|u s IH]; simpl; [discriminate|].
  destruct (N.eqb_spec u 123) as [->|_]; [|exact IH].
  destruct (greedyToBrace s) as [m'|]; [|exact IH].
  intros [= <-]. eauto.
Qed.

(** What [onData] receives for a parsed object. *)
Lemma deliver_object (cb : Callback) (fields : list (jsstring * JSValue))
      (log : list (Callback * GestureData)) :
  GeminiLiveService.deliver cb (JObject fields) log
  = (Ok tt, log ++ [(cb, {| state := if isChaosString (lookupField (str "state") fields)
                                     then CHAOS else FORMED;
                            handX := numberOr0 (lookupField (str "x") fields);
                            handY := numberOr0 (lookupField (str "y") fields) |})]).
Proof. reflexivity. Qed.

Lemma deliver_null (cb : Callback) (log : list (Callback * GestureData)) :
  GeminiLiveService.deliver cb JNull log = (Throw, log).
Proof. reflexivity. Qed.

Lemma deliver_other (cb : Callback) (v : JSValue) (log : list (Callback * GestureData)) :
  v ≠ JNull → (∀ fields, v ≠ JObject fields) →
  GeminiLiveService.deliver cb v log = (Ok tt, log ++ [(cb, mkGestureData FORMED 0 0)]).
Proof.
  intros Hn Ho. destruct v; try reflexivity; [congruence | exfalso; eapply Ho; reflexivity].
Qed.

Lemma isChaosString_spec (v : option JSValue) :
  isChaosString v = true ↔ v = Some (JString (str "CHAOS")).
Proof.
  split.
  - destruct v as [[]|]; simpl; try discriminate.
    intros H. apply bool_decide_eq_true in H. congruence.
  - intros ->. reflexivity.
Qed.

End JsonProperties.

Section HandlerProperties.

Import Js GeminiLiveService.

(** The streaming handler on one part with a non-empty text, with the
    [try]/[catch] resolved. *)
Lemma onPart_text (cb : Callback) (u : N) (rest : jsstring)
      (log : list (Callback * GestureData)) :
  onPart cb (mkPart (Some (u :: rest))) log
  = match matchBraces (u :: rest) with
    | Some m => match JSON_parse m with
                | Ok v => match deliver cb v log with
                          | (Ok a, l) => (Ok a, l)
                          | (Throw, l) => (Ok tt, l)
                          end
                | Throw => (Ok tt, log)
                end
    | None => (Ok tt, log)
    end.
Proof.
  unfold onPart, try_catch, bind, lift, ret.
  cbn [GeminiLiveService.text truthy default from_option id].
  destruct (matchBraces (u :: rest)) as [m|]; [|reflexivity].
  destruct (JSON_parse m); reflexivity.
Qed.

(** The streaming handler on one part with text. *)
Lemma onPart_cases (cb : Callback) (text : jsstring)
      (log : list (Callback * GestureData)) :
  (∃ m fields,
      matchBraces text = Some m ∧ JSON_parse m = Ok (JObject fields) ∧
      onPart cb (mkPart (Some text)) log = deliver cb (JObject fields) log) ∨
  ((matchBraces text = None ∨ ∃ m, matchBraces text = Some m ∧ JSON_parse m = Throw) ∧
   onPart cb (mkPart (Some text)) log = (Ok tt, log)).
Proof.
  destruct text as [|u text].
  - right. split; [left; reflexivity | reflexivity].
  - rewrite onPart_text.
    destruct (matchBraces (u :: text)) as [m|] eqn:Em.
    + destruct (matchBraces_head _ _ Em) as (rest & ->).
      destruct (JSON_parse (123%N :: rest)) as [v|] eqn:Ep.
      * destruct (JSON_parse_brace rest v Ep) as (fields & ->).
        left. exists (123%N :: rest), fields.
        split; [reflexivity|]. split; [exact Ep|].
        rewrite deliver_object. reflexivity.
      * right. split; [right; eauto | reflexivity].
    + right. split; [left; reflexivity | reflexivity].
Qed.

(** The polling continuation on a response with text. *)
Lemma onPollResponse_cases (cb : Callback) (text : jsstring)
      (log : list (Callback * GestureData)) :
  onPollResponse cb (Some text) log
  = match text with
    | [] => (Ok tt, log)
    | _ => match JSON_parse text with
           | Throw | Ok JNull => (Ok tt, log)
           | Ok v => deliver cb v log
           end
    end.
Proof.
  unfold onPollResponse. destruct text as [|u text]; [reflexivity|].
  unfold try_catch, bind, lift. cbn [truthy default from_option id].
  destruct (JSON_parse (u :: text)) as [v|]; [|reflexivity].
  destruct v; reflexivity.
Qed.

End HandlerProperties.

(** C9 (as stated, refuted): in polling mode the payload [123] contains no
    JSON object (it is a JSON number and has no brace in it), and yet the
    gesture callback is invoked, with [FORMED], [0], [0]. *)
Lemma C9_polling_scalar_invokes_callback :
  GeminiLiveService.onPollResponse 7 (Some (Js.json "123")) []
  = (Js.Ok tt, [(7%nat, mkGestureData FORMED 0 0)])
  ∧ Js.JSON_parse (Js.json "123") = Js.Ok (Js.JNumber 123)
  ∧ Js.matchBraces (Js.json "123") = None
  ∧ 123%N ∉ Js.json "123".
Proof.
  split; [reflexivity|]. split; [reflexivity|]. split; [reflexivity|].
  vm_compute. intros H. repeat (apply elem_of_cons in H as [H|H]; [discriminate|]).
  apply elem_of_nil in H. exact H.
Qed.

(** C9 (amended): for every text payload, no handler lets an exception
    escape, and a callback that is made for a parsed JSON object has state
    [CHAOS] iff the object's [state] member is the exact string ['CHAOS']
    (any other or missing value gives [FORMED]) and has [handX]/[handY]
    equal to the object's [x]/[y] when those are numbers and [0] otherwise.
    - Streaming: the value parsed is the span from the first opening brace
      to the last closing brace of the same line; it parses to an object or
      not at all; when there is no such span or it does not parse, no
      callback is made.
    - Polling: the whole text is parsed; an empty text, a text that is not
      valid JSON and the JSON value [null] make no callback; valid JSON that
      is neither an object nor [null] (a number, string, boolean or array)
      makes the callback with [FORMED], [0], [0]. *)
Theorem C9_payload_to_callback
        (cb : nat) (text : list N) (log : list (nat * GestureData)) :
  let gesture fields :=
    {| state := if Js.isChaosString (Js.lookupField (Js.str "state") fields)
                then CHAOS else FORMED;
       handX := Js.numberOr0 (Js.lookupField (Js.str "x") fields);
       handY := Js.numberOr0 (Js.lookupField (Js.str "y") fields) |} in
  (∀ fields,
     (state (gesture fields) = CHAOS
      ↔ Js.lookupField (Js.str "state") fields = Some (Js.JString (Js.str "CHAOS"))) ∧
     (∀ q, Js.lookupField (Js.str "x") fields = Some (Js.JNumber q) →
           handX (gesture fields) = q) ∧
     ((∀ q, Js.lookupField (Js.str "x") fields ≠ Some (Js.JNumber q)) →
      handX (gesture fields) = 0%Q) ∧
     (∀ q, Js.lookupField (Js.str "y") fields = Some (Js.JNumber q) →
           handY (gesture fields) = q) ∧
     ((∀ q, Js.lookupField (Js.str "y") fields ≠ Some (Js.JNumber q)) →
      handY (gesture fields) = 0%Q)) ∧
  (∃ out,
     GeminiLiveService.onPart cb (GeminiLiveService.mkPart (Some text)) log
     = (Js.Ok tt, log ++ out) ∧
     (∀ m v, Js.matchBraces text = Some m → Js.JSON_parse m = Js.Ok v →
             ∃ fields, v = Js.JObject fields ∧ out = [(cb, gesture fields)]) ∧
     (Js.matchBraces text = None → out = []) ∧
     (∀ m, Js.matchBraces text = Some m → Js.JSON_parse m = Js.Throw → out = [])) ∧
  GeminiLiveService.onPart cb (GeminiLiveService.mkPart None) log = (Js.Ok tt, log) ∧
  (∃ out,
     GeminiLiveService.onPollResponse cb (Some text) log = (Js.Ok tt, log ++ out) ∧
     (text = [] → out = []) ∧
     (Js.JSON_parse text = Js.Throw → out = []) ∧
     (Js.JSON_parse text = Js.Ok Js.JNull → out = []) ∧
     (∀ fields, text ≠ [] → Js.JSON_parse text = Js.Ok (Js.JObject fields) →
                out = [(cb, gesture fields)]) ∧
     (∀ v, text ≠ [] → Js.JSON_parse text = Js.Ok v → v ≠ Js.JNull →
           (∀ fields, v ≠ Js.JObject fields) →
           out = [(cb, mkGestureData FORMED 0 0)])) ∧
  GeminiLiveService.onPollResponse cb None log = (Js.Ok tt, log).
Proof.
  intros gesture. split; [|split; [|split; [reflexivity|split; [|reflexivity]]]].
  - intros fields. split; [|split; [|split; [|split]]].
    + unfold gesture; simpl. rewrite <- isChaosString_spec.
      destruct (Js.isChaosString _); split; intros H; congruence.
    + intros q H. unfold gesture; simpl. rewrite H. reflexivity.
    + intros H. unfold gesture; simpl.
      destruct (Js.lookupField (Js.str "x") fields) as [[]|]; try reflexivity.
      exfalso. eapply H. reflexivity.
    + intros q H. unfold gesture; simpl. rewrite H. reflexivity.
    + intros H. unfold gesture; simpl.
      destruct (Js.lookupField (Js.str "y") fields) as [[]|]; try reflexivity.
      exfalso. eapply H. reflexivity.
  - destruct (onPart_cases cb text log)
      as [(m & fields & Em & Ep & E)|([Em|(m & Em & Ep)] & E)]; rewrite E.
    + rewrite deliver_object. eexists. split; [reflexivity|].
      split; [|split].
      * intros m' v Em' Ep'. exists fields. split; [congruence | reflexivity].
      * congruence.
      * intros m' Em' Ep'. congruence.
    + exists []. rewrite app_nil_r. split; [reflexivity|].
      split; [|split]; [congruence | reflexivity | reflexivity].
    + exists []. rewrite app_nil_r. split; [reflexivity|].
      split; [|split]; [congruence | reflexivity | reflexivity].
  - rewrite onPollResponse_cases. destruct text as [|u text].
    + exists []. rewrite app_nil_r. split; [reflexivity|].
      split; [reflexivity|]. split; [reflexivity|]. split; [reflexivity|].
      split; intros; congruence.
    + destruct (Js.JSON_parse (u :: text)) as [v|] eqn:Ep.
      * destruct v;
          try (exists [(cb, mkGestureData FORMED 0 0)]; split; [reflexivity|];
               split; [discriminate|]; split; [discriminate|]; split; [discriminate|];
               split; [discriminate | reflexivity]).
        -- exists []. rewrite app_nil_r. split; [reflexivity|].
           split; [reflexivity|]. split; [reflexivity|]. split; [reflexivity|].
           split; [discriminate|]. intros v _ [= <-] H. congruence.
        -- rewrite deliver_object. eexists. split; [reflexivity|].
           split; [discriminate|]. split; [discriminate|]. split; [discriminate|].
           split.
           ++ intros fields' _ [= <-]. reflexivity.
           ++ intros v _ [= <-] _ H. exfalso. eapply H. reflexivity.
      * exists []. rewrite app_nil_r. split; [reflexivity|].
        split; [discriminate|]. split; [reflexivity|]. split; [reflexivity|].
        split; intros; discriminate.
Qed.

Lemma C9_payload_to_callback_witness :
  GeminiLiveService.onPart 7 (GeminiLiveService.mkPart
                                (Some (Js.json "ok {'state':'CHAOS','x':0.5}"))) []
  = (Js.Ok tt, [(7%nat, mkGestureData CHAOS 0.5 0)])
  ∧ GeminiLiveService.onPollResponse 7 (Some (Js.json "nope")) [] = (Js.Ok tt, []).
Proof.
  destruct (C9_payload_to_callback 7 (Js.json "ok {'state':'CHAOS','x':0.5}") [])
    as (_ & (out & E & Hobj & _) & _).
  destruct (C9_payload_to_callback 7 (Js.json "nope") [])
    as (_ & _ & _ & (out' & E' & _ & Hthrow & _) & _).
  split.
  - rewrite E. f_equal.
    destruct (Hobj (Js.json "{'state':'CHAOS','x':0.5}")
                   (Js.JObject [(Js.str "state", Js.JString (Js.str "CHAOS"));
                                (Js.str "x", Js.JNumber 0.5)]))
      as (fields & Ef & ->); [reflexivity | reflexivity |].
    injection Ef as <-. reflexivity.
  - rewrite E', (Hthrow eq_refl). reflexivity.
Defined.

(** ** The gesture service: timers, fallback and disconnect *)

Section ServiceProperties.

Import Js GeminiLiveService.

Lemma truthyId_Some (o : option nat) (id : nat) :
  truthyId o = Some id → o = Some id ∧ id ≠ 0%nat.
Proof. destruct o as [[|n]|]; simpl; intros [= <-]; split; congruence. Qed.

Lemma truthyId_None (o : option nat) :
  truthyId o = None → o = None ∨ o = Some 0%nat.
Proof. destruct o as [[|n]|]; simpl; intros H; try discriminate; auto. Qed.

(** Clearing the interval named by [this.intervalId] leaves no timer. *)
Lemma tracked_clear (st : State) :
  tracked st →
  match truthyId (intervalId (this st)) with
  | Some id => delete id (timers (world st))
  | None => timers (world st)
  end = ∅.
Proof.
  intros (_ & Hone & Hpos & _). apply map_empty. intros i.
  destruct (truthyId (intervalId (this st))) as [id|] eqn:E.
  - apply truthyId_Some in E as [E _].
    destruct (decide (id = i)) as [->|Hne]; [apply lookup_delete_eq|].
    rewrite lookup_delete_ne by exact Hne.
    destruct (timers (world st) !! i) as [t|] eqn:Et; [|reflexivity].
    apply Hone in Et. congruence.
  - destruct (timers (world st) !! i) as [t|] eqn:Et; [|reflexivity].
    pose proof (Hone _ _ Et) as Hi. pose proof (Hpos _ Hi) as Hr.
    apply truthyId_None in E as [E|E]; rewrite E in Hi; [discriminate|].
    injection Hi as <-. lia.
Qed.

Lemma cancelInterval_effect (st : State) :
  tracked st →
  timers (world (cancelInterval st)) = ∅ ∧
  nextTimer (world (cancelInterval st)) = nextTimer (world st) ∧
  sockets (world (cancelInterval st)) = sockets (world st) ∧
  sent (world (cancelInterval st)) = sent (world st) ∧
  calls (world (cancelInterval st)) = calls (world st) ∧
  pendingPolls (world (cancelInterval st)) = pendingPolls (world st) ∧
  session (this (cancelInterval st)) = session (this st) ∧
  ai (this (cancelInterval st)) = ai (this st) ∧
  ctx (this (cancelInterval st)) = ctx (this st) ∧
  isFallbackActive (this (cancelInterval st)) = isFallbackActive (this st).
Proof.
  intros Htr. pose proof (tracked_clear st Htr) as Hclear.
  unfold cancelInterval.
  destruct (truthyId (intervalId (this st))); simpl; split_and!; try reflexivity;
    exact Hclear.
Qed.

(** What [switchToFallback] does when the fallback is not yet active. *)
Lemma switchToFallback_effect (cb : Callback) (st : State) :
  tracked st → isFallbackActive (this st) = false →
  let st' := switchToFallback cb st in
  timers (world st') = {[nextTimer (world st) := mkTimer (PollingTick cb) 1500]} ∧
  nextTimer (world st') = Datatypes.S (nextTimer (world st)) ∧
  intervalId (this st') = Some (nextTimer (world st)) ∧
  session (this st') = None ∧
  isFallbackActive (this st') = true ∧
  ai (this st') = ai (this st) ∧
  ctx (this st') = ctx (this st) ∧
  sent (world st') = sent (world st) ∧
  calls (world st') = calls (world st) ∧
  pendingPolls (world st') = pendingPolls (world st) ∧
  sockets (world st')
  = match session (this st) with
    | Some sid => alter (fun k => mkSocket Closed (pending k) (handler k)) sid
                        (sockets (world st))
    | None => sockets (world st)
    end.
Proof.
  intros Htr Hfb. cbv zeta. unfold switchToFallback. rewrite Hfb.
  set (st1 := mkState (world st) (setIsFallbackActive true (this st))).
  assert (Htr1 : tracked st1) by exact Htr.
  destruct (cancelInterval_effect st1 Htr1)
    as (Ht & Hn & Hs & Hsent & Hcalls & Hpp & Hse & Hai & Hctx & Hf).
  set (st2 := cancelInterval st1) in *.
  subst st1. cbn [world this session ai ctx isFallbackActive setIsFallbackActive]
    in Hn, Hs, Hsent, Hcalls, Hpp, Hse, Hai, Hctx, Hf.
  unfold startPollingFallback, setInterval, dropSession.
  rewrite Hse.
  destruct (session (this st)) as [sid|] eqn:Es; simpl;
    rewrite ?Ht, ?Hn, ?Hs, ?Hsent, ?Hcalls, ?Hpp, ?Hai, ?Hctx, ?Hf, ?Hse;
    (split_and!; try reflexivity; apply insert_empty).
Qed.

Lemma switchToFallback_active (cb : Callback) (st : State) :
  isFallbackActive (this st) = true → switchToFallback cb st = st.
Proof. intros H. unfold switchToFallback. rewrite H. reflexivity. Qed.

Lemma disconnect_effect (st : State) :
  tracked st →
  timers (world (disconnect st)) = ∅ ∧
  nextTimer (world (disconnect st)) = nextTimer (world st) ∧
  intervalId (this (disconnect st)) = intervalId (this st) ∧
  session (this (disconnect st)) = None ∧
  ai (this (disconnect st)) = false ∧
  isFallbackActive (this (disconnect st)) = false ∧
  sockets (world (disconnect st))
  = match session (this st) with
    | Some sid => alter (fun k => mkSocket Closed (pending k) (handler k)) sid
                        (sockets (world st))
    | None => sockets (world st)
    end.
Proof.
  intros Htr. pose proof (tracked_clear st Htr) as Hclear.
  unfold disconnect. simpl.
  destruct (truthyId (intervalId (this st))); destruct (session (this st)); simpl;
    split_and!; try reflexivity; exact Hclear.
Qed.

(** A step that leaves the timers, the id counter and [this.intervalId] alone
    and puts no connection (back) into the connecting state keeps the timers
    tracked. *)
Lemma quiet_tracked (st st' : State) :
  tracked st →
  timers (world st') = timers (world st) →
  nextTimer (world st') = nextTimer (world st) →
  intervalId (this st') = intervalId (this st) →
  length (sockets (world st')) = length (sockets (world st)) →
  (∀ sid k', sockets (world st') !! sid = Some k' → sstate k' = Connecting →
             ∃ k, sockets (world st) !! sid = Some k ∧ sstate k = Connecting) →
  tracked st'.
Proof.
  intros (H0 & H1 & H2 & H4 & H3) Et En Ei El Hs.
  unfold tracked. rewrite Et, En, Ei. split_and!; try assumption.
  - intros E. apply H4. apply length_zero_iff_nil. rewrite <- El, E. reflexivity.
  - intros sid k' Hk' Hc. destruct (Hs sid k' Hk' Hc) as (k & Hk & Hkc).
    apply (H3 sid k Hk Hkc).
Qed.

Lemma alter_keeps_connecting (f : Socket → Socket) (sid : nat) (l : list Socket) :
  (∀ k, sstate (f k) = Connecting → sstate k = Connecting) →
  ∀ sid' k', alter f sid l !! sid' = Some k' → sstate k' = Connecting →
             ∃ k, l !! sid' = Some k ∧ sstate k = Connecting.
Proof.
  intros Hf sid' k' Hk' Hc.
  destruct (decide (sid = sid')) as [->|Hne].
  - rewrite list_lookup_alter_eq in Hk'.
    destruct (l !! sid') as [k|]; [|discriminate]. injection Hk' as <-.
    exists k. split; [reflexivity | apply Hf, Hc].
  - rewrite list_lookup_alter_ne in Hk' by exact Hne. eauto.
Qed.

Lemma runHandler_effect (m : M unit) (st st' : State) :
  runHandler m st = Some st' →
  this st' = this st ∧
  timers (world st') = timers (world st) ∧
  nextTimer (world st') = nextTimer (world st) ∧
  sockets (world st') = sockets (world st) ∧
  sent (world st') = sent (world st) ∧
  pendingPolls (world st') = pendingPolls (world st) ∧
  calls (world st') = snd (m (calls (world st))).
Proof.
  unfold runHandler. destruct (m (calls (world st))) as [[[]|] log]; [|discriminate].
  intros [= <-]. split_and!; reflexivity.
Qed.

(** With a single connection, the connection that an event names is the
    only one. *)
Lemma single_socket (l : list Socket) (sid sid' : nat) (k k' : Socket) :
  (length l ≤ 1)%nat → l !! sid = Some k → l !! sid' = Some k' → sid' = sid.
Proof.
  intros Hl Hk Hk'. apply lookup_lt_Some in Hk. apply lookup_lt_Some in Hk'. lia.
Qed.

(** The state after [switchToFallback] is tracked when no connection is
    connecting any more. *)
Lemma switchToFallback_tracked (cb : Callback) (st : State) :
  tracked st → sockets (world st) ≠ [] →
  (∀ sid k, sockets (world st) !! sid = Some k → sstate k ≠ Connecting) →
  tracked (switchToFallback cb st).
Proof.
  intros Htr Hne Hnc.
  destruct (isFallbackActive (this st)) eqn:Hfb.
  - rewrite switchToFallback_active by exact Hfb. exact Htr.
  - destruct (switchToFallback_effect cb st Htr Hfb)
      as (Et & En & Ei & _ & _ & _ & _ & _ & _ & _ & Es).
    destruct Htr as (H0 & _).
    unfold tracked. rewrite Et, En, Ei. split_and!.
    + lia.
    + intros id t Hl. apply lookup_singleton_Some in Hl as [<- _]. reflexivity.
    + intros id [= <-]. lia.
    + intros E. exfalso. apply Hne. apply length_zero_iff_nil.
      apply (f_equal length) in E. rewrite Es in E.
      destruct (session (this st)); [rewrite length_alter in E|]; exact E.
    + intros sid k' Hk' Hc. exfalso. rewrite Es in Hk'.
      destruct (session (this st)) as [s|].
      * assert (Hf : ∀ k, sstate (mkSocket Closed (pending k) (handler k)) = Connecting →
                          sstate k = Connecting) by (intros k H; discriminate H).
        destruct (alter_keeps_connecting _ s (sockets (world st)) Hf sid k' Hk' Hc)
          as (k & Hk & Hkc).
        apply (Hnc sid k Hk Hkc).
      * apply (Hnc sid k' Hk' Hc).
Qed.

Lemma switchToFallback_sockets_length (cb : Callback) (st : State) :
  length (sockets (world (switchToFallback cb st))) = length (sockets (world st)).
Proof.
  destruct st as [w s]. unfold switchToFallback, cancelInterval, dropSession,
    startPollingFallback. cbn [this world isFallbackActive].
  destruct (isFallbackActive s); [reflexivity|].
  cbn [this world intervalId setIsFallbackActive].
  destruct (truthyId (intervalId s)); cbn [this world session setIntervalId setIsFallbackActive];
    destruct (session s); simpl; rewrite ?length_alter; reflexivity.
Qed.

Lemma step_sockets_length (e : Event) (st st' : State) :
  step e st = Some st' →
  (length (sockets (world st)) ≤ length (sockets (world st')))%nat.
Proof.
  intros Hstep. destruct e; unfold step in Hstep.
  - injection Hstep as <-. unfold connect. destruct apiKey; simpl; [|lia].
    rewrite length_app. lia.
  - injection Hstep as <-. destruct st as [w s]. unfold disconnect; simpl.
    destruct (session s); simpl; rewrite ?length_alter;
      destruct (truthyId (intervalId s)); simpl; lia.
  - destruct (sockets (world st) !! sid) as [k|]; [|discriminate].
    cbn [mbind option_bind] in Hstep. case_decide; [|discriminate].
    injection Hstep as <-. simpl. rewrite length_alter. lia.
  - destruct (sockets (world st) !! sid) as [k|]; [|discriminate].
    cbn [mbind option_bind] in Hstep.
    destruct (bool_decide (sstate k = Open) && pending k); [|discriminate].
    injection Hstep as <-. simpl. rewrite length_alter. lia.
  - destruct (sockets (world st) !! sid) as [k|]; [|discriminate].
    cbn [mbind option_bind] in Hstep.
    destruct (pending k); [|discriminate]. injection Hstep as <-.
    rewrite switchToFallback_sockets_length.
    case_decide; simpl; rewrite ?length_alter; lia.
  - destruct (sockets (world st) !! sid) as [k|]; [|discriminate].
    cbn [mbind option_bind] in Hstep. case_decide; [|discriminate].
    apply runHandler_effect in Hstep as (_ & _ & _ & -> & _). lia.
  - destruct (sockets (world st) !! sid) as [k|]; [|discriminate].
    cbn [mbind option_bind] in Hstep. injection Hstep as <-.
    rewrite switchToFallback_sockets_length. simpl. rewrite length_alter. lia.
  - destruct (sockets (world st) !! sid) as [k|]; [|discriminate].
    cbn [mbind option_bind] in Hstep. injection Hstep as <-.
    simpl. rewrite length_alter. lia.
  - destruct (timers (world st) !! id) as [t|]; [|discriminate].
    cbn [mbind option_bind] in Hstep.
    destruct (body t); injection Hstep as <-.
    + unfold streamingTick. destruct (_ || _); simpl; lia.
    + unfold pollingTick. destruct (_ || _); simpl; lia.
  - destruct (pendingBlobs (world st)); [discriminate|].
    destruct (_ && _); injection Hstep as <-; simpl; lia.
  - destruct (pendingSends (world st)); [discriminate|].
    destruct (session (this st)); [destruct (bool_decide _)|];
      injection Hstep as <-; simpl; lia.
  - destruct (pendingPolls (world st) !! k) as [cb|]; [|discriminate].
    cbn [mbind option_bind] in Hstep.
    apply runHandler_effect in Hstep as (_ & _ & _ & -> & _). simpl. lia.
  - destruct (pendingPolls (world st) !! k) as [cb|]; [|discriminate].
    cbn [mbind option_bind] in Hstep. injection Hstep as <-. simpl. lia.
Qed.

Ltac quiet st :=
  apply (quiet_tracked st); [assumption | reflexivity | reflexivity | reflexivity | |].

(** Every event keeps the timers tracked, as long as [connect] has been
    called at most once. *)
Lemma step_tracked (e : Event) (st st' : State) :
  step e st = Some st' → connectedOnce st' → tracked st → tracked st'.
Proof.
  intros Hstep Honce Htr. unfold connectedOnce in Honce.
  pose proof (step_sockets_length e st st' Hstep) as Hlen.
  destruct e; unfold step in Hstep.
  - (* connect *)
    injection Hstep as <-. unfold connect in *. destruct apiKey; [|exact Htr].
    cbn [world this sockets setSockets] in Honce.
    rewrite length_app in Honce. cbn [length] in Honce.
    destruct Htr as (H0 & H1 & H2 & H4 & H3).
    assert (Hnil : sockets (world st) = [])
      by (apply length_zero_iff_nil; lia).
    unfold tracked. cbn. split_and!; try assumption.
    + intros E. apply H4, Hnil.
    + intros _ _ _ _. apply H4, Hnil.
  - (* disconnect *)
    injection Hstep as <-.
    destruct (disconnect_effect st Htr) as (Et & En & Ei & _).
    destruct Htr as (H0 & H1 & H2 & H4 & H3).
    unfold tracked. rewrite Et, En, Ei. split_and!; try assumption; try reflexivity.
    intros id t Hl. rewrite lookup_empty in Hl. discriminate.
  - (* onopen *)
    destruct (sockets (world st) !! sid) as [k|] eqn:Ek; [|discriminate].
    cbn [mbind option_bind] in Hstep. case_decide as Hc; [|discriminate].
    injection Hstep as <-.
    destruct Htr as (H0 & H1 & H2 & H4 & H3).
    pose proof (H3 sid k Ek Hc) as Hempty.
    unfold tracked, startStreamingLive, setInterval, setSocketState in *.
    cbn in *. rewrite Hempty. split_and!.
    + lia.
    + intros id t Hl. rewrite insert_empty in Hl.
      apply lookup_singleton_Some in Hl as [<- _]. reflexivity.
    + intros id [= <-]. lia.
    + intros E. exfalso. apply (f_equal length) in E. rewrite length_alter in E.
      apply lookup_lt_Some in Ek. simpl in E. lia.
    + intros sid' k' Hk' Hc'. exfalso.
      rewrite length_alter in Honce.
      assert (sid' = sid).
      { apply lookup_lt_Some in Ek. apply lookup_lt_Some in Hk'.
        rewrite length_alter in Hk'. lia. }
      subst sid'. rewrite list_lookup_alter_eq, Ek in Hk'.
      injection Hk' as <-. discriminate.
  - (* the awaited promise resolves *)
    destruct (sockets (world st) !! sid) as [k|] eqn:Ek; [|discriminate].
    cbn [mbind option_bind] in Hstep.
    destruct (bool_decide (sstate k = Open) && pending k); [|discriminate].
    injection Hstep as <-. quiet st.
    + simpl. apply length_alter.
    + apply alter_keeps_connecting. intros k0 H. exact H.
  - (* the awaited promise rejects *)
    destruct (sockets (world st) !! sid) as [k|] eqn:Ek; [|discriminate].
    cbn [mbind option_bind] in Hstep.
    destruct (pending k); [|discriminate]. injection Hstep as <-.
    rewrite switchToFallback_sockets_length in Honce.
    set (w2 := if decide (sstate k = Connecting)
               then setSocketState sid Closed (settle sid (world st))
               else settle sid (world st)) in *.
    assert (Hw2 : timers w2 = timers (world st) ∧ nextTimer w2 = nextTimer (world st) ∧
                  length (sockets w2) = length (sockets (world st)) ∧
                  (∀ sid' k', sockets w2 !! sid' = Some k' → sstate k' = Connecting →
                              ∃ k0, sockets (world st) !! sid' = Some k0 ∧
                                    sstate k0 = Connecting) ∧
                  ∃ k2, sockets w2 !! sid = Some k2 ∧ sstate k2 ≠ Connecting).
    { unfold w2. case_decide as Hd; cbn [setSocketState settle setSockets sockets timers
                                            nextTimer].
      - split; [reflexivity|]. split; [reflexivity|].
        split; [rewrite !length_alter; reflexivity|]. split.
        + intros sid' k' Hk' Hc'.
          apply alter_keeps_connecting in Hk' as (k1 & Hk1 & Hc1);
            [|intros k0 H; discriminate H|exact Hc'].
          apply alter_keeps_connecting in Hk1 as (k0 & Hk0 & Hc0);
            [eauto|intros k0 H; exact H|exact Hc1].
        + eexists. split; [rewrite !list_lookup_alter_eq, Ek; reflexivity|].
          discriminate.
      - split; [reflexivity|]. split; [reflexivity|].
        split; [rewrite !length_alter; reflexivity|]. split.
        + apply alter_keeps_connecting. intros k0 H. exact H.
        + eexists. split; [rewrite !list_lookup_alter_eq, Ek; reflexivity|].
          exact Hd. }
    destruct Hw2 as (Ht2 & Hn2 & Hl2 & Hc2 & k2 & Hk2 & Hk2c).
    apply switchToFallback_tracked.
    + apply (quiet_tracked st); try assumption; reflexivity.
    + cbn [world]. intros E. rewrite E in Hk2. discriminate.
    + cbn [world] in *. intros sid' k' Hk' Hc'.
      assert (sid' = sid) by (apply (single_socket _ _ _ _ _ Honce Hk2 Hk')).
      subst sid'. rewrite Hk2 in Hk'. injection Hk' as <-. exact (Hk2c Hc').
  - (* onmessage *)
    destruct (sockets (world st) !! sid) as [k|] eqn:Ek; [|discriminate].
    cbn [mbind option_bind] in Hstep. case_decide; [|discriminate].
    apply runHandler_effect in Hstep as (Eth & Et & En & Es & _).
    apply (quiet_tracked st); try assumption; try congruence.
    rewrite Es. eauto.
  - (* onerror *)
    destruct (sockets (world st) !! sid) as [k|] eqn:Ek; [|discriminate].
    cbn [mbind option_bind] in Hstep. injection Hstep as <-.
    rewrite switchToFallback_sockets_length in Honce.
    assert (Hf : ∀ k0, sstate (mkSocket Closed (pending k0) (handler k0)) = Connecting →
                       sstate k0 = Connecting) by (intros k0 H; discriminate H).
    apply switchToFallback_tracked.
    + quiet st.
      * simpl. apply length_alter.
      * apply alter_keeps_connecting, Hf.
    + cbn [world setSocketState setSockets sockets]. intros E.
      apply (f_equal length) in E. rewrite length_alter in E.
      apply lookup_lt_Some in Ek. simpl in E. lia.
    + cbn [world setSocketState setSockets sockets] in *. intros sid' k' Hk' Hc'.
      assert (sid' = sid).
      { apply lookup_lt_Some in Ek. apply lookup_lt_Some in Hk'.
        rewrite length_alter in Hk', Honce. lia. }
      subst sid'. rewrite list_lookup_alter_eq, Ek in Hk'.
      injection Hk' as <-. discriminate.
  - (* onclose *)
    destruct (sockets (world st) !! sid) as [k|] eqn:Ek; [|discriminate].
    cbn [mbind option_bind] in Hstep. injection Hstep as <-. quiet st.
    + simpl. apply length_alter.
    + apply alter_keeps_connecting. intros k0 H. discriminate H.
  - (* a timer fires *)
    destruct (timers (world st) !! id) as [t|]; [|discriminate].
    cbn [mbind option_bind] in Hstep.
    destruct (body t); injection Hstep as <-.
    + unfold streamingTick. destruct (_ || _); [exact Htr|]. quiet st; [reflexivity | eauto].
    + unfold pollingTick. destruct (_ || _); [exact Htr|]. quiet st; [reflexivity | eauto].
  - (* toBlob callback *)
    destruct (pendingBlobs (world st)); [discriminate|].
    destruct (_ && _); injection Hstep as <-; (quiet st; [reflexivity | eauto]).
  - (* blobToBase64 resolves *)
    destruct (pendingSends (world st)); [discriminate|].
    destruct (session (this st)); [destruct (bool_decide _)|];
      injection Hstep as <-; (quiet st; [reflexivity | eauto]).
  - (* generateContent resolves *)
    destruct (pendingPolls (world st) !! k) as [cb|]; [|discriminate].
    cbn [mbind option_bind] in Hstep.
    apply runHandler_effect in Hstep as (Eth & Et & En & Es & _).
    cbn [world this] in *.
    apply (quiet_tracked st); try assumption; try congruence.
    + rewrite Es. reflexivity.
    + rewrite Es. eauto.
  - (* generateContent rejects *)
    destruct (pendingPolls (world st) !! k) as [cb|]; [|discriminate].
    cbn [mbind option_bind] in Hstep. injection Hstep as <-.
    quiet st; [reflexivity | eauto].
Qed.

Lemma initial_tracked (hasCtx : bool) : tracked (initial hasCtx).
Proof.
  unfold tracked, initial; cbn. split_and!; try reflexivity;
    first [ intros id t H; rewrite lookup_empty in H; discriminate
          | intros; discriminate ].
Qed.

Lemma run_sockets_length (es : list Event) (st st' : State) :
  run es st = Some st' →
  (length (sockets (world st)) ≤ length (sockets (world st')))%nat.
Proof.
  revert st. induction es as [|e es IH]; intros st Hrun; simpl in Hrun.
  - injection Hrun as <-. lia.
  - destruct (step e st) as [st1|] eqn:E; [|discriminate]. simpl in Hrun.
    pose proof (step_sockets_length e st st1 E). pose proof (IH st1 Hrun). lia.
Qed.

Lemma run_tracked_from (es : list Event) (st st' : State) :
  run es st = Some st' → connectedOnce st' → tracked st → tracked st'.
Proof.
  revert st. induction es as [|e es IH]; intros st Hrun Honce Htr; simpl in Hrun.
  - injection Hrun as <-. exact Htr.
  - destruct (step e st) as [st1|] eqn:E; [|discriminate]. simpl in Hrun.
    apply (IH st1 Hrun Honce). apply (step_tracked e st st1 E); [|exact Htr].
    pose proof (run_sockets_length es st1 st' Hrun). unfold connectedOnce in *. lia.
Qed.

(** In every state that the service reaches with at most one [connect], the
    timers are tracked. *)
Lemma run_tracked (hasCtx : bool) (es : list Event) (st : State) :
  run es (initial hasCtx) = Some st → connectedOnce st → tracked st.
Proof.
  intros Hrun Honce. apply (run_tracked_from es _ st Hrun Honce), initial_tracked.
Qed.

Lemma tracked_size (st : State) : tracked st → (size (timers (world st)) ≤ 1)%nat.
Proof.
  intros (_ & H1 & _).
  destruct (intervalId (this st)) as [j|] eqn:Ej.
  - destruct (timers (world st) !! j) as [t|] eqn:Et.
    + assert (E : timers (world st) = {[j := t]}).
      { apply map_eq. intros i. destruct (decide (i = j)) as [->|Hne].
        - rewrite lookup_singleton_eq. exact Et.
        - rewrite lookup_singleton_ne by congruence.
          destruct (timers (world st) !! i) as [t'|] eqn:Ei; [|reflexivity].
          apply H1 in Ei. congruence. }
      rewrite E, map_size_singleton. lia.
    + assert (E : timers (world st) = ∅).
      { apply map_empty. intros i.
        destruct (timers (world st) !! i) as [t'|] eqn:Ei; [|reflexivity].
        pose proof (H1 _ _ Ei). congruence. }
      rewrite E, map_size_empty. lia.
  - assert (E : timers (world st) = ∅).
    { apply map_empty. intros i.
      destruct (timers (world st) !! i) as [t'|] eqn:Ei; [|reflexivity].
      pose proof (H1 _ _ Ei). congruence. }
    rewrite E, map_size_empty. lia.
Qed.

(** The sockets after [switchToFallback]: the old ones, with the session's
    connection closed. *)
Lemma switchToFallback_sockets (cb : Callback) (st : State) :
  sockets (world (switchToFallback cb st)) = sockets (world st) ∨
  ∃ s, sockets (world (switchToFallback cb st))
       = alter (fun k => mkSocket Closed (pending k) (handler k)) s (sockets (world st)).
Proof.
  destruct st as [w s]. unfold switchToFallback, cancelInterval, dropSession,
    startPollingFallback. cbn [this world isFallbackActive].
  destruct (isFallbackActive s); [left; reflexivity|].
  cbn [this world intervalId setIsFallbackActive].
  destruct (truthyId (intervalId s)); cbn [this world session setIntervalId setIsFallbackActive];
    destruct (session s); simpl; eauto.
Qed.

Lemma alter_handler (f : Socket → Socket) (i sid : nat) (l : list Socket) (k' : Socket) :
  (∀ k, handler (f k) = handler k) →
  alter f i l !! sid = Some k' → ∃ k, l !! sid = Some k ∧ handler k = handler k'.
Proof.
  intros Hf Hk'. destruct (decide (i = sid)) as [->|Hne].
  - rewrite list_lookup_alter_eq in Hk'. destruct (l !! sid) as [k|]; [|discriminate].
    injection Hk' as <-. exists k. split; [reflexivity | symmetry; apply Hf].
  - rewrite list_lookup_alter_ne in Hk' by exact Hne. eauto.
Qed.

(** The callback of a connection is the one that was handed to [connect]. *)
Lemma step_handlers (e : Event) (st st' : State) (sid : nat) (k' : Socket) :
  step e st = Some st' → sockets (world st') !! sid = Some k' →
  (∃ k, sockets (world st) !! sid = Some k ∧ handler k = handler k') ∨
  e = Connect true (handler k').
Proof.
  intros Hstep Hk'.
  assert (Hsame : sockets (world st') = sockets (world st) →
                  ∃ k, sockets (world st) !! sid = Some k ∧ handler k = handler k')
    by (intros E; rewrite E in Hk'; eauto).
  assert (Halt : ∀ f i, (∀ k, handler (f k) = handler k) →
                        sockets (world st') = alter f i (sockets (world st)) →
                        ∃ k, sockets (world st) !! sid = Some k ∧ handler k = handler k').
  { intros f i Hf E. rewrite E in Hk'. apply (alter_handler f i sid _ k' Hf Hk'). }
  assert (Hfall : ∀ cb w, sockets w = sockets (world st) ∨
                          (∃ f i, (∀ k, handler (f k) = handler k) ∧
                                  sockets w = alter f i (sockets (world st))) →
                          st' = switchToFallback cb (mkState w (this st)) →
                          ∃ k, sockets (world st) !! sid = Some k ∧ handler k = handler k').
  { intros cb w Hw ->.
    destruct (switchToFallback_sockets cb (mkState w (this st))) as [E|(s & E)];
      rewrite E in Hk'; cbn [world] in Hk'.
    - destruct Hw as [Hw|(f & i & Hf & Hw)]; rewrite Hw in Hk'; [eauto|].
      apply (alter_handler f i sid _ k' Hf Hk').
    - apply alter_handler in Hk' as (k1 & Hk1 & E1); [|reflexivity].
      destruct Hw as [Hw|(f & i & Hf & Hw)]; rewrite Hw in Hk1.
      + exists k1. split; assumption.
      + apply (alter_handler f i sid _ k1 Hf) in Hk1 as (k0 & Hk0 & E0).
        exists k0. split; [exact Hk0 | congruence]. }
  destruct e; unfold step in Hstep.
  - injection Hstep as <-. unfold connect in Hk'. destruct apiKey; [|left; eauto].
    cbn in Hk'. apply lookup_app_Some in Hk' as [Hk'|(_ & Hk')]; [left; eauto|].
    right. apply list_lookup_singleton_Some in Hk' as [_ <-]. reflexivity.
  - left. injection Hstep as <-. destruct st as [w s]. unfold disconnect in *.
    cbn [world this session intervalId setIsFallbackActive] in *.
    destruct (session s) as [sd|];
      destruct (truthyId (intervalId s)); cbn in Hk';
      try (apply alter_handler in Hk'; [exact Hk' | reflexivity]); eauto.
  - left. destruct (sockets (world st) !! sid0); [|discriminate].
    cbn [mbind option_bind] in Hstep. case_decide; [|discriminate].
    injection Hstep as <-. eapply Halt; [|reflexivity]. reflexivity.
  - left. destruct (sockets (world st) !! sid0) as [k|]; [|discriminate].
    cbn [mbind option_bind] in Hstep.
    destruct (bool_decide (sstate k = Open) && pending k); [|discriminate].
    injection Hstep as <-. eapply Halt; [|reflexivity]. reflexivity.
  - left. destruct (sockets (world st) !! sid0) as [k|]; [|discriminate].
    cbn [mbind option_bind] in Hstep.
    destruct (pending k); [|discriminate]. injection Hstep as Hst'.
    eapply Hfall; [|symmetry; exact Hst']. right.
    case_decide; cbn [setSocketState settle setSockets sockets].
    + rewrite list_alter_alter_eq. eexists _, _. split; [|reflexivity]. reflexivity.
    + eexists _, _. split; [|reflexivity]. reflexivity.
  - left. destruct (sockets (world st) !! sid0); [|discriminate].
    cbn [mbind option_bind] in Hstep. case_decide; [|discriminate].
    apply runHandler_effect in Hstep as (_ & _ & _ & Es & _). apply Hsame, Es.
  - left. destruct (sockets (world st) !! sid0) as [k|]; [|discriminate].
    cbn [mbind option_bind] in Hstep. injection Hstep as Hst'.
    eapply Hfall; [|symmetry; exact Hst']. right.
    eexists _, _. split; [|reflexivity]. reflexivity.
  - left. destruct (sockets (world st) !! sid0); [|discriminate].
    cbn [mbind option_bind] in Hstep. injection Hstep as <-.
    eapply Halt; [|reflexivity]. reflexivity.
  - left. destruct (timers (world st) !! id) as [t|]; [|discriminate].
    cbn [mbind option_bind] in Hstep.
    destruct (body t); injection Hstep as <-; apply Hsame.
    + unfold streamingTick. destruct (_ || _); reflexivity.
    + unfold pollingTick. destruct (_ || _); reflexivity.
  - left. destruct (pendingBlobs (world st)); [discriminate|].
    destruct (_ && _); injection Hstep as <-; apply Hsame; reflexivity.
  - left. destruct (pendingSends (world st)); [discriminate|].
    destruct (session (this st)); [destruct (bool_decide _)|];
      injection Hstep as <-; apply Hsame; reflexivity.
  - left. destruct (pendingPolls (world st) !! k) as [cb|]; [|discriminate].
    cbn [mbind option_bind] in Hstep.
    apply runHandler_effect in Hstep as (_ & _ & _ & Es & _). apply Hsame, Es.
  - left. destruct (pendingPolls (world st) !! k) as [cb|]; [|discriminate].
    cbn [mbind option_bind] in Hstep. injection Hstep as <-. apply Hsame. reflexivity.
Qed.

Lemma run_handlers (es : list Event) (st st' : State) (sid : nat) (k' : Socket) :
  run es st = Some st' → sockets (world st') !! sid = Some k' →
  (∃ k, sockets (world st) !! sid = Some k ∧ handler k = handler k') ∨
  In (Connect true (handler k')) es.
Proof.
  revert st. induction es as [|e es IH]; intros st Hrun Hk'; simpl in Hrun.
  - injection Hrun as <-. left. eauto.
  - destruct (step e st) as [st1|] eqn:E; [|discriminate]. simpl in Hrun.
    destruct (IH st1 Hrun Hk') as [(k1 & Hk1 & E1)|Hin]; [|right; right; exact Hin].
    destruct (step_handlers e st st1 sid k1 E Hk1) as [(k & Hk & E0)| ->].
    + left. exists k. split; [exact Hk | congruence].
    + right. left. rewrite E1. reflexivity.
Qed.

End ServiceProperties.

Section FallbackProperties.

Import Js GeminiLiveService.

Lemma deliver_cases (cb : Callback) (v : JSValue) (log : list (Callback * GestureData)) :
  deliver cb v log = (Throw, log) ∨
  ∃ gd, deliver cb v log = (Ok tt, log ++ [(cb, gd)]).
Proof. destruct v; [left; reflexivity | right; eexists; reflexivity ..]. Qed.

(** The polling continuation never throws and only ever invokes the
    callback it was created with. *)
Lemma onPollResponse_log (cb : Callback) (text : option jsstring)
      (log : list (Callback * GestureData)) :
  ∃ out, onPollResponse cb text log = (Ok tt, log ++ out) ∧
         ∀ c g, (c, g) ∈ out → c = cb.
Proof.
  assert (Hnil : ∃ out, (Ok tt, log) = (Ok tt, log ++ out) ∧
                        ∀ (c : Callback) (g : GestureData), (c, g) ∈ out → c = cb).
  { exists []. rewrite app_nil_r. split; [reflexivity|].
    intros c g H. apply elem_of_nil in H. destruct H. }
  destruct text as [text|]; [|exact Hnil].
  rewrite onPollResponse_cases. destruct text as [|u text]; [exact Hnil|].
  destruct (JSON_parse (u :: text)) as [v|]; [|exact Hnil].
  destruct (deliver_cases cb v log) as [E|(gd & E)].
  - destruct v; try exact Hnil; discriminate E.
  - assert (Hout : ∃ out, deliver cb v log = (Ok tt, log ++ out) ∧
                          ∀ (c : Callback) (g : GestureData), (c, g) ∈ out → c = cb).
    { exists [(cb, gd)]. split; [exact E|].
      intros c g H. apply list_elem_of_singleton in H. congruence. }
    destruct v; try exact Hout. exact Hnil.
Qed.

Lemma switchToFallback_flag (cb : Callback) (st : State) :
  isFallbackActive (this (switchToFallback cb st)) = true.
Proof.
  destruct st as [w s]. unfold switchToFallback, cancelInterval, dropSession,
    startPollingFallback. cbn [this world isFallbackActive].
  destruct (isFallbackActive s) eqn:E; [exact E|].
  cbn [this world intervalId setIsFallbackActive].
  destruct (truthyId (intervalId s)); cbn [this world session setIntervalId setIsFallbackActive];
    destruct (session s); reflexivity.
Qed.

Lemma pollingTick_sends (cb : Callback) (v : Video) (st : State) :
  ai (this st) = true → ctx (this st) = true → videoWidth v ≠ 0%N →
  sent (world (pollingTick cb v st))
  = sent (world st) ++ [GenerateContent "gemini-2.5-flash" (capture v 0.6)] ∧
  pendingPolls (world (pollingTick cb v st)) = pendingPolls (world st) ++ [cb] ∧
  timers (world (pollingTick cb v st)) = timers (world st) ∧
  calls (world (pollingTick cb v st)) = calls (world st) ∧
  this (pollingTick cb v st) = this st.
Proof.
  intros Hai Hctx Hw. unfold pollingTick. rewrite Hai, Hctx.
  destruct (N.eqb (videoWidth v) 0) eqn:E.
  - exfalso. apply Hw. apply N.eqb_eq, E.
  - simpl. split_and!; reflexivity.
Qed.

End FallbackProperties.

Section DowngradeProperties.

Import Js GeminiLiveService.

(** What [switchToFallback] does when the fallback is not yet active, in
    any state of the service. *)
Lemma switchToFallback_spec (cb : Callback) (st : State) :
  isFallbackActive (this st) = false →
  let st' := switchToFallback cb st in
  timers (world st')
  = <[nextTimer (world st) := mkTimer (PollingTick cb) 1500]>
      (match truthyId (intervalId (this st)) with
       | Some id => delete id (timers (world st))
       | None => timers (world st)
       end) ∧
  nextTimer (world st') = Datatypes.S (nextTimer (world st)) ∧
  intervalId (this st') = Some (nextTimer (world st)) ∧
  session (this st') = None ∧
  isFallbackActive (this st') = true ∧
  ai (this st') = ai (this st) ∧
  ctx (this st') = ctx (this st) ∧
  sent (world st') = sent (world st) ∧
  calls (world st') = calls (world st) ∧
  pendingPolls (world st') = pendingPolls (world st) ∧
  closeCalls (world st')
  = closeCalls (world st) ++ match session (this st) with
                             | Some s => [s]
                             | None => []
                             end ∧
  sockets (world st')
  = match session (this st) with
    | Some sid => alter (fun k => mkSocket Closed (pending k) (handler k)) sid
                        (sockets (world st))
    | None => sockets (world st)
    end.
Proof.
  destruct st as [w s]. cbn [this world]. intros Hfb. cbv zeta.
  unfold switchToFallback, cancelInterval, dropSession, startPollingFallback.
  cbn [this world isFallbackActive]. rewrite Hfb.
  cbn [this world intervalId setIsFallbackActive].
  destruct (truthyId (intervalId s));
    cbn [this world session setIntervalId setIsFallbackActive];
    destruct (session s) eqn:Es; simpl; rewrite ?app_nil_r, ?Es; split_and!; reflexivity.
Qed.

Lemma disconnect_spec (st : State) :
  timers (world (disconnect st))
  = match truthyId (intervalId (this st)) with
    | Some id => delete id (timers (world st))
    | None => timers (world st)
    end ∧
  nextTimer (world (disconnect st)) = nextTimer (world st) ∧
  intervalId (this (disconnect st)) = intervalId (this st).
Proof.
  destruct st as [w s]. unfold disconnect.
  cbn [this world intervalId session setIsFallbackActive].
  destruct (truthyId (intervalId s)); destruct (session s); simpl;
    split_and!; reflexivity.
Qed.

(** ** Interval ids are fresh in every reachable state *)

Lemma quiet_fresh (st st' : State) :
  fresh st →
  timers (world st') = timers (world st) →
  nextTimer (world st') = nextTimer (world st) →
  intervalId (this st') = intervalId (this st) →
  fresh st'.
Proof.
  intros (H0 & H1 & H2) Et En Ei. unfold fresh. rewrite Et, En, Ei.
  split_and!; assumption.
Qed.

Lemma cleared_lookup (o : option nat) (m : gmap nat Timer) (id : nat) (t : Timer) :
  match o with
  | Some id0 => delete id0 m
  | None => m
  end !! id = Some t →
  m !! id = Some t ∧ o ≠ Some id.
Proof.
  destruct o as [id0|]; intros H.
  - apply lookup_delete_Some in H as [Hne H]. split; [exact H | congruence].
  - split; [exact H | discriminate].
Qed.

Lemma switchToFallback_fresh (cb : Callback) (st : State) :
  fresh st → fresh (switchToFallback cb st).
Proof.
  intros Hf. destruct (isFallbackActive (this st)) eqn:Hfb.
  - rewrite switchToFallback_active by exact Hfb. exact Hf.
  - destruct (switchToFallback_spec cb st Hfb) as (Et & En & Ei & _).
    destruct Hf as (H0 & H1 & H2). unfold fresh. rewrite Et, En, Ei. split_and!.
    + lia.
    + intros id [= <-]. lia.
    + intros id t Hl. apply lookup_insert_Some in Hl as [[<- _]|[_ Hl]]; [lia|].
      apply cleared_lookup in Hl as [Hl _]. apply H2 in Hl. lia.
Qed.

Lemma step_fresh (e : Event) (st st' : State) :
  step e st = Some st' → fresh st → fresh st'.
Proof.
  intros Hstep Hf. destruct e; unfold step in Hstep.
  - injection Hstep as <-. unfold connect. destruct apiKey; [|exact Hf].
    apply (quiet_fresh st); [exact Hf | reflexivity ..].
  - injection Hstep as <-.
    destruct (disconnect_spec st) as (Et & En & Ei).
    destruct Hf as (H0 & H1 & H2). unfold fresh. rewrite Et, En, Ei.
    split_and!; [assumption | assumption |].
    intros id t Hl. apply cleared_lookup in Hl as [Hl _]. apply (H2 _ _ Hl).
  - destruct (sockets (world st) !! sid) as [k|]; [|discriminate].
    cbn [mbind option_bind] in Hstep. case_decide; [|discriminate].
    injection Hstep as <-. destruct Hf as (H0 & H1 & H2).
    unfold fresh, startStreamingLive, setInterval, setSocketState. cbn. split_and!.
    + lia.
    + intros id [= <-]. lia.
    + intros id t Hl. apply lookup_insert_Some in Hl as [[<- _]|[_ Hl]]; [lia|].
      apply H2 in Hl. lia.
  - destruct (sockets (world st) !! sid) as [k|]; [|discriminate].
    cbn [mbind option_bind] in Hstep.
    destruct (bool_decide (sstate k = Open) && pending k); [|discriminate].
    injection Hstep as <-. apply (quiet_fresh st); [exact Hf | reflexivity ..].
  - destruct (sockets (world st) !! sid) as [k|]; [|discriminate].
    cbn [mbind option_bind] in Hstep.
    destruct (pending k); [|discriminate]. injection Hstep as <-.
    apply switchToFallback_fresh.
    apply (quiet_fresh st); [exact Hf | case_decide; reflexivity ..].
  - destruct (sockets (world st) !! sid) as [k|]; [|discriminate].
    cbn [mbind option_bind] in Hstep. case_decide; [|discriminate].
    apply runHandler_effect in Hstep as (Eth & Et & En & _).
    apply (quiet_fresh st); [exact Hf | congruence ..].
  - destruct (sockets (world st) !! sid) as [k|]; [|discriminate].
    cbn [mbind option_bind] in Hstep. injection Hstep as <-.
    apply switchToFallback_fresh.
    apply (quiet_fresh st); [exact Hf | reflexivity ..].
  - destruct (sockets (world st) !! sid) as [k|]; [|discriminate].
    cbn [mbind option_bind] in Hstep. injection Hstep as <-.
    apply (quiet_fresh st); [exact Hf | reflexivity ..].
  - destruct (timers (world st) !! id) as [t|]; [|discriminate].
    cbn [mbind option_bind] in Hstep.
    destruct (body t); injection Hstep as <-.
    + unfold streamingTick. destruct (_ || _); [exact Hf|].
      apply (quiet_fresh st); [exact Hf | reflexivity ..].
    + unfold pollingTick. destruct (_ || _); [exact Hf|].
      apply (quiet_fresh st); [exact Hf | reflexivity ..].
  - destruct (pendingBlobs (world st)); [discriminate|].
    destruct (_ && _); injection Hstep as <-;
      (apply (quiet_fresh st); [exact Hf | reflexivity ..]).
  - destruct (pendingSends (world st)); [discriminate|].
    destruct (session (this st)); [destruct (bool_decide _)|];
      injection Hstep as <-; (apply (quiet_fresh st); [exact Hf | reflexivity ..]).
  - destruct (pendingPolls (world st) !! k) as [cb|]; [|discriminate].
    cbn [mbind option_bind] in Hstep.
    apply runHandler_effect in Hstep as (Eth & Et & En & _).
    cbn in Eth, Et, En. apply (quiet_fresh st); [exact Hf | congruence ..].
  - destruct (pendingPolls (world st) !! k) as [cb|]; [|discriminate].
    cbn [mbind option_bind] in Hstep. injection Hstep as <-.
    apply (quiet_fresh st); [exact Hf | reflexivity ..].
Qed.

Lemma initial_fresh (hasCtx : bool) : fresh (initial hasCtx).
Proof.
  unfold fresh, initial; cbn. split_and!; [lia | discriminate |].
  intros id t H. rewrite lookup_empty in H. discriminate.
Qed.

Lemma run_snoc (es : list Event) (e : Event) (st st1 st2 : State) :
  run es st = Some st1 → step e st1 = Some st2 → run (es ++ [e]) st = Some st2.
Proof.
  revert st. induction es as [|e0 es IH]; intros st Hrun Hstep; simpl in *.
  - injection Hrun as ->. rewrite Hstep. reflexivity.
  - destruct (step e0 st) as [st0|]; [|discriminate]. simpl in *.
    apply (IH st0 Hrun Hstep).
Qed.

(** In every state that the service reaches, whatever the application
    calls, the interval ids are fresh. *)
Lemma run_fresh_from (es : list Event) (st st' : State) :
  run es st = Some st' → fresh st → fresh st'.
Proof.
  revert st. induction es as [|e es IH]; intros st Hrun Hf; simpl in Hrun.
  - injection Hrun as <-. exact Hf.
  - destruct (step e st) as [st1|] eqn:E; [|discriminate]. simpl in Hrun.
    apply (IH st1 Hrun), (step_fresh e st st1 E Hf).
Qed.

(** ** The polling loop keeps running while the application leaves the
       service alone *)

Lemma quiet_pollingLoop (pid : nat) (cb : Callback) (st st' : State) :
  pollingLoop pid cb st →
  timers (world st') = timers (world st) →
  nextTimer (world st') = nextTimer (world st) →
  isFallbackActive (this st') = isFallbackActive (this st) →
  pollingLoop pid cb st'.
Proof.
  intros (H0 & H1 & H2) Et En Ef. unfold pollingLoop. rewrite Et, En, Ef.
  split_and!; assumption.
Qed.

Lemma step_pollingLoop (e : Event) (st st' : State) (pid : nat) (cb : Callback) :
  step e st = Some st' → leftAlone e → pollingLoop pid cb st →
  pollingLoop pid cb st' ∧
  ai (this st') = ai (this st) ∧ ctx (this st') = ctx (this st).
Proof.
  intros Hstep [Hnd Hnc] Hp.
  assert (Hflag : ∀ w, isFallbackActive (this (mkState w (this st))) = true)
    by (intros w; apply Hp).
  destruct e; unfold step in Hstep.
  - injection Hstep as <-. unfold connect. destruct apiKey.
    + exfalso. apply (Hnc onData). reflexivity.
    + split; [exact Hp | split; reflexivity].
  - exfalso. apply Hnd. reflexivity.
  - destruct (sockets (world st) !! sid) as [k|]; [|discriminate].
    cbn [mbind option_bind] in Hstep. case_decide; [|discriminate].
    injection Hstep as <-. destruct Hp as (H0 & H1 & H2).
    unfold pollingLoop, startStreamingLive, setInterval, setSocketState. cbn.
    split; [|split; reflexivity]. split_and!.
    + rewrite lookup_insert_ne by lia. exact H0.
    + exact H1.
    + lia.
  - destruct (sockets (world st) !! sid) as [k|]; [|discriminate].
    cbn [mbind option_bind] in Hstep.
    destruct (bool_decide (sstate k = Open) && pending k); [|discriminate].
    injection Hstep as <-.
    split; [apply (quiet_pollingLoop pid cb st); [exact Hp | reflexivity ..]
           | split; reflexivity].
  - destruct (sockets (world st) !! sid) as [k|]; [|discriminate].
    cbn [mbind option_bind] in Hstep.
    destruct (pending k); [|discriminate]. injection Hstep as <-.
    rewrite switchToFallback_active by apply Hflag.
    split; [apply (quiet_pollingLoop pid cb st); [exact Hp | case_decide; reflexivity ..]
           | split; reflexivity].
  - destruct (sockets (world st) !! sid) as [k|]; [|discriminate].
    cbn [mbind option_bind] in Hstep. case_decide; [|discriminate].
    apply runHandler_effect in Hstep as (Eth & Et & En & _).
    split; [apply (quiet_pollingLoop pid cb st); [exact Hp | congruence ..]
           | rewrite Eth; split; reflexivity].
  - destruct (sockets (world st) !! sid) as [k|]; [|discriminate].
    cbn [mbind option_bind] in Hstep. injection Hstep as <-.
    rewrite switchToFallback_active by apply Hflag.
    split; [apply (quiet_pollingLoop pid cb st); [exact Hp | reflexivity ..]
           | split; reflexivity].
  - destruct (sockets (world st) !! sid) as [k|]; [|discriminate].
    cbn [mbind option_bind] in Hstep. injection Hstep as <-.
    split; [apply (quiet_pollingLoop pid cb st); [exact Hp | reflexivity ..]
           | split; reflexivity].
  - destruct (timers (world st) !! id) as [t|]; [|discriminate].
    cbn [mbind option_bind] in Hstep.
    destruct (body t); injection Hstep as <-.
    + unfold streamingTick. destruct (_ || _); [split; [exact Hp | split; reflexivity]|].
      split; [apply (quiet_pollingLoop pid cb st); [exact Hp | reflexivity ..]
             | split; reflexivity].
    + unfold pollingTick. destruct (_ || _); [split; [exact Hp | split; reflexivity]|].
      split; [apply (quiet_pollingLoop pid cb st); [exact Hp | reflexivity ..]
             | split; reflexivity].
  - destruct (pendingBlobs (world st)); [discriminate|].
    destruct (_ && _); injection Hstep as <-;
      (split; [apply (quiet_pollingLoop pid cb st); [exact Hp | reflexivity ..]
              | split; reflexivity]).
  - destruct (pendingSends (world st)); [discriminate|].
    destruct (session (this st)); [destruct (bool_decide _)|];
      injection Hstep as <-;
      (split; [apply (quiet_pollingLoop pid cb st); [exact Hp | reflexivity ..]
              | split; reflexivity]).
  - destruct (pendingPolls (world st) !! k) as [cb'|]; [|discriminate].
    cbn [mbind option_bind] in Hstep.
    apply runHandler_effect in Hstep as (Eth & Et & En & _).
    cbn in Eth, Et, En.
    split; [apply (quiet_pollingLoop pid cb st); [exact Hp | congruence ..]
           | rewrite Eth; split; reflexivity].
  - destruct (pendingPolls (world st) !! k) as [cb'|]; [|discriminate].
    cbn [mbind option_bind] in Hstep. injection Hstep as <-.
    split; [apply (quiet_pollingLoop pid cb st); [exact Hp | reflexivity ..]
           | split; reflexivity].
Qed.

Lemma run_pollingLoop (es : list Event) (st st' : State) (pid : nat) (cb : Callback) :
  run es st = Some st' → Forall leftAlone es → pollingLoop pid cb st →
  pollingLoop pid cb st' ∧
  ai (this st') = ai (this st) ∧ ctx (this st') = ctx (this st).
Proof.
  revert st. induction es as [|e es IH]; intros st Hrun Hes Hp; simpl in Hrun.
  - injection Hrun as <-. split; [exact Hp | split; reflexivity].
  - destruct (step e st) as [st1|] eqn:E; [|discriminate]. simpl in Hrun.
    apply Forall_cons in Hes as [He Hes].
    destruct (step_pollingLoop e st st1 pid cb E He Hp) as (Hp1 & Ea1 & Ec1).
    destruct (IH st1 Hrun Hes Hp1) as (Hp' & Ea & Ec).
    split; [exact Hp' | split; congruence].
Qed.

(** A firing of the polling interval: one request with the captured frame
    when the client, the 2D context and the video width are there, and
    nothing at all otherwise. *)
Lemma pollingTick_idle (cb : Callback) (v : Video) (st : State) :
  ai (this st) = false ∨ ctx (this st) = false ∨ videoWidth v = 0%N →
  pollingTick cb v st = st.
Proof.
  intros H. unfold pollingTick.
  destruct H as [-> | [-> | ->]]; [reflexivity | |].
  - rewrite orb_true_r. reflexivity.
  - rewrite orb_true_r. reflexivity.
Qed.

(** What the polling continuation forwards. *)
Lemma onPollResponse_forwards (cb : Callback) (text : option jsstring)
      (log : list (Callback * GestureData)) :
  ∃ out,
    onPollResponse cb text log = (Ok tt, log ++ out) ∧
    (∀ t fields, text = Some t → t ≠ [] → JSON_parse t = Ok (JObject fields) →
       out = [(cb, {| state := if isChaosString (lookupField (str "state") fields)
                               then CHAOS else FORMED;
                      handX := numberOr0 (lookupField (str "x") fields);
                      handY := numberOr0 (lookupField (str "y") fields) |})]) ∧
    (text = None ∨ text = Some [] → out = []) ∧
    (∀ t, text = Some t → JSON_parse t = Throw → out = []) ∧
    (∀ c g, (c, g) ∈ out → c = cb).
Proof.
  assert (Hno : ∀ (c : Callback) (g : GestureData), (c, g) ∈ @nil (Callback * GestureData) → c = cb)
    by (intros c g H; apply elem_of_nil in H; destruct H).
  destruct text as [text|].
  2:{ exists []. rewrite app_nil_r. split; [reflexivity|].
      split_and!; try reflexivity; try exact Hno; intros; discriminate. }
  rewrite onPollResponse_cases. destruct text as [|u text].
  { exists []. rewrite app_nil_r. split; [reflexivity|].
    split_and!; try reflexivity; try exact Hno.
    intros t fields [= <-] H. congruence. }
  destruct (JSON_parse (u :: text)) as [v|] eqn:Ep.
  2:{ exists []. rewrite app_nil_r. split; [reflexivity|].
      split_and!; try reflexivity; try exact Hno.
      intros t fields [= <-] _ H. congruence. }
  destruct (deliver_cases cb v log) as [E|(gd & E)].
  - assert (v = JNull) by (destruct v; try discriminate E; reflexivity). subst v.
    exists []. rewrite app_nil_r. split; [reflexivity|].
    split_and!; try reflexivity; try exact Hno.
    + intros t fields [= <-] _ H. congruence.
  - assert (Hd : match v with
                 | JNull => (Ok tt, log)
                 | _ => deliver cb v log
                 end = deliver cb v log)
      by (destruct v; try reflexivity; discriminate E).
    exists [(cb, gd)]. split.
    { transitivity (deliver cb v log); [|exact E]. destruct v; try reflexivity.
      discriminate E. }
    split_and!.
    + intros t fields [= <-] _ H. rewrite Ep in H. injection H as ->.
      rewrite deliver_object in E. injection E as E.
      apply app_inv_head in E. symmetry. exact E.
    + intros [H|H]; discriminate H.
    + intros t [= <-] H. congruence.
    + intros c g H. apply list_elem_of_singleton in H. congruence.
Qed.

End DowngradeProperties.

(** C7 (a defect of the code): the claim that at most one interval timer
    is active at every point of the service's lifetime fails when
    [connect] is called a second time.  Two calls of [connect] whose
    connections both open leave two streaming intervals active, because
    [startStreamingLive] overwrites [this.intervalId] without clearing the
    interval it held (as [switchToFallback] does before it starts the
    polling interval); [this.intervalId] then names the second interval
    only, and [disconnect] cancels that one and leaves the first running. *)
Theorem C7_second_connect_leaks_timer :
  ∃ st,
    GeminiLiveService.run
      [GeminiLiveService.Connect true 5; GeminiLiveService.Connect true 5;
       GeminiLiveService.LiveOpen 0; GeminiLiveService.LiveOpen 1]
      (GeminiLiveService.initial true) = Some st ∧
    size (GeminiLiveService.timers (GeminiLiveService.world st)) = 2%nat ∧
    GeminiLiveService.timers (GeminiLiveService.world st) !! 1%nat
    = Some (GeminiLiveService.mkTimer (GeminiLiveService.StreamingTick 5) 800) ∧
    GeminiLiveService.timers (GeminiLiveService.world st) !! 2%nat
    = Some (GeminiLiveService.mkTimer (GeminiLiveService.StreamingTick 5) 800) ∧
    GeminiLiveService.intervalId (GeminiLiveService.this st) = Some 2%nat ∧
    GeminiLiveService.timers
      (GeminiLiveService.world (GeminiLiveService.disconnect st)) !! 1%nat
    = Some (GeminiLiveService.mkTimer (GeminiLiveService.StreamingTick 5) 800) ∧
    size (GeminiLiveService.timers
            (GeminiLiveService.world (GeminiLiveService.disconnect st))) = 1%nat.
Proof.
  eexists. split; [vm_compute; reflexivity|].
  vm_compute. split_and!; reflexivity.
Qed.

(** X15: in a lifetime with at most one call of [connect], at every point
    (after every sequence of events) at most one interval timer is active,
    and it is the one whose id is in [this.intervalId].
    Switching to fallback first cancels the running timer and drops the
    session (closing it), and only then starts the polling timer, which is
    then the only one; a second [switchToFallback] while the fallback is
    active changes nothing, so a second error starts no second polling
    loop; [disconnect] cancels whichever timer is running and sets the
    session and the client to [null]. *)
Theorem X15_single_connect_one_timer
        (hasCtx : bool) (es : list GeminiLiveService.Event)
        (st : GeminiLiveService.State)
        (Hrun : GeminiLiveService.run es (GeminiLiveService.initial hasCtx) = Some st)
        (Honce : GeminiLiveService.connectedOnce st) :
  (size (GeminiLiveService.timers (GeminiLiveService.world st)) ≤ 1)%nat ∧
  (∀ id t,
     GeminiLiveService.timers (GeminiLiveService.world st) !! id = Some t →
     GeminiLiveService.intervalId (GeminiLiveService.this st) = Some id) ∧
  (∀ cb,
     GeminiLiveService.isFallbackActive (GeminiLiveService.this st) = false →
     let st1 := GeminiLiveService.cancelInterval
                  (GeminiLiveService.mkState
                     (GeminiLiveService.world st)
                     (GeminiLiveService.setIsFallbackActive true
                        (GeminiLiveService.this st))) in
     let st2 := GeminiLiveService.dropSession st1 in
     GeminiLiveService.switchToFallback cb st
     = GeminiLiveService.startPollingFallback cb st2 ∧
     GeminiLiveService.timers (GeminiLiveService.world st2) = ∅ ∧
     GeminiLiveService.session (GeminiLiveService.this st2) = None ∧
     (∀ sid k,
        GeminiLiveService.session (GeminiLiveService.this st) = Some sid →
        GeminiLiveService.sockets (GeminiLiveService.world st2) !! sid = Some k →
        GeminiLiveService.sstate k = GeminiLiveService.Closed) ∧
     GeminiLiveService.timers
       (GeminiLiveService.world (GeminiLiveService.switchToFallback cb st))
     = {[GeminiLiveService.nextTimer (GeminiLiveService.world st)
         := GeminiLiveService.mkTimer (GeminiLiveService.PollingTick cb) 1500]}) ∧
  (∀ cb,
     GeminiLiveService.isFallbackActive (GeminiLiveService.this st) = true →
     GeminiLiveService.switchToFallback cb st = st) ∧
  (∀ sid st1 st2,
     GeminiLiveService.step (GeminiLiveService.LiveError sid) st = Some st1 →
     GeminiLiveService.step (GeminiLiveService.LiveError sid) st1 = Some st2 →
     GeminiLiveService.timers (GeminiLiveService.world st2)
     = GeminiLiveService.timers (GeminiLiveService.world st1) ∧
     GeminiLiveService.this st2 = GeminiLiveService.this st1) ∧
  GeminiLiveService.timers (GeminiLiveService.world (GeminiLiveService.disconnect st)) = ∅ ∧
  GeminiLiveService.session (GeminiLiveService.this (GeminiLiveService.disconnect st)) = None ∧
  GeminiLiveService.ai (GeminiLiveService.this (GeminiLiveService.disconnect st)) = false.
Proof.
  pose proof (run_tracked hasCtx es st Hrun Honce) as Htr.
  split; [apply tracked_size, Htr|].
  split; [apply Htr|].
  split; [|split; [intros cb H; apply switchToFallback_active, H|split]].
  - intros cb Hfb st1 st2.
    assert (Htr1 : GeminiLiveService.tracked
                     (GeminiLiveService.mkState
                        (GeminiLiveService.world st)
                        (GeminiLiveService.setIsFallbackActive true
                           (GeminiLiveService.this st)))) by exact Htr.
    destruct (cancelInterval_effect _ Htr1) as (Et & _ & _ & _ & _ & _ & Es & _).
    fold st1 in Et, Es. cbn in Es.
    split; [unfold GeminiLiveService.switchToFallback; rewrite Hfb; reflexivity|].
    split; [|split; [|split]].
    + unfold st2, GeminiLiveService.dropSession.
      destruct (GeminiLiveService.session (GeminiLiveService.this st1)); exact Et.
    + unfold st2, GeminiLiveService.dropSession.
      destruct (GeminiLiveService.session (GeminiLiveService.this st1)) eqn:E;
        [reflexivity | exact E].
    + intros sid k Hs Hk. unfold st2, GeminiLiveService.dropSession in Hk.
      rewrite Es, Hs in Hk. cbn in Hk.
      rewrite list_lookup_alter_eq in Hk.
      destruct (_ !! sid); [|discriminate]. injection Hk as <-. reflexivity.
    + apply (switchToFallback_effect cb st Htr Hfb).
  - intros sid st1 st2 H1 H2. unfold GeminiLiveService.step in H1, H2.
    destruct (GeminiLiveService.sockets (GeminiLiveService.world st) !! sid)
      as [k|]; [|discriminate].
    cbn [mbind option_bind] in H1. injection H1 as H1.
    assert (Hact : GeminiLiveService.isFallbackActive (GeminiLiveService.this st1) = true).
    { rewrite <- H1. apply switchToFallback_flag. }
    destruct (GeminiLiveService.sockets (GeminiLiveService.world st1) !! sid)
      as [k1|]; [|discriminate].
    cbn [mbind option_bind] in H2. injection H2 as <-.
    rewrite switchToFallback_active by exact Hact. split; reflexivity.
  - destruct (disconnect_effect st Htr) as (Et & _ & _ & Es & Ea & _).
    split; [exact Et|]. split; [exact Es | exact Ea].
Qed.

Lemma X15_single_connect_one_timer_witness :
  ∃ st,
    GeminiLiveService.run
      [GeminiLiveService.Connect true 5; GeminiLiveService.LiveOpen 0;
       GeminiLiveService.LiveResolve 0; GeminiLiveService.LiveError 0;
       GeminiLiveService.LiveError 0]
      (GeminiLiveService.initial true) = Some st ∧
    (size (GeminiLiveService.timers (GeminiLiveService.world st)) ≤ 1)%nat.
Proof.
  eexists. split; [vm_compute; reflexivity|].
  refine (proj1 (X15_single_connect_one_timer true
                   [GeminiLiveService.Connect true 5; GeminiLiveService.LiveOpen 0;
                    GeminiLiveService.LiveResolve 0; GeminiLiveService.LiveError 0;
                    GeminiLiveService.LiveError 0] _ _ _)).
  - vm_compute. reflexivity.
  - unfold GeminiLiveService.connectedOnce. vm_compute. lia.
Defined.

(** C3: when the live connection fails to open (the awaited [connect]
    rejects) or a session reports an error, and the fallback is not yet
    active, the service downgrades to polling, in every lifetime of the
    service.  [switchToFallback] calls [close()] on the session the service
    holds (and on nothing else) and drops it, cancels the interval named by
    [this.intervalId], and starts a polling interval with a delay of
    1500 ms for the callback that was handed to [connect]; no other
    interval is started or cancelled, and with a single [connect] the
    polling interval is then the only one.  From then on, for as long as
    the application calls neither [disconnect] nor [connect], that interval
    stays active, and every firing of it sends exactly one request,
    [generateContent] with the frame captured at a quarter of the video
    size (fractions dropped), provided the client, the 2D context and the
    video width are there (it does nothing otherwise).  When the response
    arrives its text is parsed, and for a JSON object the gesture read from
    its [state], [x] and [y] members is passed to that same callback; an
    absent or empty text and a text that does not parse pass nothing. *)
Theorem C3_fallback_to_polling
        (hasCtx : bool) (es : list GeminiLiveService.Event)
        (st : GeminiLiveService.State) (e : GeminiLiveService.Event)
        (sid : nat) (k : GeminiLiveService.Socket)
        (Hrun : GeminiLiveService.run es (GeminiLiveService.initial hasCtx) = Some st)
        (Hk : GeminiLiveService.sockets (GeminiLiveService.world st) !! sid = Some k)
        (He : e = GeminiLiveService.LiveError sid ∨
              (e = GeminiLiveService.LiveReject sid ∧ GeminiLiveService.pending k = true))
        (Hfb : GeminiLiveService.isFallbackActive (GeminiLiveService.this st) = false) :
  let pid := GeminiLiveService.nextTimer (GeminiLiveService.world st) in
  let cb := GeminiLiveService.handler k in
  let polling := GeminiLiveService.mkTimer (GeminiLiveService.PollingTick cb) 1500 in
  let gesture fields :=
    {| state := if Js.isChaosString (Js.lookupField (Js.str "state") fields)
                then CHAOS else FORMED;
       handX := Js.numberOr0 (Js.lookupField (Js.str "x") fields);
       handY := Js.numberOr0 (Js.lookupField (Js.str "y") fields) |} in
  In (GeminiLiveService.Connect true cb) es ∧
  ∃ st',
    GeminiLiveService.step e st = Some st' ∧
    GeminiLiveService.isFallbackActive (GeminiLiveService.this st') = true ∧
    (* the session is closed and dropped *)
    GeminiLiveService.closeCalls (GeminiLiveService.world st')
    = GeminiLiveService.closeCalls (GeminiLiveService.world st)
      ++ match GeminiLiveService.session (GeminiLiveService.this st) with
         | Some s => [s]
         | None => []
         end ∧
    (∀ s k', GeminiLiveService.session (GeminiLiveService.this st) = Some s →
             GeminiLiveService.sockets (GeminiLiveService.world st') !! s = Some k' →
             GeminiLiveService.sstate k' = GeminiLiveService.Closed) ∧
    GeminiLiveService.session (GeminiLiveService.this st') = None ∧
    (* the interval of the service is cancelled *)
    (∀ id, GeminiLiveService.intervalId (GeminiLiveService.this st) = Some id →
           GeminiLiveService.timers (GeminiLiveService.world st') !! id = None) ∧
    (* the polling interval is started, and nothing else changes *)
    GeminiLiveService.intervalId (GeminiLiveService.this st') = Some pid ∧
    GeminiLiveService.timers (GeminiLiveService.world st) !! pid = None ∧
    GeminiLiveService.timers (GeminiLiveService.world st') !! pid = Some polling ∧
    (∀ id t, id ≠ pid →
       GeminiLiveService.timers (GeminiLiveService.world st') !! id = Some t →
       GeminiLiveService.timers (GeminiLiveService.world st) !! id = Some t ∧
       GeminiLiveService.intervalId (GeminiLiveService.this st) ≠ Some id) ∧
    (∀ id t, GeminiLiveService.timers (GeminiLiveService.world st) !! id = Some t →
       GeminiLiveService.intervalId (GeminiLiveService.this st) ≠ Some id →
       GeminiLiveService.timers (GeminiLiveService.world st') !! id = Some t) ∧
    (GeminiLiveService.connectedOnce st →
     GeminiLiveService.timers (GeminiLiveService.world st') = {[pid := polling]}) ∧
    GeminiLiveService.sent (GeminiLiveService.world st')
    = GeminiLiveService.sent (GeminiLiveService.world st) ∧
    GeminiLiveService.calls (GeminiLiveService.world st')
    = GeminiLiveService.calls (GeminiLiveService.world st) ∧
    (* every later firing of the polling interval *)
    ∀ es2 st2,
      Forall GeminiLiveService.leftAlone es2 →
      GeminiLiveService.run es2 st' = Some st2 →
      GeminiLiveService.timers (GeminiLiveService.world st2) !! pid = Some polling ∧
      ∀ v,
        (GeminiLiveService.ai (GeminiLiveService.this st) = false ∨
         GeminiLiveService.ctx (GeminiLiveService.this st) = false ∨
         GeminiLiveService.videoWidth v = 0%N →
         GeminiLiveService.step (GeminiLiveService.Tick pid v) st2 = Some st2) ∧
        (GeminiLiveService.ai (GeminiLiveService.this st) = true →
         GeminiLiveService.ctx (GeminiLiveService.this st) = true →
         GeminiLiveService.videoWidth v ≠ 0%N →
         ∃ st3,
           GeminiLiveService.step (GeminiLiveService.Tick pid v) st2 = Some st3 ∧
           GeminiLiveService.sent (GeminiLiveService.world st3)
           = GeminiLiveService.sent (GeminiLiveService.world st2)
             ++ [GeminiLiveService.GenerateContent "gemini-2.5-flash"
                   (GeminiLiveService.mkCapture
                      (GeminiLiveService.videoWidth v / 4)%N
                      (GeminiLiveService.videoHeight v / 4)%N
                      (GeminiLiveService.picture v) 0.6)] ∧
           GeminiLiveService.timers (GeminiLiveService.world st3)
           = GeminiLiveService.timers (GeminiLiveService.world st2) ∧
           GeminiLiveService.calls (GeminiLiveService.world st3)
           = GeminiLiveService.calls (GeminiLiveService.world st2) ∧
           ∀ text,
             ∃ st4 out,
               GeminiLiveService.step
                 (GeminiLiveService.PollResolve
                    (length (GeminiLiveService.pendingPolls (GeminiLiveService.world st2)))
                    text) st3 = Some st4 ∧
               GeminiLiveService.sent (GeminiLiveService.world st4)
               = GeminiLiveService.sent (GeminiLiveService.world st3) ∧
               GeminiLiveService.calls (GeminiLiveService.world st4)
               = GeminiLiveService.calls (GeminiLiveService.world st3) ++ out ∧
               (∀ t fields, text = Some t → t ≠ [] →
                  Js.JSON_parse t = Js.Ok (Js.JObject fields) →
                  out = [(cb, gesture fields)]) ∧
               (text = None ∨ text = Some [] → out = []) ∧
               (∀ t, text = Some t → Js.JSON_parse t = Js.Throw → out = []) ∧
               (∀ c g, (c, g) ∈ out → c = cb)).
Proof.
  intros pid cb polling gesture.
  pose proof (run_fresh_from es _ st Hrun (initial_fresh hasCtx)) as Hfresh.
  split.
  { destruct (run_handlers es _ st sid k Hrun Hk) as [(k0 & Hk0 & _)|Hin];
      [discriminate Hk0 | exact Hin]. }
  (* the state on which [switchToFallback] runs *)
  assert (Hmid : ∃ w, GeminiLiveService.step e st
                      = Some (GeminiLiveService.switchToFallback cb
                                (GeminiLiveService.mkState w (GeminiLiveService.this st))) ∧
                      GeminiLiveService.timers w
                      = GeminiLiveService.timers (GeminiLiveService.world st) ∧
                      GeminiLiveService.nextTimer w
                      = GeminiLiveService.nextTimer (GeminiLiveService.world st) ∧
                      GeminiLiveService.sent w
                      = GeminiLiveService.sent (GeminiLiveService.world st) ∧
                      GeminiLiveService.calls w
                      = GeminiLiveService.calls (GeminiLiveService.world st) ∧
                      GeminiLiveService.closeCalls w
                      = GeminiLiveService.closeCalls (GeminiLiveService.world st) ∧
                      length (GeminiLiveService.sockets w)
                      = length (GeminiLiveService.sockets (GeminiLiveService.world st)) ∧
                      (∀ sid' k', GeminiLiveService.sockets w !! sid' = Some k' →
                                  GeminiLiveService.sstate k' = GeminiLiveService.Connecting →
                                  ∃ k0, GeminiLiveService.sockets
                                          (GeminiLiveService.world st) !! sid' = Some k0 ∧
                                        GeminiLiveService.sstate k0
                                        = GeminiLiveService.Connecting)).
  { destruct He as [->|[-> Hp]]; unfold GeminiLiveService.step; rewrite Hk;
      cbn [mbind option_bind]; [|rewrite Hp]; eexists; (split; [reflexivity|]).
    - cbn. split_and!; try reflexivity; [apply length_alter|].
      apply alter_keeps_connecting. intros k0 H. discriminate H.
    - case_decide; cbn; (split_and!; try reflexivity);
        rewrite ?length_alter; try reflexivity.
      + intros sid' k' Hk' Hc'.
        apply alter_keeps_connecting in Hk' as (k1 & Hk1 & Hc1);
          [|intros k0 H0; discriminate H0|exact Hc'].
        apply alter_keeps_connecting in Hk1 as (k0 & Hk0 & Hc0);
          [eauto|intros k0 H0; exact H0|exact Hc1].
      + apply alter_keeps_connecting. intros k0 H0. exact H0. }
  destruct Hmid as (w & Hstep & Ew & En & Esent & Ecalls & Eclose & El & Ec).
  set (st0 := GeminiLiveService.mkState w (GeminiLiveService.this st)) in *.
  destruct (switchToFallback_spec cb st0 Hfb)
    as (Et & En' & Ei & Es & Ef & Ea & Ex & Esn & Ecl & Epp & Ecc & Esk).
  cbn [st0 GeminiLiveService.world GeminiLiveService.this] in Et, En', Ei, Ea, Ex, Esn,
    Ecl, Epp, Ecc, Esk.
  rewrite Ew, En in Et. rewrite En in En', Ei. rewrite Esent in Esn.
  rewrite Ecalls in Ecl. rewrite Eclose in Ecc.
  fold pid in Et, En', Ei. fold polling in Et.
  destruct Hfresh as (F0 & F1 & F2). fold pid in F0, F1, F2.
  assert (Hnew : GeminiLiveService.timers (GeminiLiveService.world st) !! pid = None).
  { destruct (GeminiLiveService.timers (GeminiLiveService.world st) !! pid) as [t|] eqn:E;
      [|reflexivity]. apply F2 in E. lia. }
  set (st' := GeminiLiveService.switchToFallback cb st0) in *.
  exists st'.
  split; [exact Hstep|]. split; [exact Ef|]. split; [exact Ecc|].
  split.
  { intros s k' Hs Hk'. rewrite Esk, Hs, list_lookup_alter_eq in Hk'.
    destruct (_ !! s); [|discriminate]. injection Hk' as <-. reflexivity. }
  split; [exact Es|].
  split.
  { intros id Hid. pose proof (F1 id Hid) as Hr. rewrite Et.
    rewrite lookup_insert_ne by lia. rewrite Hid.
    destruct id as [|id]; [lia|]. cbn [GeminiLiveService.truthyId].
    apply lookup_delete_eq. }
  split; [exact Ei|]. split; [exact Hnew|].
  split; [rewrite Et; apply lookup_insert_eq|].
  split.
  { intros id t Hne Hl. rewrite Et, lookup_insert_ne in Hl by congruence.
    apply cleared_lookup in Hl as [Hl Hn]. split; [exact Hl|].
    intros Hid. apply Hn. rewrite Hid. pose proof (F1 id Hid) as Hr.
    destruct id as [|id]; [lia | reflexivity]. }
  split.
  { intros id t Hl Hn. rewrite Et. pose proof (F2 id t Hl) as Hr.
    rewrite lookup_insert_ne by lia.
    destruct (GeminiLiveService.truthyId _) as [id0|] eqn:E; [|exact Hl].
    apply truthyId_Some in E as [E _].
    rewrite lookup_delete_ne by congruence. exact Hl. }
  split.
  { intros Honce.
    pose proof (run_tracked hasCtx es st Hrun Honce) as Htr.
    assert (Htr0 : GeminiLiveService.tracked st0)
      by (apply (quiet_tracked st); assumption || reflexivity).
    destruct (switchToFallback_effect cb st0 Htr0 Hfb) as (Et0 & _).
    cbn [st0 GeminiLiveService.world] in Et0. rewrite En in Et0. exact Et0. }
  split; [exact Esn|]. split; [exact Ecl|].
  (* the firings *)
  assert (Hloop : GeminiLiveService.pollingLoop pid cb st').
  { unfold GeminiLiveService.pollingLoop. rewrite Et, En', Ef.
    split_and!; [apply lookup_insert_eq | reflexivity | lia]. }
  intros es2 st2 Hes2 Hrun2.
  destruct (run_pollingLoop es2 st' st2 pid cb Hrun2 Hes2 Hloop)
    as ((Ht2 & Hf2 & Hn2) & Ea2 & Ex2).
  rewrite Ea in Ea2. rewrite Ex in Ex2.
  split; [exact Ht2|].
  intros v. split.
  { intros Hg. unfold GeminiLiveService.step. rewrite Ht2.
    cbn [mbind option_bind GeminiLiveService.body polling].
    rewrite pollingTick_idle; [reflexivity|]. rewrite Ea2, Ex2. exact Hg. }
  intros Hai Hctx Hw.
  destruct (pollingTick_sends cb v st2) as (Hs1 & Hp1 & Ht1 & Hc1 & Hth1);
    [rewrite Ea2; exact Hai | rewrite Ex2; exact Hctx | exact Hw |].
  exists (GeminiLiveService.pollingTick cb v st2).
  split; [unfold GeminiLiveService.step; rewrite Ht2; reflexivity|].
  split; [exact Hs1|]. split; [exact Ht1|]. split; [exact Hc1|].
  intros text.
  destruct (onPollResponse_forwards cb text
              (GeminiLiveService.calls
                 (GeminiLiveService.world (GeminiLiveService.pollingTick cb v st2))))
    as (out & Eout & Hobj & Hempty & Hthrow & Hcb).
  unfold GeminiLiveService.step.
  rewrite Hp1, lookup_app_r, Nat.sub_diag by lia.
  cbn [lookup list_lookup mbind option_bind].
  unfold GeminiLiveService.runHandler.
  cbn [GeminiLiveService.world GeminiLiveService.calls GeminiLiveService.setPending].
  rewrite Eout. eexists _, out.
  split; [reflexivity|]. cbn.
  split; [reflexivity|]. split; [reflexivity|].
  split; [exact Hobj|]. split; [exact Hempty|]. split; [exact Hthrow | exact Hcb].
Qed.

Lemma C3_fallback_to_polling_witness :
  ∃ st' st3,
    GeminiLiveService.run
      [GeminiLiveService.Connect true 5; GeminiLiveService.LiveOpen 0;
       GeminiLiveService.LiveResolve 0; GeminiLiveService.LiveError 0]
      (GeminiLiveService.initial true) = Some st' ∧
    GeminiLiveService.closeCalls (GeminiLiveService.world st') = [0%nat] ∧
    GeminiLiveService.timers (GeminiLiveService.world st')
    = {[2%nat := GeminiLiveService.mkTimer (GeminiLiveService.PollingTick 5) 1500]} ∧
    GeminiLiveService.step
      (GeminiLiveService.Tick 2 (GeminiLiveService.mkVideo 642 482 7)) st' = Some st3 ∧
    GeminiLiveService.sent (GeminiLiveService.world st3)
    = [GeminiLiveService.GenerateContent "gemini-2.5-flash"
         (GeminiLiveService.mkCapture 160 120 7 0.6)].
Proof.
  assert (Hrun : GeminiLiveService.run
                   [GeminiLiveService.Connect true 5; GeminiLiveService.LiveOpen 0;
                    GeminiLiveService.LiveResolve 0]
                   (GeminiLiveService.initial true)
                 = Some (GeminiLiveService.mkState
                           (GeminiLiveService.mkWorld
                              {[1%nat := GeminiLiveService.mkTimer
                                           (GeminiLiveService.StreamingTick 5) 800]}
                              2 [GeminiLiveService.mkSocket GeminiLiveService.Open false 5]
                              [] [] [] [] [] [])
                           (GeminiLiveService.mkService (Some 0%nat) (Some 1%nat)
                              true true false)))
    by (vm_compute; reflexivity).
  destruct (C3_fallback_to_polling true _ _ (GeminiLiveService.LiveError 0) 0%nat
              (GeminiLiveService.mkSocket GeminiLiveService.Open false 5)
              Hrun eq_refl (or_introl eq_refl) eq_refl)
    as (_ & st' & Hstep & _ & Hclose & _ & _ & _ & _ & _ & _ & _ & _ & Honly & Hsent
        & _ & Hfire).
  destruct (Hfire [] st' (Forall_nil_2 _) eq_refl) as (_ & Hv).
  destruct (proj2 (Hv (GeminiLiveService.mkVideo 642 482 7)) eq_refl eq_refl)
    as (st3 & Hstep3 & Hsent3 & _); [discriminate|].
  exists st', st3.
  split; [exact (run_snoc _ _ _ _ _ Hrun Hstep)|].
  split; [exact Hclose|]. split; [exact (Honly (le_n 1))|].
  split; [exact Hstep3|]. rewrite Hsent3, Hsent. reflexivity.
Defined.

(** * Further properties of the code *)

(** ** The progress signal settles *)

Section ProgressSettles.

Import Experience.
#[local] Open Scope Q_scope.

Lemma step_at_target (s : TreeState) : step s (target s) = target s.
Proof. destruct s; reflexivity. Qed.

Lemma runFrom_at_target (s : TreeState) (n : nat) :
  runFrom (replicate n s) (target s) = target s.
Proof.
  induction n as [|n IH]; [reflexivity|].
  simpl. rewrite step_at_target. exact IH.
Qed.

Lemma step_cases (s : TreeState) (p : Q) :
  step s p = target s ∨
  Qabs (target s - step s p) == 0.95 * Qabs (target s - p).
Proof.
  unfold step, animate.
  destruct (ltb (Qabs (target s - p)) 0.001); [left; reflexivity|right].
  setoid_replace (target s - (p + (target s - p) * 0.05))
    with (0.95 * (target s - p)) using relation Qeq by ring.
  rewrite Qabs_Qmult. reflexivity.
Qed.

(** After [k] steps the value is the target or its distance has shrunk by
    the factor [0.95] each time. *)
Lemma runFrom_decay (s : TreeState) (k : nat) (p d : Q) :
  Qabs (target s - p) <= d →
  runFrom (replicate k s) p = target s ∨
  Qabs (target s - runFrom (replicate k s) p) <= Nat.iter k (Qmult 0.95) d.
Proof.
  revert p d. induction k as [|k IH]; intros p d Hd; [right; exact Hd|].
  cbn [replicate runFrom fold_left]. fold (runFrom (replicate k s) (step s p)).
  destruct (step_cases s p) as [E|E].
  - left. rewrite E. apply runFrom_at_target.
  - destruct (IH (step s p) (0.95 * d)) as [H|H].
    + rewrite E. apply Qmult_le_l; [reflexivity | exact Hd].
    + left. exact H.
    + right. rewrite Nat.iter_succ_r. exact H.
Qed.

Lemma runFrom_app (l1 l2 : list TreeState) (p : Q) :
  runFrom (l1 ++ l2) p = runFrom l2 (runFrom l1 p).
Proof. unfold runFrom. apply fold_left_app. Qed.

Lemma settles_in_136 (s : TreeState) (p : Q) :
  0 <= p <= 1 → runFrom (replicate 136 s) p = target s.
Proof.
  intros Hp.
  change 136%nat with (135 + 1)%nat. rewrite replicate_add, runFrom_app.
  assert (Hd : Qabs (target s - p) <= 1).
  { apply Qabs_Qle_condition. destruct (target_cases s) as [[_ ->]|[_ ->]]; lra. }
  destruct (runFrom_decay s 135 p 1 Hd) as [E|H].
  - rewrite E. apply (runFrom_at_target s 1).
  - cbn [replicate runFrom fold_left]. apply animate_snaps.
    eapply Qle_lt_trans; [exact H|]. vm_compute. reflexivity.
Qed.

End ProgressSettles.

(** X1: while the tree state stays the same, the progress signal reaches
    its target exactly within 136 animation steps from any value between
    [0] and [1], and stays there: the transition animation ends. *)
Theorem X1_progress_settles (s : TreeState) (p : Q) (n : nat)
        (Hp : (0 <= p <= 1)%Q) (Hn : (136 ≤ n)%nat) :
  Experience.runFrom (replicate n s) p = Experience.target s.
Proof.
  replace n with (136 + (n - 136))%nat by lia.
  rewrite replicate_add, runFrom_app, (settles_in_136 s p Hp).
  apply runFrom_at_target.
Qed.

Lemma X1_progress_settles_witness :
  Experience.runFrom (replicate 136 CHAOS) 0 = 1%Q.
Proof.
  apply (X1_progress_settles CHAOS 0 136).
  - split; discriminate.
  - apply le_n.
Defined.

(** ** The foliage weight and the box between the two arrangements *)

Section FoliageBounds.

Import Three Foliage.
#[local] Open Scope Q_scope.

Lemma lerp_between (a b t : Q) :
  0 <= t <= 1 → a <= b → a <= lerp a b t <= b.
Proof. intros Ht Hab. unfold lerp. split; nra. Qed.

Lemma lerp_between_rev (a b t : Q) :
  0 <= t <= 1 → b <= a → b <= lerp a b t <= a.
Proof. intros Ht Hab. unfold lerp. split; nra. Qed.

Lemma lerp_in_interval (lo hi a b t : Q) :
  0 <= t <= 1 → lo <= a <= hi → lo <= b <= hi → lo <= lerp a b t <= hi.
Proof. intros Ht Ha Hb. unfold lerp. split; nra. Qed.

Lemma mix_in_interval (a b u : Q) :
  0 <= u <= 1 →
  (a <= b → a <= mix a b u <= b) ∧ (b <= a → b <= mix a b u <= a).
Proof. intros Hu. unfold mix. split; intros Hab; split; nra. Qed.

Lemma framesFrom_weight (frames : list (Q * Q)) (u : Uniforms) :
  0 <= uProgress u <= 1 →
  Forall (fun f => 0 <= snd f <= 1) frames →
  ∃ u', framesFrom u frames = Some u' ∧ 0 <= uProgress u' <= 1.
Proof.
  revert u. induction frames as [|f frames IH]; intros u Hu Hall.
  - exists u. split; [reflexivity | exact Hu].
  - apply Forall_cons in Hall as [Hf Hall].
    unfold framesFrom. cbn [fold_left useFrame].
    apply (IH (mkUniforms (fst f) (lerp (uProgress u) (snd f) 0.1))); [|exact Hall].
    cbn [uProgress]. apply lerp_in_interval; [split; discriminate | exact Hu | exact Hf].
Qed.

End FoliageBounds.

(** X2: when every frame is given a progress value between [0] and [1] (as
    the progress signal is), the foliage weight [uProgress] is between [0]
    and [1] after any number of frames, and every foliage particle is then
    drawn, in [y] and in [z], between its formed and its chaos coordinate:
    the interpolation never overshoots either arrangement. *)
Theorem X2_foliage_between_arrangements
        (sin : Q → Q) (seed : nat → Foliage.Seed) (frames : list (Q * Q)) (i : nat)
        (Hframes : Forall (fun f => (0 <= snd f <= 1)%Q) frames)
        (Hi : (N.of_nat i < FOLIAGE_COUNT)%N) :
  ∃ u pos,
    Foliage.framesFrom Foliage.initialUniforms frames = Some u ∧
    (0 <= Foliage.uProgress u <= 1)%Q ∧
    Foliage.renderedPosition sin u (Foliage.useMemoBuffers seed) i = Some pos ∧
    let f := Foliage.formed (seed i) in
    let c := Foliage.chaos (seed i) in
    ((Three.y f <= Three.y c)%Q → (Three.y f <= Three.y pos <= Three.y c)%Q) ∧
    ((Three.y c <= Three.y f)%Q → (Three.y c <= Three.y pos <= Three.y f)%Q) ∧
    ((Three.z f <= Three.z c)%Q → (Three.z f <= Three.z pos <= Three.z c)%Q) ∧
    ((Three.z c <= Three.z f)%Q → (Three.z c <= Three.z pos <= Three.z f)%Q).
Proof.
  destruct (framesFrom_weight frames Foliage.initialUniforms) as (u & Eu & Hu);
    [split; discriminate | exact Hframes |].
  exists u. eexists. split; [exact Eu|]. split; [exact Hu|].
  split; [apply renderedPosition_spec, Hi|].
  cbn [Foliage.vertexShader Three.mix3 Three.y Three.z].
  destruct (mix_in_interval (Three.y (Foliage.formed (seed i)))
                            (Three.y (Foliage.chaos (seed i))) _ Hu) as (Hy1 & Hy2).
  destruct (mix_in_interval (Three.z (Foliage.formed (seed i)))
                            (Three.z (Foliage.chaos (seed i))) _ Hu) as (Hz1 & Hz2).
  split; [exact Hy1|]. split; [exact Hy2|]. split; [exact Hz1 | exact Hz2].
Qed.

Lemma X2_foliage_between_arrangements_witness :
  ∃ u pos,
    Foliage.framesFrom Foliage.initialUniforms [(0, 1); (1, 1)]%Q = Some u ∧
    Foliage.renderedPosition (fun _ => 0%Q) u
      (Foliage.useMemoBuffers
         (fun _ => Foliage.mkSeed (Three.mkVector3 0 0 0) (Three.mkVector3 0 10 0) 0))
      0%nat = Some pos ∧
    (0 <= Three.y pos <= 10)%Q.
Proof.
  destruct (X2_foliage_between_arrangements
              (fun _ => 0%Q)
              (fun _ => Foliage.mkSeed (Three.mkVector3 0 0 0) (Three.mkVector3 0 10 0) 0)
              [(0, 1); (1, 1)]%Q 0%nat)
    as (u & pos & Eu & _ & Epos & Hy & _).
  - repeat constructor; discriminate.
  - reflexivity.
  - exists u, pos. split; [exact Eu|]. split; [exact Epos|].
    apply Hy. discriminate.
Defined.

(** ** The camera rig *)

Section RigProperties.

Import Three Rig.
#[local] Open Scope Q_scope.

Lemma rig_useFrame_bounds (g : GestureData) (c : Camera) :
  -1 <= handX g <= 1 → -1 <= handY g <= 1 →
  -10 <= x (position c) <= 10 → -2 <= y (position c) <= 8 →
  -10 <= x (position (useFrame g c)) <= 10 ∧
  -2 <= y (position (useFrame g c)) <= 8.
Proof.
  intros Hx Hy Hcx Hcy. unfold useFrame, CAMERA_POS; cbn [position x y fst snd].
  split; apply lerp_in_interval; try assumption; try (split; discriminate); lra.
Qed.

Lemma rig_runFrames_bounds (frames : list GestureData) (c : Camera) :
  Forall (fun g => -1 <= handX g <= 1 ∧ -1 <= handY g <= 1) frames →
  -10 <= x (position c) <= 10 → -2 <= y (position c) <= 8 →
  -10 <= x (position (runFrames frames c)) <= 10 ∧
  -2 <= y (position (runFrames frames c)) <= 8 ∧
  z (position (runFrames frames c)) = z (position c).
Proof.
  revert c. induction frames as [|g frames IH]; intros c Hall Hcx Hcy.
  - split; [exact Hcx|]. split; [exact Hcy | reflexivity].
  - apply Forall_cons in Hall as [[Hx Hy] Hall].
    destruct (rig_useFrame_bounds g c Hx Hy Hcx Hcy) as (Hx' & Hy').
    cbn [runFrames fold_left]. apply (IH (useFrame g c) Hall Hx' Hy').
Qed.

End RigProperties.

(** X3: as long as the hand coordinates of the gesture data are between
    [-1] and [1], the camera stays, after any number of frames from its
    initial pose, within [x] between [-10] and [10] and [y] between [-2]
    and [8], at its initial depth [z = 20]; after a frame it looks at
    [(0, 6, 0)]. *)
Theorem X3_camera_stays_in_range (frames : list GestureData) (g : GestureData)
        (Hframes : Forall (fun g => (-1 <= handX g <= 1)%Q ∧ (-1 <= handY g <= 1)%Q)
                          (frames ++ [g])) :
  let camera := Rig.runFrames (frames ++ [g]) Rig.initialCamera in
  (-10 <= Three.x (Rig.position camera) <= 10)%Q ∧
  (-2 <= Three.y (Rig.position camera) <= 8)%Q ∧
  Three.z (Rig.position camera) = 20%Q ∧
  Rig.lookAt camera = Three.mkVector3 0 6 0.
Proof.
  intros camera.
  destruct (rig_runFrames_bounds (frames ++ [g]) Rig.initialCamera Hframes)
    as (Hx & Hy & Hz); [split; discriminate | split; discriminate |].
  split; [exact Hx|]. split; [exact Hy|]. split; [exact Hz|].
  unfold camera, Rig.runFrames. rewrite fold_left_app. reflexivity.
Qed.

Lemma X3_camera_stays_in_range_witness :
  (-10 <= Three.x (Rig.position
                     (Rig.runFrames ([mkGestureData CHAOS 1 1] ++ [mkGestureData CHAOS 1 (-1)])
                                    Rig.initialCamera)) <= 10)%Q.
Proof.
  refine (proj1 (X3_camera_stays_in_range [mkGestureData CHAOS 1 1]
                   (mkGestureData CHAOS 1 (-1)) _)).
  repeat constructor; discriminate.
Defined.

(** ** The top star *)

Section TopStarProperties.

Import Three TopStar.
#[local] Open Scope Q_scope.

Lemma star_useFrame_onAxis (progress t : Q) (m : Mesh) :
  onAxis m → ∃ m', useFrame progress t (Some m) = Some m' ∧ onAxis m'.
Proof.
  intros (Hx & Hz & Hy & Hr). unfold useFrame, onAxis.
  destruct (Experience.ltb 0.5 progress); eexists; (split; [reflexivity|]);
    cbn [position rotation lerp3 x y z chaosPos targetPos];
    unfold lerp, TREE_HEIGHT, CHAOS_RADIUS; rewrite ?Hx, ?Hz, ?Hr;
    (split_and!; try lra; try (split; lra)).
Qed.

Lemma star_runFrames_onAxis (frames : list (Q * Q)) (m : Mesh) :
  onAxis m → ∃ m', runFrames frames (Some m) = Some m' ∧ onAxis m'.
Proof.
  revert m. induction frames as [|f frames IH]; intros m Hm.
  - exists m. split; [reflexivity | exact Hm].
  - destruct (star_useFrame_onAxis (fst f) (snd f) m Hm) as (m1 & E1 & Hm1).
    cbn [runFrames fold_left]. rewrite E1. apply (IH m1 Hm1).
Qed.

End TopStarProperties.

(** X4: the top star never leaves the axis of the tree: after any number
    of frames, whatever the progress values, its position has [x = 0] and
    [z = 0] and a height between [12] (where it is mounted) and [28] (its
    chaos height), and it is never rotated about [x]. *)
Theorem X4_top_star_on_axis (frames : list (Q * Q)) :
  ∃ m, TopStar.runFrames frames (Some TopStar.initialMesh) = Some m ∧
       (Three.x (TopStar.position m) == 0)%Q ∧
       (Three.z (TopStar.position m) == 0)%Q ∧
       (12 <= Three.y (TopStar.position m) <= 28)%Q ∧
       (Three.x (TopStar.rotation m) == 0)%Q.
Proof.
  destruct (star_runFrames_onAxis frames TopStar.initialMesh) as (m & E & H).
  - unfold TopStar.onAxis; cbn. split_and!; try reflexivity; discriminate.
  - exists m. split; [exact E | exact H].
Qed.

(** ** The gallery grid of the polaroids *)

Section GalleryProperties.

Import Three PolaroidItem.
#[local] Open Scope Q_scope.

Lemma floor_sixth (i : nat) :
  Qfloor (inject_Z (Z.of_nat i) / 6) = Z.of_nat (i / 6).
Proof.
  unfold Qdiv, Qmult, Qinv, inject_Z, Qfloor; cbn [Qnum Qden].
  rewrite Z.mul_1_r. change (Z.pos (1 * 6)) with (Z.of_nat 6).
  symmetry. apply Nat2Z.inj_div.
Qed.

Lemma galleryPos_coordinates (i : nat) (total : N) :
  x (galleryPos i total) == 2.5 * inject_Z (Z.of_nat (i mod 6)) - 6.25 ∧
  y (galleryPos i total)
  == 3 * inject_Z (Z.of_nat (i / 6))
     - (inject_Z (Qceiling (inject_Z (Z.of_N total) / 6)) - 1) * 1.5 + 3 ∧
  z (galleryPos i total) = 14.
Proof.
  unfold galleryPos; cbn [x y z]. rewrite floor_sixth.
  split; [|split; [|reflexivity]]; field.
Qed.

Lemma apart_integers (a b : Z) (c : Q) :
  0 <= c → a ≠ b → c <= Qabs (c * inject_Z a - c * inject_Z b).
Proof.
  intros Hc Hne.
  assert (H : (a + 1 <= b)%Z ∨ (b + 1 <= a)%Z) by lia.
  destruct H as [H|H]; rewrite Zle_Qle, inject_Z_plus in H.
  - rewrite <- Qabs_opp. eapply Qle_trans; [|apply Qle_Qabs].
    change (inject_Z 1) with 1 in H. nra.
  - eapply Qle_trans; [|apply Qle_Qabs].
    change (inject_Z 1) with 1 in H. nra.
Qed.

Lemma gallery_apart (i j : nat) (total : N) :
  i ≠ j →
  2.5 <= Qabs (x (galleryPos i total) - x (galleryPos j total)) ∨
  3 <= Qabs (y (galleryPos i total) - y (galleryPos j total)).
Proof.
  intros Hne.
  destruct (galleryPos_coordinates i total) as (Hxi & Hyi & _).
  destruct (galleryPos_coordinates j total) as (Hxj & Hyj & _).
  rewrite Hxi, Hxj, Hyi, Hyj.
  destruct (decide (i mod 6 = j mod 6)%nat) as [Ec|Hc].
  - right.
    assert (Hr : Z.of_nat (i / 6) ≠ Z.of_nat (j / 6)).
    { intros E. apply Nat2Z.inj in E. apply Hne.
      rewrite (Nat.div_mod_eq i 6), (Nat.div_mod_eq j 6), E, Ec. reflexivity. }
    pose proof (apart_integers _ _ 3 ltac:(discriminate) Hr) as H.
    eapply Qle_trans; [exact H|]. apply Qle_lteq. right.
    apply Qabs_wd. ring.
  - left.
    assert (Hr : Z.of_nat (i mod 6) ≠ Z.of_nat (j mod 6))
      by (intros E; apply Nat2Z.inj in E; contradiction).
    pose proof (apart_integers _ _ 2.5 ltac:(discriminate) Hr) as H.
    eapply Qle_trans; [exact H|]. apply Qle_lteq. right.
    apply Qabs_wd. ring.
Qed.

Lemma gallery_in_frame (i : nat) :
  (i < 30)%nat →
  -6.25 <= x (galleryPos i POLAROID_COUNT) <= 6.25 ∧
  -3 <= y (galleryPos i POLAROID_COUNT) <= 9.
Proof.
  intros Hi.
  destruct (galleryPos_coordinates i POLAROID_COUNT) as (Hx & Hy & _).
  rewrite Hx, Hy.
  change (Qceiling (inject_Z (Z.of_N POLAROID_COUNT) / 6)) with 5%Z.
  assert (Hc : (0 <= Z.of_nat (i mod 6) <= 5)%Z).
  { pose proof (Nat.mod_upper_bound i 6). lia. }
  assert (Hr : (0 <= Z.of_nat (i / 6) <= 4)%Z).
  { pose proof (Nat.Div0.div_lt_upper_bound i 6 5). lia. }
  destruct Hc as [Hc0 Hc5]. destruct Hr as [Hr0 Hr4].
  rewrite Zle_Qle in Hc0, Hc5, Hr0, Hr4.
  change (inject_Z 0) with 0 in *. change (inject_Z 5) with 5 in *.
  change (inject_Z 4) with 4 in *.
  split; split; lra.
Qed.

End GalleryProperties.

(** X5: in the gallery that the polaroids fly to in chaos, no two
    polaroids overlap: the gallery positions of two different indices are
    at least [2.5] apart in [x] or at least [3] apart in [y] (a polaroid is
    [1.3] wide and high), all at depth [z = 14]; with the 30 polaroids of
    the scene the grid spans [x] from [-6.25] to [6.25] and [y] from [-3] to
    [9]. *)
Theorem X5_gallery_grid (i j : nat) (total : N) (Hij : i ≠ j) :
  ((2.5 <= Qabs (Three.x (PolaroidItem.galleryPos i total)
                 - Three.x (PolaroidItem.galleryPos j total)))%Q ∨
   (3 <= Qabs (Three.y (PolaroidItem.galleryPos i total)
               - Three.y (PolaroidItem.galleryPos j total)))%Q) ∧
  Three.z (PolaroidItem.galleryPos i total) = 14%Q ∧
  ((i < 30)%nat →
   (-6.25 <= Three.x (PolaroidItem.galleryPos i POLAROID_COUNT) <= 6.25)%Q ∧
   (-3 <= Three.y (PolaroidItem.galleryPos i POLAROID_COUNT) <= 9)%Q).
Proof.
  split; [apply gallery_apart, Hij|]. split; [reflexivity | apply gallery_in_frame].
Qed.

Lemma X5_gallery_grid_witness :
  (-6.25 <= Three.x (PolaroidItem.galleryPos 7 POLAROID_COUNT) <= 6.25)%Q.
Proof.
  refine (proj1 (proj2 (proj2 (X5_gallery_grid 7 8 30 _)) _)).
  - discriminate.
  - repeat constructor.
Defined.

(** ** Data URLs *)

Section DataUrlProperties.

Import Js DataUrl.

Lemma split_no_separator (sep : N) (s : jsstring) :
  sep ∉ s → split sep s = [s].
Proof.
  induction s as [|u s IH]; intros H; [reflexivity|].
  apply not_elem_of_cons in H as [Hu Hs]. simpl.
  destruct (N.eqb_spec u sep) as [->|_]; [congruence|].
  rewrite (IH Hs). reflexivity.
Qed.

Lemma split_nonempty (sep : N) (s : jsstring) : split sep s ≠ [].
Proof.
  destruct s as [|u s]; simpl; [discriminate|].
  destruct (u =? sep)%N; [discriminate|]. destruct (split sep s); discriminate.
Qed.

Lemma split_at_separator (sep : N) (h rest : jsstring) :
  sep ∉ h → split sep (h ++ sep :: rest) = h :: split sep rest.
Proof.
  induction h as [|u h IH]; intros H; simpl.
  - rewrite N.eqb_refl. reflexivity.
  - apply not_elem_of_cons in H as [Hu Hs].
    destruct (N.eqb_spec u sep) as [->|_]; [congruence|].
    rewrite (IH Hs). reflexivity.
Qed.

End DataUrlProperties.

(** X6: [dataUrl.split(',')[1]] gives back the payload of a data URL: for a
    header and a payload without commas (the base64 alphabet has none)
    the result of [header + ',' + payload] is the payload, unchanged; for a
    string without any comma the result is [undefined]. *)
Theorem X6_base64_of_data_url (header payload : list N)
        (Hheader : 44%N ∉ header) (Hpayload : 44%N ∉ payload) :
  DataUrl.base64Of (header ++ 44%N :: payload) = Some payload ∧
  DataUrl.base64Of header = None.
Proof.
  unfold DataUrl.base64Of.
  rewrite split_at_separator by exact Hheader.
  rewrite !split_no_separator by assumption. split; reflexivity.
Qed.

Lemma X6_base64_of_data_url_witness :
  DataUrl.base64Of (Js.str "data:image/jpeg;base64" ++ 44%N :: Js.str "AQID/w==")
  = Some (Js.str "AQID/w==").
Proof.
  refine (proj1 (X6_base64_of_data_url (Js.str "data:image/jpeg;base64")
                   (Js.str "AQID/w==") _ _)); vm_compute; intros H;
    repeat (apply elem_of_cons in H as [H|H]; [discriminate|]);
    apply elem_of_nil in H; exact H.
Defined.

(** ** Uploads that change nothing, and sequences of gestures *)

Section AppEdgeProperties.

Import App.

Lemma Promise_all_pending (promises : list (option string)) :
  None ∈ promises → Promise_all promises = None.
Proof.
  intros H. unfold Promise_all.
  destruct (mapM id promises) as [l|] eqn:E; [|reflexivity].
  apply mapM_Some_1 in E. exfalso.
  induction E as [|x y xs ys Hxy _ IH].
  - apply elem_of_nil in H. exact H.
  - apply elem_of_cons in H as [<-|H]; [discriminate Hxy | exact (IH H)].
Qed.

Lemma gestures_state (ds : list GestureData) (g : GestureData) :
  state (runGestureEvents (map Gesture ds) g) = CHAOS ↔
  state g = CHAOS ∨ Exists (fun d => state d = CHAOS) ds.
Proof.
  revert g. induction ds as [|d ds IH]; intros g; simpl.
  - split; [auto|]. intros [H|H]; [exact H | inversion H].
  - unfold runGestureEvents in IH. rewrite IH, onData_state. split.
    + intros [H|H]; [|right; right; exact H].
      destruct (state d) eqn:Ed; [right; left; exact Ed | left; exact H].
    + intros [H|H].
      * left. destruct (state d); [reflexivity | exact H].
      * apply Exists_cons in H as [H|H]; [|right; exact H].
        left. rewrite H. reflexivity.
Qed.

Lemma gestures_hand (ds : list GestureData) (d g : GestureData) :
  handX (runGestureEvents (map Gesture (ds ++ [d])) g) = handX d ∧
  handY (runGestureEvents (map Gesture (ds ++ [d])) g) = handY d.
Proof.
  unfold runGestureEvents. rewrite map_app, fold_left_app. split; reflexivity.
Qed.

End AppEdgeProperties.

(** X7: an upload that cannot complete changes nothing: with no file list,
    with an empty selection, or when the read of any selected file fails,
    [customPhotos] keeps its previous value (so the polaroids keep what they
    showed). *)
Theorem X7_upload_without_effect (files : list App.File) (prev : list string) :
  App.handleFileChange None prev = prev ∧
  App.handleFileChange (Some []) prev = prev ∧
  (App.mkFile None ∈ files → App.handleFileChange (Some files) prev = prev).
Proof.
  split; [reflexivity|]. split; [reflexivity|].
  intros H. unfold App.handleFileChange. case_decide; [reflexivity|].
  rewrite Promise_all_pending; [reflexivity|].
  change (map App.readAsDataURL files) with (App.readAsDataURL <$> files).
  apply list_elem_of_fmap. exists (App.mkFile None). split; [reflexivity | exact H].
Qed.

Lemma X7_upload_without_effect_witness :
  App.handleFileChange (Some [App.mkFile (Some "data:a"); App.mkFile None])
                       ["data:old"]%string
  = ["data:old"]%string.
Proof.
  refine (proj2 (proj2 (X7_upload_without_effect
                          [App.mkFile (Some "data:a"); App.mkFile None]
                          ["data:old"]%string)) _).
  apply elem_of_cons. right. apply elem_of_cons. left. reflexivity.
Defined.

(** X8: after any sequence of gesture callbacks, the application state is
    [CHAOS] exactly when it was [CHAOS] before or at least one of the
    callbacks reported [CHAOS]; the hand position is that of the last
    callback. *)
Theorem X8_gesture_sequence (ds : list GestureData) (d g : GestureData) :
  (state (App.runGestureEvents (map App.Gesture ds) g) = CHAOS ↔
   state g = CHAOS ∨ Exists (fun d => state d = CHAOS) ds) ∧
  handX (App.runGestureEvents (map App.Gesture (ds ++ [d])) g) = handX d ∧
  handY (App.runGestureEvents (map App.Gesture (ds ++ [d])) g) = handY d.
Proof. split; [apply gestures_state | apply gestures_hand]. Qed.

(** ** The regular expression *)

Section RegexProperties.

Import Js.

Lemma greedyToBrace_sound (s m : jsstring) :
  greedyToBrace s = Some m →
  ∃ body rest, m = body ++ [125%N] ∧ s = m ++ rest ∧
               Forall (fun u => isLineTerminator u = false) body.
Proof.
  revert m. induction s as [|u s IH]; intros m H; simpl in H; [discriminate|].
  destruct (isLineTerminator u) eqn:El.
  - destruct (N.eqb_spec u 125) as [->|_]; [discriminate El | discriminate H].
  - destruct (greedyToBrace s) as [m'|] eqn:Eg.
    + injection H as <-. destruct (IH m' eq_refl) as (body & rest & -> & -> & Hb).
      exists (u :: body), rest. split; [reflexivity|]. split; [reflexivity|].
      constructor; assumption.
    + destruct (N.eqb_spec u 125) as [->|_]; [|discriminate].
      injection H as <-. exists [], s. split; [reflexivity|]. split; [reflexivity|].
      constructor.
Qed.

Lemma greedyToBrace_complete (body rest : jsstring) :
  Forall (fun u => isLineTerminator u = false) body →
  is_Some (greedyToBrace (body ++ 125%N :: rest)).
Proof.
  induction 1 as [|u body Hu _ IH]; simpl.
  - destruct (greedyToBrace rest); eexists; reflexivity.
  - rewrite Hu. destruct IH as [m ->]. eexists; reflexivity.
Qed.

Lemma matchBraces_sound (s m : jsstring) :
  matchBraces s = Some m →
  ∃ before body after,
    s = before ++ m ++ after ∧ m = 123%N :: body ++ [125%N] ∧
    Forall (fun u => isLineTerminator u = false) body.
Proof.
  revert m. induction s as [|u s IH]; intros m H; simpl in H; [discriminate|].
  assert (Hskip : matchBraces s = Some m →
                  ∃ before body after,
                    u :: s = before ++ m ++ after ∧ m = 123%N :: body ++ [125%N] ∧
                    Forall (fun u => isLineTerminator u = false) body).
  { intros E. destruct (IH m E) as (before & body & after & -> & -> & Hb).
    exists (u :: before), body, after. split; [reflexivity|]. split; [reflexivity | exact Hb]. }
  destruct (N.eqb_spec u 123) as [->|_]; [|exact (Hskip H)].
  destruct (greedyToBrace s) as [m'|] eqn:Eg; [|exact (Hskip H)].
  injection H as <-.
  destruct (greedyToBrace_sound s m' Eg) as (body & rest & -> & -> & Hb).
  exists [], body, rest. split; [reflexivity|]. split; [reflexivity | exact Hb].
Qed.

Lemma matchBraces_complete (before body after : jsstring) :
  Forall (fun u => isLineTerminator u = false) body →
  is_Some (matchBraces (before ++ 123%N :: body ++ 125%N :: after)).
Proof.
  intros Hb. induction before as [|u before IH]; simpl.
  - destruct (greedyToBrace_complete body after Hb) as [m ->]. eexists; reflexivity.
  - destruct (u =? 123)%N; [|exact IH].
    destruct (greedyToBrace _); [eexists; reflexivity | exact IH].
Qed.

End RegexProperties.

(** X9: the regular expression of the streaming handler finds a match
    exactly when the payload has an opening brace that is followed, with no
    line terminator in between, by a closing brace; what it returns is then
    a piece of the payload that starts with an opening brace, ends with a
    closing brace and lies on one line.  Braces that are only paired across
    a line break, as in pretty-printed JSON, are not matched. *)
Theorem X9_brace_match (s : list N) :
  (∀ m, Js.matchBraces s = Some m →
        ∃ before body after,
          s = before ++ m ++ after ∧ m = 123%N :: body ++ [125%N] ∧
          Forall (fun u => Js.isLineTerminator u = false) body) ∧
  (is_Some (Js.matchBraces s) ↔
   ∃ before body after,
     s = before ++ 123%N :: body ++ 125%N :: after ∧
     Forall (fun u => Js.isLineTerminator u = false) body) ∧
  Js.matchBraces (Js.json "{
 'state': 'CHAOS' }") = None.
Proof.
  split; [intros m; apply matchBraces_sound|]. split; [|reflexivity].
  split.
  - intros [m Hm]. destruct (matchBraces_sound s m Hm) as (before & body & after & E & -> & Hb).
    exists before, body, after. split; [|exact Hb].
    rewrite E. simpl. rewrite <- app_assoc. reflexivity.
  - intros (before & body & after & -> & Hb). apply matchBraces_complete, Hb.
Qed.

(** ** Messages with several parts *)

Section MessageProperties.

Import Js GeminiLiveService.

(** What one part adds to the log does not depend on the log. *)
Lemma onPart_log (cb : Callback) (p : Part) (log : list (Callback * GestureData)) :
  onPart cb p log = (Ok tt, log ++ snd (onPart cb p [])).
Proof.
  destruct p as [[s|]]; [|rewrite app_nil_r; reflexivity].
  destruct (onPart_cases cb s log) as [(m & fields & Em & Ep & E)|(_ & E)];
    destruct (onPart_cases cb s []) as [(m' & fields' & Em' & Ep' & E')|(H' & E')];
    rewrite E, E'; rewrite ?deliver_object; cbn [snd].
  - assert (fields' = fields) by congruence. subst. reflexivity.
  - exfalso. destruct H' as [H'|(m' & Em' & Ep')]; congruence.
  - exfalso.
    destruct (onPart_cases cb s log) as [(m & fields & Em & Ep & E0)|(H & E0)].
    + rewrite E0, deliver_object in E. injection E as E.
      apply (f_equal length) in E. rewrite length_app in E. simpl in E. lia.
    + destruct H as [H|(m & Em & Ep)]; congruence.
  - rewrite app_nil_r. reflexivity.
Qed.

Lemma forParts_log (cb : Callback) (ps : list Part) (log : list (Callback * GestureData)) :
  forParts cb ps log = (Ok tt, log ++ concat (map (fun p => snd (onPart cb p [])) ps)).
Proof.
  revert log. induction ps as [|p ps IH]; intros log; simpl.
  - rewrite app_nil_r. reflexivity.
  - unfold bind. rewrite onPart_log, IH, app_assoc. reflexivity.
Qed.

End MessageProperties.

(** X10: a message of the live session is handled part by part: no
    exception escapes, and the callbacks made are, in order, those that each
    part with text makes on its own.  A part that is empty, has no braces or
    does not parse contributes nothing and does not keep the later parts
    from being delivered. *)
Theorem X10_message_parts (cb : nat) (ps : list GeminiLiveService.Part)
        (log : list (nat * GestureData)) :
  GeminiLiveService.onmessage cb (GeminiLiveService.mkMessage (Some ps)) log
  = (Js.Ok tt,
     log ++ concat (map (fun p => snd (GeminiLiveService.onPart cb p [])) ps)) ∧
  GeminiLiveService.onmessage cb (GeminiLiveService.mkMessage None) log = (Js.Ok tt, log) ∧
  GeminiLiveService.onmessage cb
    (GeminiLiveService.mkMessage
       (Some [GeminiLiveService.mkPart (Some (Js.json "{broken"));
              GeminiLiveService.mkPart None;
              GeminiLiveService.mkPart (Some (Js.json "{'state':'CHAOS'}"))])) log
  = (Js.Ok tt, log ++ [(cb, mkGestureData CHAOS 0 0)]).
Proof.
  split; [apply forParts_log|]. split; [reflexivity|].
  unfold GeminiLiveService.onmessage. cbn [GeminiLiveService.parts].
  rewrite forParts_log. reflexivity.
Qed.

(** ** After [disconnect] *)

Section DisconnectProperties.

Import Js GeminiLiveService.

Lemma alter_pending (f : Socket → Socket) (i : nat) (l : list Socket) :
  (∀ k, pending (f k) = false ∨ pending (f k) = pending k) →
  (∀ sid k, l !! sid = Some k → pending k = false) →
  ∀ sid k, alter f i l !! sid = Some k → pending k = false.
Proof.
  intros Hf Hl sid k Hk. destruct (decide (i = sid)) as [->|Hne].
  - rewrite list_lookup_alter_eq in Hk. destruct (l !! sid) as [k0|] eqn:E; [|discriminate].
    injection Hk as <-. destruct (Hf k0) as [H|H]; [exact H|]. rewrite H. eauto.
  - rewrite list_lookup_alter_ne in Hk by exact Hne. eauto.
Qed.

Lemma switchToFallback_idle (cb : Callback) (st : State) :
  idle st →
  idle (switchToFallback cb st) ∧ sent (world (switchToFallback cb st)) = sent (world st).
Proof.
  destruct st as [w s]. intros (Hs & Ha & Hp). cbn [this world] in Hs, Ha.
  unfold idle, settled, switchToFallback, cancelInterval, dropSession, startPollingFallback.
  cbn [this world isFallbackActive].
  destruct (isFallbackActive s); [split; [split_and!; assumption | reflexivity]|].
  cbn [this world intervalId setIsFallbackActive].
  destruct (truthyId (intervalId s));
    cbn [this world session setIntervalId setIsFallbackActive]; rewrite Hs; cbn;
    (split; [split_and!; [first [reflexivity | exact Hs] | exact Ha | exact Hp]
            | reflexivity]).
Qed.

Lemma disconnect_idle (st : State) :
  settled st → idle (disconnect st) ∧ sent (world (disconnect st)) = sent (world st).
Proof.
  destruct st as [w s]. intros Hp. unfold idle, settled, disconnect in *.
  cbn [this world session intervalId setIsFallbackActive] in *.
  destruct (truthyId (intervalId s)); destruct (session s); cbn;
    (split; [split_and!; [reflexivity | reflexivity |] | reflexivity]);
    try exact Hp;
    (apply alter_pending; [intros k; right; reflexivity | exact Hp]).
Qed.

Lemma step_idle (e : Event) (st st' : State) :
  step e st = Some st' → notConnect e → idle st →
  idle st' ∧ sent (world st') = sent (world st).
Proof.
  intros Hstep Hne Hidle. pose proof Hidle as (Hs & Ha & Hp).
  assert (Halter : ∀ f i w t,
             (∀ k, pending (f k) = false ∨ pending (f k) = pending k) →
             sockets w = alter f i (sockets (world st)) →
             session t = None → ai t = false →
             idle (mkState w t)).
  { intros f i w t Hf Ew Et Eai. split; [exact Et|]. split; [exact Eai|].
    unfold settled. cbn [world]. rewrite Ew. apply alter_pending; assumption. }
  destruct e; unfold step in Hstep.
  - injection Hstep as <-. unfold connect. destruct apiKey; [|split; [exact Hidle | reflexivity]].
    exfalso. apply (Hne onData). reflexivity.
  - injection Hstep as <-. apply disconnect_idle, Hp.
  - destruct (sockets (world st) !! sid) as [k|]; [|discriminate].
    cbn [mbind option_bind] in Hstep. case_decide; [|discriminate].
    injection Hstep as <-. split; [|reflexivity].
    eapply Halter; [|reflexivity| |]; [intros k0; right; reflexivity | exact Hs | exact Ha].
  - destruct (sockets (world st) !! sid) as [k|] eqn:Ek; [|discriminate].
    cbn [mbind option_bind] in Hstep. rewrite (Hp sid k Ek), andb_false_r in Hstep.
    discriminate.
  - destruct (sockets (world st) !! sid) as [k|] eqn:Ek; [|discriminate].
    cbn [mbind option_bind] in Hstep. rewrite (Hp sid k Ek) in Hstep. discriminate.
  - destruct (sockets (world st) !! sid); [|discriminate].
    cbn [mbind option_bind] in Hstep. case_decide; [|discriminate].
    apply runHandler_effect in Hstep as (Eth & _ & _ & Es & Esent & _).
    split; [|exact Esent]. unfold idle, settled. rewrite Eth, Es.
    split_and!; assumption.
  - destruct (sockets (world st) !! sid) as [k|]; [|discriminate].
    cbn [mbind option_bind] in Hstep. injection Hstep as <-.
    refine (let H := switchToFallback_idle (handler k)
                       (mkState (setSocketState sid Closed (world st)) (this st)) _
            in conj (proj1 H) (proj2 H)).
    eapply Halter; [|reflexivity| |]; [intros k0; right; reflexivity | exact Hs | exact Ha].
  - destruct (sockets (world st) !! sid) as [k|]; [|discriminate].
    cbn [mbind option_bind] in Hstep. injection Hstep as <-. split; [|reflexivity].
    eapply Halter; [|reflexivity| |]; [intros k0; right; reflexivity | exact Hs | exact Ha].
  - destruct (timers (world st) !! id) as [t|]; [|discriminate].
    cbn [mbind option_bind] in Hstep.
    destruct (body t); injection Hstep as <-.
    + unfold streamingTick. rewrite Hs. cbn. rewrite orb_true_r. cbn.
      split; [exact Hidle | reflexivity].
    + unfold pollingTick. rewrite Ha. cbn. split; [exact Hidle | reflexivity].
  - destruct (pendingBlobs (world st)); [discriminate|].
    rewrite Hs in Hstep. rewrite andb_false_r in Hstep. cbn in Hstep.
    injection Hstep as <-. split; [|reflexivity]. split_and!; assumption.
  - destruct (pendingSends (world st)); [discriminate|].
    rewrite Hs in Hstep. injection Hstep as <-. split; [|reflexivity].
    split_and!; assumption.
  - destruct (pendingPolls (world st) !! k) as [cb|]; [|discriminate].
    cbn [mbind option_bind] in Hstep.
    apply runHandler_effect in Hstep as (Eth & _ & _ & Es & Esent & _).
    cbn [world this] in *.
    split; [|exact Esent]. unfold idle, settled. rewrite Eth, Es.
    split_and!; assumption.
  - destruct (pendingPolls (world st) !! k) as [cb|]; [|discriminate].
    cbn [mbind option_bind] in Hstep. injection Hstep as <-.
    split; [|reflexivity]. split_and!; assumption.
Qed.

Lemma run_idle (es : list Event) (st st' : State) :
  run es st = Some st' → Forall notConnect es → idle st →
  idle st' ∧ sent (world st') = sent (world st).
Proof.
  revert st. induction es as [|e es IH]; intros st Hrun Hall Hidle; simpl in Hrun.
  - injection Hrun as <-. split; [exact Hidle | reflexivity].
  - apply Forall_cons in Hall as [He Hall].
    destruct (step e st) as [st1|] eqn:E; [|discriminate]. simpl in Hrun.
    destruct (step_idle e st st1 E He Hidle) as (Hidle1 & Es1).
    destruct (IH st1 Hrun Hall Hidle1) as (Hidle' & Es').
    split; [exact Hidle' | congruence].
Qed.

End DisconnectProperties.

(** X11: [disconnect] stops the outgoing traffic.  Once every pending
    [connect] has returned or thrown, then after [disconnect], whatever
    happens next short of a new [connect] (timers that fire, late callbacks
    and errors of the closed connection, frames that finish encoding,
    responses that arrive), no request is sent to the remote API, and the
    service keeps no session and no client. *)
Theorem X11_disconnect_stops_traffic
        (st st' : GeminiLiveService.State) (es : list GeminiLiveService.Event)
        (Hsettled : GeminiLiveService.settled st)
        (Hes : Forall GeminiLiveService.notConnect es)
        (Hrun : GeminiLiveService.run es (GeminiLiveService.disconnect st) = Some st') :
  GeminiLiveService.sent (GeminiLiveService.world st')
  = GeminiLiveService.sent (GeminiLiveService.world st) ∧
  GeminiLiveService.session (GeminiLiveService.this st') = None ∧
  GeminiLiveService.ai (GeminiLiveService.this st') = false.
Proof.
  destruct (disconnect_idle st Hsettled) as (Hidle & Es).
  destruct (run_idle es _ st' Hrun Hes Hidle) as ((Hs & Ha & _) & Es').
  split; [congruence|]. split; assumption.
Qed.

Lemma X11_disconnect_stops_traffic_witness :
  ∃ st st',
    GeminiLiveService.run
      [GeminiLiveService.Connect true 5; GeminiLiveService.LiveOpen 0;
       GeminiLiveService.LiveResolve 0] (GeminiLiveService.initial true) = Some st ∧
    GeminiLiveService.run
      [GeminiLiveService.LiveError 0;
       GeminiLiveService.Tick 2 (GeminiLiveService.mkVideo 640 480 7);
       GeminiLiveService.LiveClose 0] (GeminiLiveService.disconnect st) = Some st' ∧
    GeminiLiveService.sent (GeminiLiveService.world st')
    = GeminiLiveService.sent (GeminiLiveService.world st).
Proof.
  eexists _, _. split; [vm_compute; reflexivity|]. split; [vm_compute; reflexivity|].
  refine (proj1 (X11_disconnect_stops_traffic _ _
                   [GeminiLiveService.LiveError 0;
                    GeminiLiveService.Tick 2 (GeminiLiveService.mkVideo 640 480 7);
                    GeminiLiveService.LiveClose 0] _ _ _)).
  - intros [|sid] k H; [injection H as <-; reflexivity | discriminate H].
  - repeat constructor; intros cb; discriminate.
  - vm_compute. reflexivity.
Defined.

(** ** What the instanced meshes show *)

Section MeshOfEnsemble.

Import Three.

Context {A S F : Type}.
Variable refs : A → Refs.
Variable heapOf : S → store.
Variable meshOf : S → InstancedMesh.
Variable scaleOf : A → Q.
Variable body : F → A → nat → S → S.
Variable val : F → A → nat → Vector3 → Vector3 → Vector3 → Vector3.
(** Which object the instance is placed at: the current position ([true])
    or the formed position ([false]). *)
Variable current : bool.

Hypothesis body_heap : ∀ f d i s,
  (rCurrent (refs d) < length (heapOf s))%nat →
  heapOf (body f d i s)
  = <[rCurrent (refs d) :=
        val f d i (deref (heapOf s) (rCurrent (refs d)))
                  (deref (heapOf s) (rTarget (refs d)))
                  (deref (heapOf s) (rChaos (refs d)))]> (heapOf s).

Hypothesis body_mesh : ∀ f d i s,
  ∃ m, meshOf (body f d i s) = <[i := m]> (meshOf s) ∧
       mPosition m = deref (heapOf (body f d i s))
                           (if current then rCurrent (refs d) else rTarget (refs d)) ∧
       mScale m = mkVector3 (scaleOf d) (scaleOf d) (scaleOf d).

Lemma forEachFrom_mesh (f : F) (l : list A) (i : nat) (s : S) :
  separate (refs <$> l) (heapOf s) →
  (i + length l ≤ length (meshOf s))%nat →
  let s' := forEachFrom (body f) i l s in
  length (meshOf s') = length (meshOf s) ∧
  (∀ j, (j < i)%nat → meshOf s' !! j = meshOf s !! j) ∧
  ∀ k d, l !! k = Some d →
         ∃ m, meshOf s' !! (i + k)%nat = Some m ∧
              mPosition m = deref (heapOf s')
                                  (if current then rCurrent (refs d) else rTarget (refs d)) ∧
              mScale m = mkVector3 (scaleOf d) (scaleOf d) (scaleOf d).
Proof.
  revert i s. induction l as [|d l IH]; intros i s Hsep Hlen; cbv zeta.
  - simpl. split; [reflexivity|]. split; [reflexivity|]. intros k d H. discriminate.
  - simpl forEachFrom. cbn [length] in Hlen.
    destruct (Hsep 0%nat 0%nat (refs d) (refs d) eq_refl eq_refl) as (Hcur & _ & _ & _).
    pose proof (body_heap f d i s Hcur) as Hb.
    assert (Hl1 : length (heapOf (body f d i s)) = length (heapOf s))
      by (rewrite Hb; apply length_insert).
    pose proof (separate_tail refs d l _ _ Hl1 Hsep) as Hsep1.
    destruct (body_mesh f d i s) as (m & Em & Hpos & Hsc).
    assert (Hm1 : length (meshOf (body f d i s)) = length (meshOf s))
      by (rewrite Em; apply length_insert).
    destruct (IH (Datatypes.S i) (body f d i s) Hsep1) as (L & Hlow & Hat);
      [rewrite Hm1; lia|].
    destruct (forEachFrom_heap refs heapOf body val body_heap f l (Datatypes.S i)
                (body f d i s) Hsep1) as (_ & Hother & _).
    split; [rewrite L; exact Hm1|]. split.
    + intros j Hj. rewrite Hlow by lia. rewrite Em.
      apply list_lookup_insert_ne. lia.
    + intros [|k] d' Hk; simpl in Hk.
      * injection Hk as <-. exists m. rewrite Nat.add_0_r.
        split; [rewrite Hlow by lia; rewrite Em; apply list_lookup_insert_eq; lia|].
        split; [|exact Hsc]. rewrite Hpos. symmetry. apply Hother.
        intros k d' Hk E.
        assert (Hd' : (refs <$> d :: l) !! Datatypes.S k = Some (refs d'))
          by (simpl; rewrite list_lookup_fmap, Hk; reflexivity).
        destruct (Hsep 0%nat (Datatypes.S k) (refs d) (refs d') eq_refl Hd')
          as (_ & Ht & _ & Hinj).
        destruct current; [symmetry in E; specialize (Hinj E); discriminate | congruence].
      * destruct (Hat k d' Hk) as (m' & Em' & Hpos' & Hsc').
        exists m'. replace (i + Datatypes.S k)%nat with (Datatypes.S i + k)%nat by lia.
        split; [exact Em'|]. split; assumption.
Qed.

(** Frames keep the particles apart and the mesh at its size. *)
Lemma frames_mesh_length (frames : list F) (l : list A) (s : S) :
  separate (refs <$> l) (heapOf s) →
  (length l ≤ length (meshOf s))%nat →
  let s' := fold_left (fun s f => forEach (body f) l s) frames s in
  separate (refs <$> l) (heapOf s') ∧ length (meshOf s') = length (meshOf s).
Proof.
  revert s. induction frames as [|f frames IH]; intros s Hsep Hlen; cbv zeta; simpl.
  - split; [exact Hsep | reflexivity].
  - destruct (forEach_pass refs heapOf body val body_heap f l s Hsep) as (Hsep1 & _).
    destruct (forEachFrom_mesh f l 0%nat s Hsep) as (L1 & _); [simpl; lia|].
    fold (forEach (body f) l s) in L1.
    destruct (IH (forEach (body f) l s) Hsep1) as (Hsep' & L'); [rewrite L1; exact Hlen|].
    split; [exact Hsep' | congruence].
Qed.

End MeshOfEnsemble.

Section OrnamentMesh.

Import Three Ornaments.
#[local] Open Scope Q_scope.

Variable sin : Q → Q.

Lemma ornament_frameItem_mesh (f : Q * Q) (d : Datum) (i : nat) (sc : Scene) :
  ∃ m, mesh (frameItem sin (fst f) (snd f) d i sc) = <[i := m]> (mesh sc) ∧
       mPosition m = deref (heap (frameItem sin (fst f) (snd f) d i sc))
                           (if true then rCurrent (refs d) else rTarget (refs d)) ∧
       mScale m = mkVector3 (scale d) (scale d) (scale d).
Proof. eexists. split; [reflexivity|]. split; reflexivity. Qed.

Lemma ornament_layoutItem_heap (f : unit) (d : Datum) (i : nat) (sc : Scene) :
  (rCurrent (refs d) < length (heap sc))%nat →
  heap (layoutItem d i sc)
  = <[rCurrent (refs d) :=
        (fun (_ : unit) (_ : Datum) (_ : nat) (c _ _ : Vector3) => c)
          f d i (deref (heap sc) (rCurrent (refs d)))
                (deref (heap sc) (rTarget (refs d)))
                (deref (heap sc) (rChaos (refs d)))]> (heap sc).
Proof.
  intros H. cbn [layoutItem heap]. symmetry. apply list_insert_id.
  unfold deref. destruct (lookup_lt_is_Some_2 _ _ H) as [v ->]. reflexivity.
Qed.

Lemma ornament_layoutItem_mesh (f : unit) (d : Datum) (i : nat) (sc : Scene) :
  ∃ m, mesh (layoutItem d i sc) = <[i := m]> (mesh sc) ∧
       mPosition m = deref (heap (layoutItem d i sc))
                           (if false then rCurrent (refs d) else rTarget (refs d)) ∧
       mScale m = mkVector3 (scale d) (scale d) (scale d).
Proof. eexists. split; [reflexivity|]. split; reflexivity. Qed.

(** After the layout effect every instance sits at its formed position;
    after a frame it sits at the current position of its datum. *)
Lemma ornament_mesh_from (seeds : list Seed) (σ : store) (temp : Object3D)
      (m0 : InstancedMesh) (frames : list (Q * Q)) (f : Q * Q)
      (i : nat) (d : Datum) (s : Seed) :
  let data := fst (newData seeds σ) in
  let sc0 := mkScene (snd (newData seeds σ)) temp m0 in
  let sc1 := useLayoutEffect data true sc0 in
  let sc := runFrames sin data (frames ++ [f]) sc1 in
  (length seeds ≤ length m0)%nat →
  data !! i = Some d → seeds !! i = Some s →
  (∃ m, mesh sc1 !! i = Some m ∧ mPosition m = formed s ∧
        mScale m = mkVector3 (scale d) (scale d) (scale d)) ∧
  (∃ m, mesh sc !! i = Some m ∧ mPosition m = deref (heap sc) (currentPos d) ∧
        mScale m = mkVector3 (scale d) (scale d) (scale d)).
Proof.
  cbv zeta.
  pose proof (newData_separate formed chaos refs newDatum newData
                (fun _ => eq_refl) (fun _ _ _ => eq_refl) ornament_newDatum_alloc seeds σ)
    as Hsep.
  destruct (newData_layout formed chaos refs newDatum newData
              (fun _ => eq_refl) (fun _ _ _ => eq_refl) ornament_newDatum_alloc seeds σ)
    as (Lds & _ & _ & Hnew).
  destruct (newData seeds σ) as [data σ0]. cbn [fst snd] in *.
  intros Hlen Hd Hs.
  destruct (Hnew i s Hs) as (d' & Hd' & Hr & Hf & _).
  assert (d' = d) by congruence. subst d'.
  assert (Et : targetPos d = (length σ + 3 * i)%nat)
    by (change (targetPos d) with (rTarget (refs d)); rewrite Hr; reflexivity).
  rewrite <- Et in Hf. clear Hnew Hr Hd' Et.
  unfold useLayoutEffect, runFrames.
  set (sc0 := mkScene σ0 temp m0) in *.
  change σ0 with (heap sc0) in Hsep, Hf.
  assert (Hm0 : (length data ≤ length (mesh sc0))%nat) by (rewrite Lds; exact Hlen).
  (* the layout effect *)
  destruct (forEach_pass refs heap (fun _ : unit => layoutItem) _ ornament_layoutItem_heap
              tt data sc0 Hsep) as (Hsep1 & Hpass1).
  destruct (forEachFrom_mesh refs heap mesh scale (fun _ : unit => layoutItem) _ false
              ornament_layoutItem_heap ornament_layoutItem_mesh tt data 0%nat sc0 Hsep)
    as (L1 & _ & Hat1); [simpl; exact Hm0|].
  fold (forEach layoutItem data sc0) in L1, Hat1.
  set (sc1 := forEach layoutItem data sc0) in *.
  destruct (Hpass1 i d Hd) as (Ht1 & _).
  cbn [refs rTarget] in Ht1.
  split.
  { destruct (Hat1 i d Hd) as (m & Em & Hp & Hsc).
    exists m. split; [exact Em|]. split; [|exact Hsc].
    rewrite Hp. cbn [refs rTarget]. rewrite Ht1. exact Hf. }
  (* the frames *)
  rewrite fold_left_app. cbn [fold_left]. unfold useFrame.
  destruct (frames_mesh_length refs heap mesh scale
              (fun f => frameItem sin (fst f) (snd f)) _ true
              (ornament_frameItem_heap sin) ornament_frameItem_mesh frames data sc1 Hsep1)
    as (Hsep2 & L2); [rewrite L1; exact Hm0|].
  set (sc2 := fold_left _ frames sc1) in *.
  destruct (forEachFrom_mesh refs heap mesh scale
              (fun f => frameItem sin (fst f) (snd f)) _ true
              (ornament_frameItem_heap sin) ornament_frameItem_mesh f data 0%nat sc2 Hsep2)
    as (_ & _ & Hat2); [simpl; rewrite L2, L1; exact Hm0|].
  destruct (Hat2 i d Hd) as (m & Em & Hp & Hsc).
  exists m. split; [exact Em|]. split; [exact Hp | exact Hsc].
Qed.

Lemma ornament_mesh (seed : nat → Seed) (σ : store) (temp : Object3D)
      (frames : list (Q * Q)) (f : Q * Q) (i : nat) (d : Datum) :
  let data := fst (useMemoData seed σ) in
  let sc0 := mkScene (snd (useMemoData seed σ)) temp (new_InstancedMesh ORNAMENT_COUNT) in
  let sc1 := useLayoutEffect data true sc0 in
  let sc := runFrames sin data (frames ++ [f]) sc1 in
  data !! i = Some d →
  (∃ m, mesh sc1 !! i = Some m ∧ mPosition m = formed (seed i) ∧
        mScale m = mkVector3 (scale d) (scale d) (scale d)) ∧
  (∃ m, mesh sc !! i = Some m ∧ mPosition m = deref (heap sc) (currentPos d) ∧
        mScale m = mkVector3 (scale d) (scale d) (scale d)).
Proof.
  unfold useMemoData, new_InstancedMesh. generalize (N.to_nat ORNAMENT_COUNT). intros n.
  cbv zeta. intros Hd.
  destruct (ornament_seeds_lookup seed n i σ d Hd) as (_ & Hs).
  apply (ornament_mesh_from (map seed (seq 0 n)) σ temp _ frames f i d (seed i));
    [|exact Hd|exact Hs].
  rewrite length_map, length_seq, length_replicate. lia.
Qed.

End OrnamentMesh.

Section FillerMesh.

Import Three Fillers.
#[local] Open Scope Q_scope.

Lemma filler_frameItem_mesh (f : Q * Q) (d : Datum) (i : nat) (sc : Scene) :
  ∃ m, mesh (frameItem (fst f) (snd f) d i sc) = <[i := m]> (mesh sc) ∧
       mPosition m = deref (heap (frameItem (fst f) (snd f) d i sc))
                           (if true then rCurrent (refs d) else rTarget (refs d)) ∧
       mScale m = mkVector3 (scale d) (scale d) (scale d).
Proof. eexists. split; [reflexivity|]. split; reflexivity. Qed.

Lemma filler_layoutItem_heap (f : unit) (d : Datum) (i : nat) (sc : Scene) :
  (rCurrent (refs d) < length (heap sc))%nat →
  heap (layoutItem d i sc)
  = <[rCurrent (refs d) :=
        (fun (_ : unit) (_ : Datum) (_ : nat) (c _ _ : Vector3) => c)
          f d i (deref (heap sc) (rCurrent (refs d)))
                (deref (heap sc) (rTarget (refs d)))
                (deref (heap sc) (rChaos (refs d)))]> (heap sc).
Proof.
  intros H. cbn [layoutItem heap]. symmetry. apply list_insert_id.
  unfold deref. destruct (lookup_lt_is_Some_2 _ _ H) as [v ->]. reflexivity.
Qed.

Lemma filler_layoutItem_mesh (f : unit) (d : Datum) (i : nat) (sc : Scene) :
  ∃ m, mesh (layoutItem d i sc) = <[i := m]> (mesh sc) ∧
       mPosition m = deref (heap (layoutItem d i sc))
                           (if false then rCurrent (refs d) else rTarget (refs d)) ∧
       mScale m = mkVector3 (scale d) (scale d) (scale d).
Proof. eexists. split; [reflexivity|]. split; reflexivity. Qed.

(** After the layout effect every instance sits at its formed position;
    after a frame it sits at the current position of its datum. *)
Lemma filler_mesh_from (seeds : list Seed) (σ : store) (temp : Object3D)
      (m0 : InstancedMesh) (frames : list (Q * Q)) (f : Q * Q)
      (i : nat) (d : Datum) (s : Seed) :
  let data := fst (newData seeds σ) in
  let sc0 := mkScene (snd (newData seeds σ)) temp m0 in
  let sc1 := useLayoutEffect data true sc0 in
  let sc := runFrames data (frames ++ [f]) sc1 in
  (length seeds ≤ length m0)%nat →
  data !! i = Some d → seeds !! i = Some s →
  (∃ m, mesh sc1 !! i = Some m ∧ mPosition m = formed s ∧
        mScale m = mkVector3 (scale d) (scale d) (scale d)) ∧
  (∃ m, mesh sc !! i = Some m ∧ mPosition m = deref (heap sc) (currentPos d) ∧
        mScale m = mkVector3 (scale d) (scale d) (scale d)).
Proof.
  cbv zeta.
  pose proof (newData_separate formed chaos refs newDatum newData
                (fun _ => eq_refl) (fun _ _ _ => eq_refl) filler_newDatum_alloc seeds σ)
    as Hsep.
  destruct (newData_layout formed chaos refs newDatum newData
              (fun _ => eq_refl) (fun _ _ _ => eq_refl) filler_newDatum_alloc seeds σ)
    as (Lds & _ & _ & Hnew).
  destruct (newData seeds σ) as [data σ0]. cbn [fst snd] in *.
  intros Hlen Hd Hs.
  destruct (Hnew i s Hs) as (d' & Hd' & Hr & Hf & _).
  assert (d' = d) by congruence. subst d'.
  assert (Et : targetPos d = (length σ + 3 * i)%nat)
    by (change (targetPos d) with (rTarget (refs d)); rewrite Hr; reflexivity).
  rewrite <- Et in Hf. clear Hnew Hr Hd' Et.
  unfold useLayoutEffect, runFrames.
  set (sc0 := mkScene σ0 temp m0) in *.
  change σ0 with (heap sc0) in Hsep, Hf.
  assert (Hm0 : (length data ≤ length (mesh sc0))%nat) by (rewrite Lds; exact Hlen).
  (* the layout effect *)
  destruct (forEach_pass refs heap (fun _ : unit => layoutItem) _ filler_layoutItem_heap
              tt data sc0 Hsep) as (Hsep1 & Hpass1).
  destruct (forEachFrom_mesh refs heap mesh scale (fun _ : unit => layoutItem) _ false
              filler_layoutItem_heap filler_layoutItem_mesh tt data 0%nat sc0 Hsep)
    as (L1 & _ & Hat1); [simpl; exact Hm0|].
  fold (forEach layoutItem data sc0) in L1, Hat1.
  set (sc1 := forEach layoutItem data sc0) in *.
  destruct (Hpass1 i d Hd) as (Ht1 & _).
  cbn [refs rTarget] in Ht1.
  split.
  { destruct (Hat1 i d Hd) as (m & Em & Hp & Hsc).
    exists m. split; [exact Em|]. split; [|exact Hsc].
    rewrite Hp. cbn [refs rTarget]. rewrite Ht1. exact Hf. }
  (* the frames *)
  rewrite fold_left_app. cbn [fold_left]. unfold useFrame.
  destruct (frames_mesh_length refs heap mesh scale
              (fun f => frameItem (fst f) (snd f)) _ true
              filler_frameItem_heap filler_frameItem_mesh frames data sc1 Hsep1)
    as (Hsep2 & L2); [rewrite L1; exact Hm0|].
  set (sc2 := fold_left _ frames sc1) in *.
  destruct (forEachFrom_mesh refs heap mesh scale
              (fun f => frameItem (fst f) (snd f)) _ true
              filler_frameItem_heap filler_frameItem_mesh f data 0%nat sc2 Hsep2)
    as (_ & _ & Hat2); [simpl; rewrite L2, L1; exact Hm0|].
  destruct (Hat2 i d Hd) as (m & Em & Hp & Hsc).
  exists m. split; [exact Em|]. split; [exact Hp | exact Hsc].
Qed.

Lemma filler_mesh (seed : nat → Seed) (σ : store) (temp : Object3D)
      (frames : list (Q * Q)) (f : Q * Q) (i : nat) (d : Datum) :
  let data := fst (useMemoData seed σ) in
  let sc0 := mkScene (snd (useMemoData seed σ)) temp (new_InstancedMesh FILLER_COUNT) in
  let sc1 := useLayoutEffect data true sc0 in
  let sc := runFrames data (frames ++ [f]) sc1 in
  data !! i = Some d →
  (∃ m, mesh sc1 !! i = Some m ∧ mPosition m = formed (seed i) ∧
        mScale m = mkVector3 (scale d) (scale d) (scale d)) ∧
  (∃ m, mesh sc !! i = Some m ∧ mPosition m = deref (heap sc) (currentPos d) ∧
        mScale m = mkVector3 (scale d) (scale d) (scale d)).
Proof.
  unfold useMemoData, new_InstancedMesh. generalize (N.to_nat FILLER_COUNT). intros n.
  cbv zeta. intros Hd.
  destruct (filler_seeds_lookup seed n i σ d Hd) as (_ & Hs).
  apply (filler_mesh_from (map seed (seq 0 n)) σ temp _ frames f i d (seed i));
    [|exact Hd|exact Hs].
  rewrite length_map, length_seq, length_replicate. lia.
Qed.

End FillerMesh.

(** X12: the instance matrices follow the particles.  The mesh of the
    ornaments and the mesh of the fillers are created with one instance per
    datum.  Once [useLayoutEffect] has run, instance [i] is placed at the
    formed position of particle [i]; after every frame it is placed at the
    current position of particle [i], the [Vector3] the frame has just moved.
    In both cases the instance has the uniform scale of its datum. *)
Theorem X12_instances_follow_particles
        (sin : Q → Q)
        (oseed : nat → Ornaments.Seed) (lseed : nat → Fillers.Seed)
        (σ : list Three.Vector3) (temp : Three.Object3D)
        (frames : list (Q * Q)) (f : Q * Q) (i : nat) :
  let odata := fst (Ornaments.useMemoData oseed σ) in
  let osc0 := Ornaments.mkScene (snd (Ornaments.useMemoData oseed σ)) temp
                (Three.new_InstancedMesh ORNAMENT_COUNT) in
  let osc1 := Ornaments.useLayoutEffect odata true osc0 in
  let osc := Ornaments.runFrames sin odata (frames ++ [f]) osc1 in
  let ldata := fst (Fillers.useMemoData lseed σ) in
  let lsc0 := Fillers.mkScene (snd (Fillers.useMemoData lseed σ)) temp
                (Three.new_InstancedMesh FILLER_COUNT) in
  let lsc1 := Fillers.useLayoutEffect ldata true lsc0 in
  let lsc := Fillers.runFrames ldata (frames ++ [f]) lsc1 in
  (∀ d, odata !! i = Some d →
     (∃ m, Ornaments.mesh osc1 !! i = Some m ∧
           Three.mPosition m = Ornaments.formed (oseed i) ∧
           Three.mScale m
           = Three.mkVector3 (Ornaments.scale d) (Ornaments.scale d) (Ornaments.scale d)) ∧
     (∃ m, Ornaments.mesh osc !! i = Some m ∧
           Three.mPosition m = Three.deref (Ornaments.heap osc) (Ornaments.currentPos d) ∧
           Three.mScale m
           = Three.mkVector3 (Ornaments.scale d) (Ornaments.scale d) (Ornaments.scale d))) ∧
  (∀ d, ldata !! i = Some d →
     (∃ m, Fillers.mesh lsc1 !! i = Some m ∧
           Three.mPosition m = Fillers.formed (lseed i) ∧
           Three.mScale m
           = Three.mkVector3 (Fillers.scale d) (Fillers.scale d) (Fillers.scale d)) ∧
     (∃ m, Fillers.mesh lsc !! i = Some m ∧
           Three.mPosition m = Three.deref (Fillers.heap lsc) (Fillers.currentPos d) ∧
           Three.mScale m
           = Three.mkVector3 (Fillers.scale d) (Fillers.scale d) (Fillers.scale d))).
Proof.
  cbv zeta. split; intros d Hd.
  - exact (ornament_mesh sin oseed σ temp frames f i d Hd).
  - exact (filler_mesh lseed σ temp frames f i d Hd).
Qed.

Lemma X12_instances_follow_particles_witness :
  ∃ m,
    Ornaments.mesh
      (Ornaments.useLayoutEffect
         (fst (Ornaments.useMemoData
                 (fun _ => Ornaments.mkSeed (Three.mkVector3 1 2 3)
                                            (Three.mkVector3 0 10 0) 0.3 0.05) []))
         true
         (Ornaments.mkScene
            (snd (Ornaments.useMemoData
                    (fun _ => Ornaments.mkSeed (Three.mkVector3 1 2 3)
                                               (Three.mkVector3 0 10 0) 0.3 0.05) []))
            Three.new_Object3D (Three.new_InstancedMesh ORNAMENT_COUNT))) !! 0%nat
    = Some m ∧
    Three.mPosition m = Three.mkVector3 1 2 3 ∧
    Three.mScale m = Three.mkVector3 0.3 0.3 0.3.
Proof.
  pose proof (X12_instances_follow_particles
                (fun _ => 0%Q)
                (fun _ => Ornaments.mkSeed (Three.mkVector3 1 2 3)
                                           (Three.mkVector3 0 10 0) 0.3 0.05)
                (fun _ => Fillers.mkSeed (Three.mkVector3 1 2 3) (Three.mkVector3 0 10 0)
                                         0.3 0.05 (Three.mkVector3 0 0 0))
                [] Three.new_Object3D [] (1, 0)%Q 0%nat)
    as (Hornament & _).
  destruct (Hornament (Ornaments.mkDatum 0 1 0.3 0.05 2)) as (Hlayout & _).
  - vm_compute. reflexivity.
  - exact Hlayout.
Defined.

(** ** Where the fillers and the ornaments can be *)

Section BoxProperties.

Import Three Box.
#[local] Open Scope Q_scope.

Lemma between_refl_r (a b : Q) : between a b b.
Proof. unfold between. destruct (Qlt_le_dec a b); [left | right]; lra. Qed.

Lemma between_step (a b e v t : Q) :
  0 <= t <= 1 → (e = a ∨ e = b) → between a b v → between a b (v + (e - v) * t).
Proof.
  unfold between. intros Ht [-> | ->] [Hv | Hv]; [left | right | left | right]; nra.
Qed.

Lemma inBox_chaos (a b : Vector3) : inBox a b b.
Proof. unfold inBox. split_and!; apply between_refl_r. Qed.

Lemma inBox_lerp3 (a b e v : Vector3) (t : Q) :
  0 <= t <= 1 → (e = a ∨ e = b) → inBox a b v → inBox a b (lerp3 v e t).
Proof.
  intros Ht He (Hx & Hy & Hz). unfold inBox, lerp3. cbn [x y z].
  split_and!; apply between_step; try assumption;
    destruct He as [-> | ->]; auto.
Qed.

Lemma pow_succ (q : Q) (n : nat) : q ^ Z.of_nat (S n) == q * q ^ Z.of_nat n.
Proof.
  rewrite Nat2Z.inj_succ. unfold Z.succ.
  rewrite Qpower_plus' by lia. change (q ^ 1) with q. ring.
Qed.

Lemma eq3_towards_start (a b : Vector3) : eq3 a (towards a b (1 ^ 0)).
Proof. unfold eq3, towards. cbn [x y z]. simpl (1 ^ 0). split_and!; ring. Qed.

Lemma eq3_lerp3 (a b v : Vector3) (t : Q) (n : nat) :
  eq3 v (towards a b ((1 - t) ^ Z.of_nat n)) →
  eq3 (lerp3 v b t) (towards a b ((1 - t) ^ Z.of_nat (S n))).
Proof.
  unfold eq3, towards, lerp3. cbn [x y z]. intros (Hx & Hy & Hz).
  rewrite pow_succ. rewrite Hx, Hy, Hz. split_and!; ring.
Qed.

End BoxProperties.

Section FillerBox.

Import Three Box Fillers.
#[local] Open Scope Q_scope.

Lemma filler_in_box (seed : nat → Seed) (σ : store) (temp : Object3D)
      (m : InstancedMesh) (frames : list (Q * Q)) (i : nat) (d : Datum) :
  let data := fst (useMemoData seed σ) in
  let sc0 := mkScene (snd (useMemoData seed σ)) temp m in
  data !! i = Some d → 0 <= speed d <= 1 →
  inBox (formed (seed i)) (chaos (seed i))
        (deref (heap (runFrames data frames sc0)) (currentPos d)).
Proof.
  cbv zeta. intros Hd Hs.
  induction frames as [|f frames IH] using rev_ind.
  - destruct (filler_motion seed σ temp m [] i d Hd) as (H0 & _).
    change (runFrames ?a [] ?b) with b. rewrite H0. apply inBox_chaos.
  - destruct (filler_motion seed σ temp m frames i d Hd) as (_ & _ & _ & Hstep).
    unfold runFrames in *. rewrite fold_left_app. cbn [fold_left].
    rewrite Hstep. apply inBox_lerp3; [exact Hs | | exact IH].
    destruct (Experience.ltb 0.5 (fst f)); auto.
Qed.

Lemma filler_formation (seed : nat → Seed) (σ : store) (temp : Object3D)
      (m : InstancedMesh) (frames : list (Q * Q)) (i : nat) (d : Datum) :
  let data := fst (useMemoData seed σ) in
  let sc0 := mkScene (snd (useMemoData seed σ)) temp m in
  data !! i = Some d → Forall (fun f => fst f <= 0.5) frames →
  eq3 (deref (heap (runFrames data frames sc0)) (currentPos d))
      (towards (chaos (seed i)) (formed (seed i))
               ((1 - speed d) ^ Z.of_nat (length frames))).
Proof.
  cbv zeta. intros Hd.
  induction frames as [|f frames IH] using rev_ind; intros Hf.
  - destruct (filler_motion seed σ temp m [] i d Hd) as (H0 & _).
    change (runFrames ?a [] ?b) with b. rewrite H0.
    unfold eq3, towards. cbn [x y z].
    change ((1 - speed d) ^ Z.of_nat (length (@nil (Q * Q)))) with 1.
    split_and!; ring.
  - apply Forall_app in Hf as (Hf & Hlast).
    rewrite Forall_singleton in Hlast.
    destruct (filler_motion seed σ temp m frames i d Hd) as (_ & _ & _ & Hstep).
    unfold runFrames in *. rewrite fold_left_app. cbn [fold_left].
    rewrite Hstep. apply (proj2 (ltb_ge _ _)) in Hlast. rewrite Hlast.
    rewrite length_app, Nat.add_1_r.
    apply eq3_lerp3, IH, Hf.
Qed.

Lemma eq3_lerp3_rest (b v : Vector3) (t : Q) : eq3 v b → eq3 (lerp3 v b t) b.
Proof.
  unfold eq3, lerp3. cbn [x y z]. intros (Hx & Hy & Hz).
  rewrite Hx, Hy, Hz. split_and!; ring.
Qed.

Lemma filler_rest (seed : nat → Seed) (σ : store) (temp : Object3D)
      (m : InstancedMesh) (frames : list (Q * Q)) (i : nat) (d : Datum) :
  let data := fst (useMemoData seed σ) in
  let sc0 := mkScene (snd (useMemoData seed σ)) temp m in
  data !! i = Some d → Forall (fun f => 0.5 < fst f) frames →
  eq3 (deref (heap (runFrames data frames sc0)) (currentPos d)) (chaos (seed i)).
Proof.
  cbv zeta. intros Hd.
  induction frames as [|f frames IH] using rev_ind; intros Hf.
  - destruct (filler_motion seed σ temp m [] i d Hd) as (H0 & _).
    change (runFrames ?a [] ?b) with b. rewrite H0.
    unfold eq3. split_and!; reflexivity.
  - apply Forall_app in Hf as (Hf & Hlast).
    rewrite Forall_singleton in Hlast.
    destruct (filler_motion seed σ temp m frames i d Hd) as (_ & _ & _ & Hstep).
    unfold runFrames in *. rewrite fold_left_app. cbn [fold_left].
    rewrite Hstep. apply (proj2 (ltb_lt _ _)) in Hlast. rewrite Hlast.
    apply eq3_lerp3_rest, IH, Hf.
Qed.

End FillerBox.

Section OrnamentFormation.

Import Three Box Ornaments.
#[local] Open Scope Q_scope.

Variable sin : Q → Q.

Lemma ornament_formation (seed : nat → Seed) (σ : store) (temp : Object3D)
      (m : InstancedMesh) (frames : list (Q * Q)) (i : nat) (d : Datum) :
  let data := fst (useMemoData seed σ) in
  let sc0 := mkScene (snd (useMemoData seed σ)) temp m in
  data !! i = Some d → Forall (fun f => fst f <= 0.5) frames →
  eq3 (deref (heap (runFrames sin data frames sc0)) (currentPos d))
      (towards (chaos (seed i)) (formed (seed i))
               ((1 - speed d) ^ Z.of_nat (length frames))).
Proof.
  cbv zeta. intros Hd.
  induction frames as [|f frames IH] using rev_ind; intros Hf.
  - destruct (ornament_motion sin seed σ temp m [] i d Hd) as (H0 & _).
    change (runFrames ?s ?a [] ?b) with b. rewrite H0.
    unfold eq3, towards. cbn [x y z].
    change ((1 - speed d) ^ Z.of_nat (length (@nil (Q * Q)))) with 1.
    split_and!; ring.
  - apply Forall_app in Hf as (Hf & Hlast).
    rewrite Forall_singleton in Hlast.
    destruct (ornament_motion sin seed σ temp m frames i d Hd) as (_ & _ & _ & Hstep).
    unfold runFrames in *. rewrite fold_left_app. cbn [fold_left].
    rewrite Hstep. apply (proj2 (ltb_ge _ _)) in Hlast. rewrite Hlast.
    rewrite length_app, Nat.add_1_r.
    apply eq3_lerp3, IH, Hf.
Qed.

End OrnamentFormation.

(** X13: where a filler can be.  A filler starts at its chaos position and
    every frame moves it by [lerp] toward its chaos or its formed position.
    With a speed between 0 and 1 (the source draws it from [0.01, 0.06)) it
    never leaves the axis-aligned box spanned by its formed and its chaos
    position, whatever the progress values of the frames are; and as long
    as every frame has [progress > 0.5] it rests at its chaos position.
    (Coordinates are exact rationals.) *)
Theorem X13_filler_stays_in_box
        (lseed : nat → Fillers.Seed) (σ : list Three.Vector3) (temp : Three.Object3D)
        (m : list Three.Matrix4) (frames : list (Q * Q)) (i : nat) (d : Fillers.Datum)
        (Hd : fst (Fillers.useMemoData lseed σ) !! i = Some d) :
  let data := fst (Fillers.useMemoData lseed σ) in
  let sc0 := Fillers.mkScene (snd (Fillers.useMemoData lseed σ)) temp m in
  let cur := Three.deref (Fillers.heap (Fillers.runFrames data frames sc0))
                         (Fillers.currentPos d) in
  ((0 <= Fillers.speed d <= 1)%Q →
   Box.inBox (Fillers.formed (lseed i)) (Fillers.chaos (lseed i)) cur) ∧
  (Forall (fun f => (0.5 < fst f)%Q) frames →
   Box.eq3 cur (Fillers.chaos (lseed i))).
Proof.
  cbv zeta. split; intros H.
  - exact (filler_in_box lseed σ temp m frames i d Hd H).
  - exact (filler_rest lseed σ temp m frames i d Hd H).
Qed.

Lemma X13_filler_stays_in_box_witness :
  Box.inBox (Three.mkVector3 1 2 3) (Three.mkVector3 0 10 0)
    (Three.deref
       (Fillers.heap
          (Fillers.runFrames
             (fst (Fillers.useMemoData
                     (fun _ => Fillers.mkSeed (Three.mkVector3 1 2 3)
                                 (Three.mkVector3 0 10 0) 0.3 0.05
                                 (Three.mkVector3 0 0 0)) []))
             [(0, 0); (1, 1)]%Q
             (Fillers.mkScene
                (snd (Fillers.useMemoData
                        (fun _ => Fillers.mkSeed (Three.mkVector3 1 2 3)
                                    (Three.mkVector3 0 10 0) 0.3 0.05
                                    (Three.mkVector3 0 0 0)) []))
                Three.new_Object3D [])))
       2%nat).
Proof.
  assert (Hd : fst (Fillers.useMemoData
                      (fun _ => Fillers.mkSeed (Three.mkVector3 1 2 3)
                                  (Three.mkVector3 0 10 0) 0.3 0.05
                                  (Three.mkVector3 0 0 0)) []) !! 0%nat
               = Some (Fillers.mkDatum 0 1 0.3 0.05 2 (Three.mkVector3 0 0 0)))
    by (vm_compute; reflexivity).
  destruct (X13_filler_stays_in_box _ _ Three.new_Object3D [] [(0, 0); (1, 1)]%Q _ _ Hd)
    as (Hbox & _).
  apply Hbox. cbn [Fillers.speed]. split; [discriminate | discriminate].
Defined.

(** X14: the formation in closed form.  While every frame has
    [progress <= 0.5], an ornament and a filler approach their formed
    position geometrically: after [n] frames the current position is
    [formed + (1 - speed)^n * (chaos - formed)] on every coordinate, so the
    remaining offset shrinks by the factor [1 - speed] per frame and no
    sine offset is added.  (Coordinates are exact rationals.) *)
Theorem X14_formation_closed_form
        (sin : Q → Q)
        (oseed : nat → Ornaments.Seed) (lseed : nat → Fillers.Seed)
        (σ : list Three.Vector3) (temp : Three.Object3D) (m : list Three.Matrix4)
        (frames : list (Q * Q)) (i : nat)
        (Hframes : Forall (fun f => (fst f <= 0.5)%Q) frames) :
  let odata := fst (Ornaments.useMemoData oseed σ) in
  let osc0 := Ornaments.mkScene (snd (Ornaments.useMemoData oseed σ)) temp m in
  let ldata := fst (Fillers.useMemoData lseed σ) in
  let lsc0 := Fillers.mkScene (snd (Fillers.useMemoData lseed σ)) temp m in
  (∀ d, odata !! i = Some d →
     Box.eq3 (Three.deref (Ornaments.heap (Ornaments.runFrames sin odata frames osc0))
                          (Ornaments.currentPos d))
             (Box.towards (Ornaments.chaos (oseed i)) (Ornaments.formed (oseed i))
                          ((1 - Ornaments.speed d) ^ Z.of_nat (length frames))%Q)) ∧
  (∀ d, ldata !! i = Some d →
     Box.eq3 (Three.deref (Fillers.heap (Fillers.runFrames ldata frames lsc0))
                          (Fillers.currentPos d))
             (Box.towards (Fillers.chaos (lseed i)) (Fillers.formed (lseed i))
                          ((1 - Fillers.speed d) ^ Z.of_nat (length frames))%Q)).
Proof.
  cbv zeta. split; intros d Hd.
  - exact (ornament_formation sin oseed σ temp m frames i d Hd Hframes).
  - exact (filler_formation lseed σ temp m frames i d Hd Hframes).
Qed.

Lemma X14_formation_closed_form_witness :
  Box.eq3
    (Three.deref
       (Ornaments.heap
          (Ornaments.runFrames (fun _ => 0%Q)
             (fst (Ornaments.useMemoData
                     (fun _ => Ornaments.mkSeed (Three.mkVector3 1 2 3)
                                                (Three.mkVector3 0 10 0) 0.3 0.05) []))
             [(0, 0); (0.5, 1)]%Q
             (Ornaments.mkScene
                (snd (Ornaments.useMemoData
                        (fun _ => Ornaments.mkSeed (Three.mkVector3 1 2 3)
                                                   (Three.mkVector3 0 10 0) 0.3 0.05) []))
                Three.new_Object3D [])))
       2%nat)
    (Box.towards (Three.mkVector3 0 10 0) (Three.mkVector3 1 2 3)
                 ((1 - 0.05) ^ 2)%Q).
Proof.
  assert (Hframes : Forall (fun f : Q * Q => (fst f <= 0.5)%Q) [(0, 0); (0.5, 1)]%Q).
  { apply Forall_cons. split; [discriminate|].
    apply Forall_cons. split; [discriminate|]. apply Forall_nil_2. }
  destruct (X14_formation_closed_form
              (fun _ => 0%Q)
              (fun _ => Ornaments.mkSeed (Three.mkVector3 1 2 3)
                                         (Three.mkVector3 0 10 0) 0.3 0.05)
              (fun _ => Fillers.mkSeed (Three.mkVector3 1 2 3) (Three.mkVector3 0 10 0)
                                       0.3 0.05 (Three.mkVector3 0 0 0))
              [] Three.new_Object3D [] [(0, 0); (0.5, 1)]%Q 0%nat Hframes)
    as (Hornament & _).
  apply (Hornament (Ornaments.mkDatum 0 1 0.3 0.05 2)).
  vm_compute. reflexivity.
Defined.
